(** * A shallow embedding of [pldm/models/encoders/resnet.py]

    The module builds residual image encoders out of the layers of an
    external tensor library.  The embedding keeps the library abstract
    behind the class [Torch] (tensor values, the functional primitives and
    the shape rules they obey) and models the Python side as written:
    modules are records holding the heap locations of their parameter
    tensors, constructors and [forward] methods run in a state-and-exception
    monad over a heap of tensors, in-place operations overwrite the location
    they are given, and an attribute that [__init__] never assigned is an
    absent field whose read raises [AttributeError]. *)

From stdpp Require Import base option list strings.
From Stdlib Require Import ZArith Lia.

Set Default Proof Using "Type".
Open Scope string_scope.
Open Scope list_scope.
Open Scope nat_scope.

(** ** Python exceptions and results *)

(** The two classes that the source raises itself carry their message. *)
Inductive exn : Set :=
| TypeError
| ValueError (msg : string)
| NotImplementedError (msg : string)
| AttributeError
| IndexError
| ZeroDivisionError
| RuntimeError
| ReferenceError.

Inductive result (A : Type) : Type :=
| Ok (a : A)
| Raise (e : exn).
Arguments Ok {A} a.
Arguments Raise {A} e.

Definition rmap {A B} (f : A → B) (r : result A) : result B :=
  match r with
  | Ok a => Ok (f a)
  | Raise e => Raise e
  end.

Definition rbind {A B} (r : result A) (k : A → result B) : result B :=
  match r with
  | Ok a => k a
  | Raise e => Raise e
  end.

Definition is_ok {A} (r : result A) : bool :=
  match r with
  | Ok _ => true
  | Raise _ => false
  end.

(** ** Shape rules of the tensor library

    What the library documents for the output size of each primitive on a
    batched input [n; c; h; w].  The interface below relies on these rules
    for 4-dimensional inputs only. *)

Definition shape_t := list nat.

(** Output extent of a sliding window: [floor ((h + 2p - d(k-1) - 1) / s) + 1]. *)
Definition window_out (h k s p d : nat) : nat :=
  (h + 2 * p - (d * (k - 1) + 1)) / s + 1.

Definition conv2d_shape (xs ws : shape_t) (s p d g : nat) : result shape_t :=
  match xs, ws with
  | [n; c; h; w], [o; ci; kh; kw] =>
      if negb (c =? ci * g) then Raise RuntimeError
      else if s =? 0 then Raise RuntimeError
      else if (h + 2 * p <? d * (kh - 1) + 1) || (w + 2 * p <? d * (kw - 1) + 1)
      then Raise RuntimeError
      else Ok [n; o; window_out h kh s p d; window_out w kw s p d]
  | _, _ => Raise RuntimeError
  end.

(** [F.group_norm]: the library refuses a single value per group
    ("Expected more than 1 value per channel when training"), a channel
    count that the group count does not divide, and an affine weight whose
    length is not the channel count. *)
Definition group_norm_shape (xs : shape_t) (G : nat) (ws : shape_t) : result shape_t :=
  match xs with
  | [n; c; h; w] =>
      if G =? 0 then Raise RuntimeError
      else if (n * c / G) * h * w =? 1
      then Raise (ValueError "Expected more than 1 value per channel when training")
      else if negb (c mod G =? 0) then Raise RuntimeError
      else if decide (ws = [c]) then Ok xs
      else Raise RuntimeError
  | _ => Raise RuntimeError
  end.

Definition max_pool2d_shape (xs : shape_t) (k s p : nat) : result shape_t :=
  match xs with
  | [n; c; h; w] =>
      if (k / 2 <? p) || (s =? 0) then Raise RuntimeError
      else if (h + 2 * p <? k) || (w + 2 * p <? k) then Raise RuntimeError
      else Ok [n; c; window_out h k s p 1; window_out w k s p 1]
  | _ => Raise RuntimeError
  end.

Definition adaptive_avg_pool2d_shape (xs : shape_t) (oh ow : nat) : result shape_t :=
  match xs with
  | [n; c; h; w] =>
      if (c =? 0) || (h =? 0) || (w =? 0) then Raise RuntimeError
      else Ok [n; c; oh; ow]
  | _ => Raise RuntimeError
  end.

Definition constant_pad2d_shape (xs : shape_t) (p : nat) : result shape_t :=
  match xs with
  | [n; c; h; w] => Ok [n; c; h + 2 * p; w + 2 * p]
  | _ => Raise RuntimeError
  end.

(** [torch.flatten(x, 1)]: every dimension after the first is merged. *)
Definition flatten1_shape (xs : shape_t) : result shape_t :=
  match xs with
  | n :: d :: rest => Ok [n; foldr Nat.mul 1 (d :: rest)]
  | _ => Raise IndexError
  end.

(** ** The tensor library as an interface *)

Class Torch (T : Type) : Type := {
  shape : T → shape_t;
  (** [F.conv2d input weight bias stride padding dilation groups] *)
  conv2d : T → T → option T → nat → nat → nat → nat → result T;
  (** [F.group_norm input num_groups weight bias] *)
  group_norm : T → nat → T → T → result T;
  (** [F.batch_norm] in training mode: the output and the updated running
      mean and variance; arguments input, running_mean, running_var,
      weight, bias, eps *)
  batch_norm : T → T → T → T → T → nat → result (T * T * T);
  relu : T → T;
  sigmoid : T → T;
  (** [x.add_(y)], the in-place sum behind [out += identity] *)
  add : T → T → result T;
  max_pool2d : T → nat → nat → nat → result T;
  adaptive_avg_pool2d : T → nat → nat → result T;
  constant_pad2d : T → nat → result T;
  flatten1 : T → result T;
  (** a tensor of the given shape drawn at generator state [seed] *)
  sample : nat → shape_t → T;
  (** a tensor of the given shape filled with a constant *)
  full : shape_t → Z → T;
  (** [t.add_(1)] on a counter *)
  incr : T → T;

  shape_conv2d x w b s p d g :
    length (shape x) = 4 →
    rmap shape (conv2d x w b s p d g) = conv2d_shape (shape x) (shape w) s p d g;
  shape_group_norm x G w b :
    length (shape x) = 4 →
    rmap shape (group_norm x G w b) = group_norm_shape (shape x) G (shape w);
  shape_relu x : shape (relu x) = shape x;
  shape_sigmoid x : shape (sigmoid x) = shape x;
  shape_add x y :
    shape x = shape y → rmap shape (add x y) = Ok (shape x);
  shape_add_out x y z : add x y = Ok z → shape z = shape x;
  shape_max_pool2d x k s p :
    length (shape x) = 4 →
    rmap shape (max_pool2d x k s p) = max_pool2d_shape (shape x) k s p;
  shape_adaptive_avg_pool2d x oh ow :
    length (shape x) = 4 →
    rmap shape (adaptive_avg_pool2d x oh ow) = adaptive_avg_pool2d_shape (shape x) oh ow;
  shape_constant_pad2d x p :
    length (shape x) = 4 →
    rmap shape (constant_pad2d x p) = constant_pad2d_shape (shape x) p;
  shape_flatten1 x :
    rmap shape (flatten1 x) = flatten1_shape (shape x);
  shape_sample seed sh : shape (sample seed sh) = sh;
  shape_full sh c : shape (full sh c) = sh
}.

(** ** Heap, generator and the monad of Python code *)

(** Locations are indices into the heap. *)
Abbreviation loc := nat (only parsing).

Record state (T : Type) : Type := State {
  heap : list T;   (* every tensor alive, by location *)
  gen : nat        (* state of the default random generator *)
}.
Arguments State {T} heap gen.
Arguments heap {T} s.
Arguments gen {T} s.

Definition M (T A : Type) : Type := state T → result A * state T.

Definition ret {T A} (a : A) : M T A := λ s, (Ok a, s).

Definition raise {T A} (e : exn) : M T A := λ s, (Raise e, s).

Definition bind {T A B} (m : M T A) (k : A → M T B) : M T B :=
  λ s, match m s with
       | (Ok a, s') => k a s'
       | (Raise e, s') => (Raise e, s')
       end.

Notation "x <- m ;; k" := (bind m (λ x, k))
  (at level 100, m at next level, right associativity).
Notation "m ;; k" := (bind m (λ _, k))
  (at level 100, right associativity).

Definition lift {T A} (r : result A) : M T A := λ s, (r, s).

(** A new tensor object. *)
Definition alloc {T} (v : T) : M T loc :=
  λ s, (Ok (length (heap s)), State (heap s ++ [v]) (gen s)).

(** Reading through a reference; a dangling one is held by no module that a
    constructor returned. *)
Definition read {T} (l : loc) : M T T :=
  λ s, match heap s !! l with
       | Some v => (Ok v, s)
       | None => (Raise ReferenceError, s)
       end.

(** An in-place update of the tensor at [l]. *)
Definition write {T} (l : loc) (v : T) : M T unit :=
  λ s, match heap s !! l with
       | Some _ => (Ok tt, State (<[l := v]> (heap s)) (gen s))
       | None => (Raise ReferenceError, s)
       end.

(** One draw from the generator. *)
Definition draw {T} : M T nat :=
  λ s, (Ok (gen s), State (heap s) (S (gen s))).

Definition read_opt {T} (ol : option loc) : M T (option T) :=
  match ol with
  | Some l => v <- read l ;; ret (Some v)
  | None => ret None
  end.

(** Reading an attribute that [__init__] may have left unassigned. *)
Definition getattr {T A} (a : option A) : M T A :=
  match a with
  | Some v => ret v
  | None => raise AttributeError
  end.

(** Python's [xs[-1]] on a list. *)
Definition index_last {T A} (xs : list A) : M T A :=
  match last xs with
  | Some v => ret v
  | None => raise IndexError
  end.

(** Python's [xs[i]] on a list. *)
Definition index {T A} (xs : list A) (i : nat) : M T A :=
  match xs !! i with
  | Some v => ret v
  | None => raise IndexError
  end.

(** ** Library modules ([torch.nn])

    A module is a record of its hyperparameters and of the locations of its
    parameter and buffer tensors. *)

Record Conv2d : Set := {
  in_channels : nat;
  out_channels : nat;
  kernel_size : nat;
  conv_stride : nat;
  conv_padding : nat;
  conv_dilation : nat;
  conv_groups : nat;
  conv_weight : loc;
  conv_bias : option loc
}.

Inductive Norm : Set :=
| GroupNorm (num_groups num_channels : nat) (weight bias : loc)
| BatchNorm2d (num_features eps : nat)
    (weight bias running_mean running_var num_batches_tracked : loc).

(** The callables that the code passes as [norm_layer]. *)
Inductive norm_kind : Set := nn_GroupNorm | nn_BatchNorm2d.

Inductive Act : Set :=
| ReLU (inplace : bool)
| Identity
| Sigmoid.

Record MaxPool2d : Set := { mp_kernel : nat; mp_stride : nat; mp_padding : nat }.

Inductive FinalLn : Set :=
| LayerNorm (normalized_shape : nat) (weight bias : loc)
| LnIdentity.

(** [nn.Sequential(conv1x1(...), norm_layer(...))], the only downsample
    module that [_make_layer] builds. *)
Record Downsample : Set := { ds_conv : Conv2d; ds_norm : Norm }.

Section Modules.
Context {T : Type} `{Torch T}.

(** A parameter created by a module constructor and filled by its
    [reset_parameters] from the generator. *)
Definition new_param (sh : shape_t) : M T loc :=
  seed <- draw ;; alloc (sample seed sh).

(** [nn.Conv2d(in, out, kernel_size, stride, padding, dilation, groups, bias)] *)
Definition new_Conv2d (cin cout k s p d g : nat) (with_bias : bool) : M T Conv2d :=
  if g =? 0 then raise (ValueError "groups must be a positive integer")
  else if negb (cin mod g =? 0)
  then raise (ValueError "in_channels must be divisible by groups")
  else if negb (cout mod g =? 0)
  then raise (ValueError "out_channels must be divisible by groups")
  else
    w <- new_param [cout; cin / g; k; k] ;;
    b <- (if with_bias then l <- new_param [cout] ;; ret (Some l) else ret None) ;;
    ret {| in_channels := cin; out_channels := cout; kernel_size := k;
           conv_stride := s; conv_padding := p; conv_dilation := d;
           conv_groups := g; conv_weight := w; conv_bias := b |}.

(** [nn.GroupNorm(num_groups, num_channels)] *)
Definition new_GroupNorm (G C : nat) : M T Norm :=
  if G =? 0 then raise ZeroDivisionError
  else if negb (C mod G =? 0)
  then raise (ValueError "num_channels must be divisible by num_groups")
  else
    w <- alloc (full [C] 1) ;;
    b <- alloc (full [C] 0) ;;
    ret (GroupNorm G C w b).

(** [nn.BatchNorm2d(num_features, eps)] *)
Definition new_BatchNorm2d (F eps : nat) : M T Norm :=
  w <- alloc (full [F] 1) ;;
  b <- alloc (full [F] 0) ;;
  rm <- alloc (full [F] 0) ;;
  rv <- alloc (full [F] 1) ;;
  nbt <- alloc (full [] 0) ;;
  ret (BatchNorm2d F eps w b rm rv nbt).

(** The call [norm_layer(a, b)] with two positional arguments. *)
Definition call_norm_layer (k : norm_kind) (a b : nat) : M T Norm :=
  match k with
  | nn_GroupNorm => new_GroupNorm a b
  | nn_BatchNorm2d => new_BatchNorm2d a b
  end.

(** [nn.LayerNorm(n)] *)
Definition new_LayerNorm (n : nat) : M T FinalLn :=
  w <- alloc (full [n] 1) ;;
  b <- alloc (full [n] 0) ;;
  ret (LayerNorm n w b).

Definition Conv2d_forward (c : Conv2d) (x : loc) : M T loc :=
  xv <- read x ;;
  w <- read (conv_weight c) ;;
  b <- read_opt (conv_bias c) ;;
  y <- lift (conv2d xv w b (conv_stride c) (conv_padding c)
               (conv_dilation c) (conv_groups c)) ;;
  alloc y.

Definition Norm_forward (m : Norm) (x : loc) : M T loc :=
  match m with
  | GroupNorm G _ w b =>
      xv <- read x ;;
      wv <- read w ;;
      bv <- read b ;;
      y <- lift (group_norm xv G wv bv) ;;
      alloc y
  | BatchNorm2d _ eps w b rm rv nbt =>
      xv <- read x ;;
      if negb (length (shape xv) =? 4)
      then raise (ValueError "expected 4D input")
      else
        c <- read nbt ;;
        write nbt (incr c) ;;
        rmv <- read rm ;;
        rvv <- read rv ;;
        wv <- read w ;;
        bv <- read b ;;
        r <- lift (batch_norm xv rmv rvv wv bv eps) ;;
        write rm (r.1.2) ;;
        write rv (r.2) ;;
        alloc (r.1.1)
  end.

(** An activation module; [nn.ReLU(inplace=True)] overwrites its argument
    and returns it, [nn.Identity] returns its argument. *)
Definition Act_forward (a : Act) (x : loc) : M T loc :=
  match a with
  | ReLU true => xv <- read x ;; write x (relu xv) ;; ret x
  | ReLU false => xv <- read x ;; alloc (relu xv)
  | Identity => ret x
  | Sigmoid => xv <- read x ;; alloc (sigmoid xv)
  end.

(** [out += identity] *)
Definition iadd (out identity : loc) : M T loc :=
  ov <- read out ;;
  iv <- read identity ;;
  v <- lift (add ov iv) ;;
  write out v ;;
  ret out.

Definition MaxPool2d_forward (m : MaxPool2d) (x : loc) : M T loc :=
  xv <- read x ;;
  y <- lift (max_pool2d xv (mp_kernel m) (mp_stride m) (mp_padding m)) ;;
  alloc y.

Definition Downsample_forward (d : Downsample) (x : loc) : M T loc :=
  y <- Conv2d_forward (ds_conv d) x ;;
  Norm_forward (ds_norm d) y.

(** [conv3x3] and [conv1x1] of the source. *)
Definition conv3x3 (in_planes out_planes stride groups dilation : nat) : M T Conv2d :=
  new_Conv2d in_planes out_planes 3 stride dilation dilation groups false.

Definition conv1x1 (in_planes out_planes stride : nat) : M T Conv2d :=
  new_Conv2d in_planes out_planes 1 stride 0 1 1 false.
End Modules.

(** ** The residual blocks *)

Inductive block_cls : Set := cBasicBlockID | cBasicBlock | cBottleneck.

#[global] Instance block_cls_eq_dec : EqDecision block_cls.
Proof. solve_decision. Defined.

Definition expansion (c : block_cls) : nat :=
  match c with
  | cBasicBlockID => 1
  | cBasicBlock => 1
  | cBottleneck => 4
  end.

Record BasicBlockID : Set := {
  id_relu : Act;
  id_downsample : option Downsample;
  id_stride : nat
}.

Record BasicBlock : Set := {
  bb_conv1 : Conv2d;
  bb_bn1 : Norm;
  bb_relu : Act;
  bb_conv2 : Conv2d;
  bb_bn2 : Norm;
  bb_downsample : option Downsample;
  bb_stride : nat
}.

Record Bottleneck : Set := {
  bn_conv1 : Conv2d;
  bn_bn1 : Norm;
  bn_conv2 : Conv2d;
  bn_bn2 : Norm;
  bn_conv3 : Conv2d;
  bn_bn3 : Norm;
  bn_relu : Act;
  bn_downsample : option Downsample;
  bn_stride : nat;
  (* [None]: the attribute was never assigned *)
  bn_last_activation : option Act
}.

Inductive Block : Set :=
| IsBasicBlockID (b : BasicBlockID)
| IsBasicBlock (b : BasicBlock)
| IsBottleneck (b : Bottleneck).

Section Blocks.
Context {T : Type} `{Torch T}.

(** [super(cls, self).__init__()] where [self] is being built as an
    instance of [self_cls]: Python raises [TypeError] unless [self] is an
    instance of [cls].  The three block classes derive from [nn.Module]
    only, so that is the case exactly when the two classes coincide. *)
Definition super_init (cls self_cls : block_cls) : M T unit :=
  if decide (cls = self_cls) then ret tt else raise TypeError.

Definition BasicBlockID_init (inplanes planes stride : nat)
    (downsample : option Downsample) (groups base_width dilation : nat)
    (norm_layer : option norm_kind) (last_activation : string) : M T BasicBlockID :=
  super_init cBasicBlock cBasicBlockID ;;
  let norm_layer := default nn_BatchNorm2d norm_layer in
  if negb (groups =? 1) || negb (base_width =? 64)
  then raise (ValueError "BasicBlock only supports groups=1 and base_width=64")
  else if 1 <? dilation
  then raise (NotImplementedError "Dilation > 1 not supported in BasicBlock")
  else
    ret {| id_relu := ReLU true; id_downsample := downsample; id_stride := stride |}.

Definition BasicBlockID_forward (self : BasicBlockID) (x : loc) : M T loc :=
  let identity := x in
  identity <- match id_downsample self with
              | Some d => Downsample_forward d x
              | None => ret identity
              end ;;
  let out := identity in
  out <- Act_forward (id_relu self) out ;;
  ret out.

Definition BasicBlock_init (inplanes planes stride : nat)
    (downsample : option Downsample) (groups base_width dilation : nat)
    (norm_layer : option norm_kind) (last_activation : string) : M T BasicBlock :=
  super_init cBasicBlock cBasicBlock ;;
  let norm_layer := default nn_BatchNorm2d norm_layer in
  if negb (groups =? 1) || negb (base_width =? 64)
  then raise (ValueError "BasicBlock only supports groups=1 and base_width=64")
  else if 1 <? dilation
  then raise (NotImplementedError "Dilation > 1 not supported in BasicBlock")
  else
    conv1 <- conv3x3 inplanes planes stride 1 1 ;;
    bn1 <- call_norm_layer norm_layer (min 32 (planes / 4)) planes ;;
    conv2 <- conv3x3 planes planes 1 1 1 ;;
    bn2 <- call_norm_layer norm_layer (min 32 (planes / 4)) planes ;;
    ret {| bb_conv1 := conv1; bb_bn1 := bn1; bb_relu := ReLU true;
           bb_conv2 := conv2; bb_bn2 := bn2;
           bb_downsample := downsample; bb_stride := stride |}.

Definition BasicBlock_forward (self : BasicBlock) (x : loc) : M T loc :=
  let identity := x in
  out <- Conv2d_forward (bb_conv1 self) x ;;
  out <- Norm_forward (bb_bn1 self) out ;;
  out <- Act_forward (bb_relu self) out ;;
  out <- Conv2d_forward (bb_conv2 self) out ;;
  out <- Norm_forward (bb_bn2 self) out ;;
  identity <- match bb_downsample self with
              | Some d => Downsample_forward d x
              | None => ret identity
              end ;;
  out <- iadd out identity ;;
  out <- Act_forward (bb_relu self) out ;;
  ret out.

(** [width = int(planes * (base_width / 64.0)) * groups]: the division by
    64 is exact in binary floating point and the product is exact below
    2^53, so the truncation is the integer quotient. *)
Definition bottleneck_width (planes base_width groups : nat) : nat :=
  (planes * base_width / 64) * groups.

Definition Bottleneck_init (inplanes planes stride : nat)
    (downsample : option Downsample) (groups base_width dilation : nat)
    (norm_layer : option norm_kind) (last_activation : string) : M T Bottleneck :=
  super_init cBottleneck cBottleneck ;;
  let norm_layer := default nn_BatchNorm2d norm_layer in
  let width := bottleneck_width planes base_width groups in
  conv1 <- conv1x1 inplanes width 1 ;;
  bn1 <- call_norm_layer norm_layer (min 32 (width / 4)) width ;;
  conv2 <- conv3x3 width width stride groups dilation ;;
  bn2 <- call_norm_layer norm_layer (min 32 (width / 4)) width ;;
  conv3 <- conv1x1 width (planes * expansion cBottleneck) 1 ;;
  bn3 <- call_norm_layer norm_layer
           (min 32 (planes * expansion cBottleneck / 4))
           (planes * expansion cBottleneck) ;;
  let last :=
    if String.eqb last_activation "relu" then Some (ReLU true)
    else if String.eqb last_activation "none" then Some Identity
    else if String.eqb last_activation "sigmoid" then Some Sigmoid
    else None in
  ret {| bn_conv1 := conv1; bn_bn1 := bn1; bn_conv2 := conv2; bn_bn2 := bn2;
         bn_conv3 := conv3; bn_bn3 := bn3; bn_relu := ReLU true;
         bn_downsample := downsample; bn_stride := stride;
         bn_last_activation := last |}.

Definition Bottleneck_forward (self : Bottleneck) (x : loc) : M T loc :=
  let identity := x in
  out <- Conv2d_forward (bn_conv1 self) x ;;
  out <- Norm_forward (bn_bn1 self) out ;;
  out <- Act_forward (bn_relu self) out ;;
  out <- Conv2d_forward (bn_conv2 self) out ;;
  out <- Norm_forward (bn_bn2 self) out ;;
  out <- Act_forward (bn_relu self) out ;;
  out <- Conv2d_forward (bn_conv3 self) out ;;
  out <- Norm_forward (bn_bn3 self) out ;;
  identity <- match bn_downsample self with
              | Some d => Downsample_forward d x
              | None => ret identity
              end ;;
  out <- iadd out identity ;;
  last <- getattr (bn_last_activation self) ;;
  out <- Act_forward last out ;;
  ret out.

(** The call [block(...)] on a class object. *)
Definition block_init (c : block_cls) (inplanes planes stride : nat)
    (downsample : option Downsample) (groups base_width dilation : nat)
    (norm_layer : option norm_kind) (last_activation : string) : M T Block :=
  match c with
  | cBasicBlockID =>
      b <- BasicBlockID_init inplanes planes stride downsample groups base_width
             dilation norm_layer last_activation ;; ret (IsBasicBlockID b)
  | cBasicBlock =>
      b <- BasicBlock_init inplanes planes stride downsample groups base_width
             dilation norm_layer last_activation ;; ret (IsBasicBlock b)
  | cBottleneck =>
      b <- Bottleneck_init inplanes planes stride downsample groups base_width
             dilation norm_layer last_activation ;; ret (IsBottleneck b)
  end.

Definition Block_forward (b : Block) (x : loc) : M T loc :=
  match b with
  | IsBasicBlockID b => BasicBlockID_forward b x
  | IsBasicBlock b => BasicBlock_forward b x
  | IsBottleneck b => Bottleneck_forward b x
  end.

(** The [nn.Sequential] of a list of blocks, applied to [x]. *)
Fixpoint Sequential_forward (layers : list Block) (x : loc) : M T loc :=
  match layers with
  | [] => ret x
  | b :: rest => y <- Block_forward b x ;; Sequential_forward rest y
  end.
End Blocks.

(** ** The network *)

Inductive FinalPool : Set :=
| AdaptiveAvgPool2d (oh ow : nat)
| PoolConv (c : Conv2d).

Record ResNet : Set := {
  _norm_layer : norm_kind;
  spatial_output : bool;
  padding : option nat;             (* [nn.ConstantPad2d(p, 0.0)] or [None] *)
  inplanes : nat;
  dilation : nat;
  groups : nat;
  base_width : nat;
  conv1 : Conv2d;
  bn1 : Norm;
  relu_ : Act;
  maxpool : option MaxPool2d;
  layer1 : list Block;
  layer2 : option (list Block);
  layer3 : option (list Block);
  layer4 : option (list Block);
  (* outer [None]: the attribute was never assigned *)
  final_pool : option (option FinalPool);
  final_ln : FinalLn
}.

(** Modelled from the spec: [BackboneOutput] is declared outside this file
    (in [pldm.models.encoders.enums]); the batch of feature encodings that
    the spec names is its field [encodings]. *)
Record BackboneOutput : Set := { encodings : loc }.

(** The arguments of [ResNet.__init__] once bound. *)
Record ResNet_args : Set := {
  a_block : block_cls;
  a_layers : list nat;
  a_filters : list nat;
  a_strides : list nat;
  a_num_channels : nat;
  a_zero_init_residual : bool;
  a_groups : nat;
  a_widen : nat;
  a_width_per_group : nat;
  a_replace_stride_with_dilation : option (list bool);
  a_norm_layer : option norm_kind;
  a_last_activation : string;
  a_inital_maxpool : bool;
  a_final_pool_type : string;
  a_final_out_filters : nat;
  a_spatial_output : bool;
  a_expand_factor : nat;
  a_initial_padding : bool;
  a_final_ln : bool
}.

(** The attributes of [self] that [_make_layer] reads and updates. *)
Record maker : Set := {
  mk_norm_layer : norm_kind;
  mk_inplanes : nat;
  mk_dilation : nat;
  mk_groups : nat;
  mk_base_width : nat
}.

Definition set_inplanes (m : maker) (v : nat) : maker :=
  {| mk_norm_layer := mk_norm_layer m; mk_inplanes := v;
     mk_dilation := mk_dilation m; mk_groups := mk_groups m;
     mk_base_width := mk_base_width m |}.

Definition set_dilation (m : maker) (v : nat) : maker :=
  {| mk_norm_layer := mk_norm_layer m; mk_inplanes := mk_inplanes m;
     mk_dilation := v; mk_groups := mk_groups m;
     mk_base_width := mk_base_width m |}.

Section Network.
Context {T : Type} `{Torch T}.

(** The loop [for i in range(1, blocks)] of [_make_layer]; [i] runs over
    [idx]. *)
Fixpoint make_rest (self : maker) (block : block_cls) (planes blocks : nat)
    (last_activation : string) (idx : list nat) : M T (list Block) :=
  match idx with
  | [] => ret []
  | i :: idx' =>
      b <- block_init block (mk_inplanes self) planes 1 None (mk_groups self)
             (mk_base_width self) (mk_dilation self) (Some (mk_norm_layer self))
             (if i =? blocks - 1 then last_activation else "relu") ;;
      bs <- make_rest self block planes blocks last_activation idx' ;;
      ret (b :: bs)
  end.

Definition _make_layer (self : maker) (block : block_cls) (planes blocks stride : nat)
    (dilate : bool) (last_activation : string) : M T (list Block * maker) :=
  let norm_layer := mk_norm_layer self in
  let previous_dilation := mk_dilation self in
  let self := if dilate then set_dilation self (mk_dilation self * stride) else self in
  let stride := if dilate then 1 else stride in
  downsample <-
    (if negb (stride =? 1) || negb (mk_inplanes self =? planes * expansion block)
     then
       c <- conv1x1 (mk_inplanes self) (planes * expansion block) stride ;;
       n <- call_norm_layer norm_layer
              (min (planes * expansion block / 4) 32) (planes * expansion block) ;;
       ret (Some {| ds_conv := c; ds_norm := n |})
     else ret None) ;;
  first <- block_init block (mk_inplanes self) planes stride downsample
             (mk_groups self) (mk_base_width self) previous_dilation
             (Some norm_layer)
             (if blocks =? 1 then last_activation else "relu") ;;
  let self := set_inplanes self (planes * expansion block) in
  rest <- make_rest self block planes blocks last_activation (seq 1 (blocks - 1)) ;;
  ret (first :: rest, self).
End Network.

(** *** Parameter initialisation *)

Inductive leaf : Set :=
| LeafConv (c : Conv2d)
| LeafNorm (n : Norm).

Definition Downsample_leaves (d : option Downsample) : list leaf :=
  match d with
  | Some d => [LeafConv (ds_conv d); LeafNorm (ds_norm d)]
  | None => []
  end.

(** The convolution and normalisation submodules of a block, in the order
    in which [__init__] registered them. *)
Definition Block_leaves (b : Block) : list leaf :=
  match b with
  | IsBasicBlockID b => Downsample_leaves (id_downsample b)
  | IsBasicBlock b =>
      [LeafConv (bb_conv1 b); LeafNorm (bb_bn1 b);
       LeafConv (bb_conv2 b); LeafNorm (bb_bn2 b)]
      ++ Downsample_leaves (bb_downsample b)
  | IsBottleneck b =>
      [LeafConv (bn_conv1 b); LeafNorm (bn_bn1 b);
       LeafConv (bn_conv2 b); LeafNorm (bn_bn2 b);
       LeafConv (bn_conv3 b); LeafNorm (bn_bn3 b)]
      ++ Downsample_leaves (bn_downsample b)
  end.

Definition layer_blocks (l : option (list Block)) : list Block := default [] l.

Definition ResNet_blocks (net : ResNet) : list Block :=
  layer1 net ++ layer_blocks (layer2 net) ++ layer_blocks (layer3 net)
  ++ layer_blocks (layer4 net).

Definition FinalPool_leaves (p : option (option FinalPool)) : list leaf :=
  match p with
  | Some (Some (PoolConv c)) => [LeafConv c]
  | _ => []
  end.

(** What [self.modules()] yields that is a [Conv2d], a [BatchNorm2d] or a
    [GroupNorm]. *)
Definition ResNet_leaves (net : ResNet) : list leaf :=
  [LeafConv (conv1 net); LeafNorm (bn1 net)]
  ++ concat (map Block_leaves (ResNet_blocks net))
  ++ FinalPool_leaves (final_pool net).

Definition Norm_weight (n : Norm) : loc :=
  match n with
  | GroupNorm _ _ w _ => w
  | BatchNorm2d _ _ w _ _ _ _ => w
  end.

Definition Norm_bias (n : Norm) : loc :=
  match n with
  | GroupNorm _ _ _ b => b
  | BatchNorm2d _ _ _ b _ _ _ => b
  end.

Section Init.
Context {T : Type} `{Torch T}.

(** [nn.init.kaiming_normal_(w, ...)] *)
Definition kaiming_normal_ (w : loc) : M T unit :=
  old <- read w ;;
  seed <- draw ;;
  write w (sample seed (shape old)).

(** [nn.init.constant_(w, c)] *)
Definition constant_ (w : loc) (c : Z) : M T unit :=
  old <- read w ;;
  write w (full (shape old) c).

Definition init_leaf (m : leaf) : M T unit :=
  match m with
  | LeafConv c => kaiming_normal_ (conv_weight c)
  | LeafNorm n => constant_ (Norm_weight n) 1 ;; constant_ (Norm_bias n) 0
  end.

Definition zero_init_block (m : Block) : M T unit :=
  match m with
  | IsBottleneck b => constant_ (Norm_weight (bn_bn3 b)) 0
  | IsBasicBlock b => constant_ (Norm_weight (bb_bn2 b)) 0
  | IsBasicBlockID _ => ret tt
  end.

Fixpoint for_each {A} (f : A → M T unit) (xs : list A) : M T unit :=
  match xs with
  | [] => ret tt
  | x :: xs' => f x ;; for_each f xs'
  end.
End Init.

(** Python's [repr] of a list of booleans, as [str.format] prints it. *)
Definition repr_bool (b : bool) : string := if b then "True" else "False".

Fixpoint repr_items (l : list bool) : string :=
  match l with
  | [] => ""
  | [b] => repr_bool b
  | b :: rest => (repr_bool b +:+ ", " +:+ repr_items rest)%string
  end.

Definition repr_bools (l : list bool) : string :=
  ("[" +:+ repr_items l +:+ "]")%string.

Definition replace_stride_message (l : list bool) : string :=
  ("replace_stride_with_dilation should be None or a 3-element tuple, got "
   +:+ repr_bools l)%string.

Section ResNetClass.
Context {T : Type} `{Torch T}.

(** One of the guarded calls of [_make_layer] for [layer2], [layer3] and
    [layer4]: [num_out_filters = filters[i]], then the layer; otherwise
    the attribute is [None]. *)
Definition make_optional_layer (present : bool) (self : maker) (a : ResNet_args)
    (rswd : list bool) (i : nat) (last_activation : string) (num_out_filters : nat)
    : M T (option (list Block) * maker * nat) :=
  if present then
    nof <- index (a_filters a) i ;;
    planes <- index (a_filters a) i ;;
    blocks <- index (a_layers a) i ;;
    stride <- index (a_strides a) i ;;
    dilate <- index rswd (i - 1) ;;
    r <- _make_layer self (a_block a) planes blocks stride dilate last_activation ;;
    ret (Some r.1, r.2, nof)
  else ret (None, self, num_out_filters).

Definition ResNet_init (a : ResNet_args) : M T ResNet :=
  let norm_layer := default nn_GroupNorm (a_norm_layer a) in
  let padding := if a_initial_padding a then Some 1 else None in
  let inplanes := a_width_per_group a * a_widen a in
  let rswd := default [false; false; false] (a_replace_stride_with_dilation a) in
  if negb (length rswd =? 3)
  then raise (ValueError (replace_stride_message rswd))
  else
    let self := {| mk_norm_layer := norm_layer; mk_inplanes := inplanes;
                   mk_dilation := 1; mk_groups := a_groups a;
                   mk_base_width := a_width_per_group a |} in
    num_out_filters <- index (a_filters a) 0 ;;
    f0 <- index (a_filters a) 0 ;;
    conv1 <- new_Conv2d (a_num_channels a) f0 7 2 2 1 1 false ;;
    bn1 <- call_norm_layer norm_layer (min 32 (num_out_filters / 4)) num_out_filters ;;
    let maxpool :=
      if a_inital_maxpool a
      then Some {| mp_kernel := 3; mp_stride := 2; mp_padding := 1 |}
      else None in
    blocks <- index (a_layers a) 0 ;;
    stride <- index (a_strides a) 0 ;;
    r1 <- _make_layer self (a_block a) num_out_filters blocks stride false "relu" ;;
    r2 <- make_optional_layer (2 <=? length (a_layers a)) r1.2 a rswd 1 "relu"
            num_out_filters ;;
    r3 <- make_optional_layer (3 <=? length (a_layers a)) r2.1.2 a rswd 2 "relu"
            r2.2 ;;
    r4 <- make_optional_layer (length (a_layers a) =? 4) r3.1.2 a rswd 3
            (a_last_activation a) r3.2 ;;
    let num_out_filters := r4.2 in
    final_pool <-
      (if String.eqb (a_final_pool_type a) "avg_pool"
       then ret (Some (Some (AdaptiveAvgPool2d 1 1)))
       else if String.eqb (a_final_pool_type a) "1x1_pool"
       then c <- new_Conv2d num_out_filters (a_final_out_filters a) 1 1 0 1 1 true ;;
            ret (Some (Some (PoolConv c)))
       else if String.eqb (a_final_pool_type a) "id"
       then ret (Some None)
       else ret None) ;;
    final_ln <-
      (if a_final_ln a
       then n <- index_last (a_filters a) ;; new_LayerNorm n
       else ret LnIdentity) ;;
    let net :=
      {| _norm_layer := norm_layer; spatial_output := a_spatial_output a;
         padding := padding; inplanes := mk_inplanes r4.1.2;
         dilation := mk_dilation r4.1.2; groups := a_groups a;
         base_width := a_width_per_group a; conv1 := conv1; bn1 := bn1;
         relu_ := ReLU true; maxpool := maxpool;
         layer1 := r1.1; layer2 := r2.1.1; layer3 := r3.1.1; layer4 := r4.1.1;
         final_pool := final_pool; final_ln := final_ln |} in
    for_each init_leaf (ResNet_leaves net) ;;
    (if a_zero_init_residual a
     then for_each zero_init_block (ResNet_blocks net)
     else ret tt) ;;
    ret net.
End ResNetClass.

Section Forward.
Context {T : Type} `{Torch T}.

Definition ConstantPad2d_forward (p : nat) (x : loc) : M T loc :=
  xv <- read x ;;
  y <- lift (constant_pad2d xv p) ;;
  alloc y.

Definition optional_layer_forward (l : option (list Block)) (x : loc) : M T loc :=
  match l with
  | Some bs => Sequential_forward bs x
  | None => ret x
  end.

Definition FinalPool_forward (p : option FinalPool) (x : loc) : M T loc :=
  match p with
  | Some (AdaptiveAvgPool2d oh ow) =>
      xv <- read x ;;
      y <- lift (adaptive_avg_pool2d xv oh ow) ;;
      alloc y
  | Some (PoolConv c) => Conv2d_forward c x
  | None => ret x
  end.

(** [torch.flatten(x, 1)] *)
Definition torch_flatten1 (x : loc) : M T loc :=
  xv <- read x ;;
  y <- lift (flatten1 xv) ;;
  alloc y.

Definition ResNet_forward (self : ResNet) (x : loc) : M T BackboneOutput :=
  x <- match padding self with
       | Some p => ConstantPad2d_forward p x
       | None => ret x
       end ;;
  x <- Conv2d_forward (conv1 self) x ;;
  x <- Norm_forward (bn1 self) x ;;
  x <- Act_forward (relu_ self) x ;;
  x <- match maxpool self with
       | Some m => MaxPool2d_forward m x
       | None => ret x
       end ;;
  x <- Sequential_forward (layer1 self) x ;;
  x <- optional_layer_forward (layer2 self) x ;;
  x <- optional_layer_forward (layer3 self) x ;;
  x <- optional_layer_forward (layer4 self) x ;;
  fp <- getattr (final_pool self) ;;
  x <- FinalPool_forward fp x ;;
  x <- (if negb (spatial_output self) then torch_flatten1 x else ret x) ;;
  ret {| encodings := x |}.
End Forward.

(** ** Keyword arguments and the exposed constructors *)

Inductive param : Set :=
| p_block | p_layers | p_filters | p_strides | p_num_channels
| p_zero_init_residual | p_groups | p_widen | p_width_per_group
| p_replace_stride_with_dilation | p_norm_layer | p_last_activation
| p_inital_maxpool | p_final_pool_type | p_final_out_filters
| p_spatial_output | p_expand_factor | p_initial_padding | p_final_ln.

#[global] Instance param_eq_dec : EqDecision param.
Proof. solve_decision. Defined.

Definition param_type (p : param) : Set :=
  match p with
  | p_block => block_cls
  | p_layers | p_filters | p_strides => list nat
  | p_num_channels | p_groups | p_widen | p_width_per_group
  | p_final_out_filters | p_expand_factor => nat
  | p_zero_init_residual | p_inital_maxpool | p_spatial_output
  | p_initial_padding | p_final_ln => bool
  | p_replace_stride_with_dilation => option (list bool)
  | p_norm_layer => option norm_kind
  | p_last_activation | p_final_pool_type => string
  end.

(** Arguments passed by name: positional arguments under the name of the
    parameter they bind, explicit keywords, or the entries of [**kwargs]. *)
Definition kwargs : Set := list {p : param & param_type p}.

Definition kw (p : param) (v : param_type p) : {p : param & param_type p} :=
  existT p v.

Fixpoint kw_get (p : param) (k : kwargs) : option (param_type p) :=
  match k with
  | [] => None
  | existT q v :: rest =>
      match decide (q = p) with
      | left e => Some (eq_rect q param_type v p e)
      | right _ => kw_get p rest
      end
  end.

Definition kw_names (k : kwargs) : list param := map (λ e, projT1 e) k.

(** Python refuses a call that gives one parameter two values. *)
Definition kw_clash (explicit extra : kwargs) : bool :=
  existsb (λ p, bool_decide (p ∈ kw_names extra)) (kw_names explicit).

(** Binding the arguments of a call [ResNet(...)] against the signature of
    [__init__]: [block], [layers], [filters] and [strides] have no default. *)
Definition bind_ResNet_args (explicit extra : kwargs) : result ResNet_args :=
  if kw_clash explicit extra then Raise TypeError
  else
    let k := (explicit ++ extra)%list in
    match kw_get p_block k, kw_get p_layers k, kw_get p_filters k, kw_get p_strides k with
    | Some block, Some layers, Some filters, Some strides =>
        Ok {| a_block := block; a_layers := layers; a_filters := filters;
              a_strides := strides;
              a_num_channels := default 3 (kw_get p_num_channels k);
              a_zero_init_residual := default false (kw_get p_zero_init_residual k);
              a_groups := default 1 (kw_get p_groups k);
              a_widen := default 1 (kw_get p_widen k);
              a_width_per_group := default 64 (kw_get p_width_per_group k);
              a_replace_stride_with_dilation :=
                default None (kw_get p_replace_stride_with_dilation k);
              a_norm_layer := default None (kw_get p_norm_layer k);
              a_last_activation := default "relu" (kw_get p_last_activation k);
              a_inital_maxpool := default true (kw_get p_inital_maxpool k);
              a_final_pool_type := default "avg_pool" (kw_get p_final_pool_type k);
              a_final_out_filters := default 32 (kw_get p_final_out_filters k);
              a_spatial_output := default false (kw_get p_spatial_output k);
              a_expand_factor := default 2 (kw_get p_expand_factor k);
              a_initial_padding := default true (kw_get p_initial_padding k);
              a_final_ln := default false (kw_get p_final_ln k) |}
    | _, _, _, _ => Raise TypeError
    end.

Section Constructors.
Context {T : Type} `{Torch T}.

Definition call_ResNet (explicit extra : kwargs) : M T ResNet :=
  a <- lift (bind_ResNet_args explicit extra) ;;
  ResNet_init a.

Definition with_channels (explicit : kwargs) (n : option nat) (extra : kwargs)
    : M T (ResNet * option nat) :=
  net <- call_ResNet explicit extra ;;
  ret (net, n).

Definition resnet18s (expand final_out : nat) (pool : string) : kwargs :=
  ([kw p_block cBasicBlock; kw p_layers [2; 2]; kw p_inital_maxpool false;
    kw p_spatial_output true; kw p_initial_padding false;
    kw p_expand_factor expand; kw p_final_pool_type pool]
   ++ (if String.eqb pool "id" then [] else [kw p_final_out_filters final_out]))%list.

Definition resnet18s_a := with_channels (resnet18s 1 0 "id") None.
Definition resnet18s_b := with_channels (resnet18s 1 32 "1x1_pool") None.
Definition resnet18s_c := with_channels (resnet18s 1 48 "1x1_pool") None.
Definition resnet18s_d := with_channels (resnet18s 2 64 "1x1_pool") None.
Definition resnet18s_e := with_channels (resnet18s 2 48 "1x1_pool") None.
Definition resnet18s_f := with_channels (resnet18s 2 32 "1x1_pool") None.

(** [resnet18s_g] takes [**kwargs] and passes none of it on. *)
Definition resnet18s_g (_ : kwargs) : M T (ResNet * option nat) :=
  with_channels
    [kw p_block cBasicBlock; kw p_layers [2; 2; 2; 2];
     kw p_filters [64; 128; 128; 128]; kw p_strides [1; 2; 1; 1];
     kw p_num_channels 6; kw p_zero_init_residual true; kw p_groups 1;
     kw p_widen 1; kw p_width_per_group 64;
     kw p_replace_stride_with_dilation None; kw p_norm_layer None;
     kw p_last_activation "relu"; kw p_inital_maxpool false;
     kw p_final_pool_type "1x1_pool"; kw p_final_out_filters 64;
     kw p_spatial_output true; kw p_expand_factor 2; kw p_initial_padding true]
    None [].

Definition resnet18 :=
  with_channels
    [kw p_block cBasicBlock; kw p_layers [2; 2; 2; 2];
     kw p_filters [64; 128; 256; 512]; kw p_strides [1; 2; 2; 2]]
    (Some 512).

Definition resnet18ID :=
  with_channels [kw p_block cBasicBlockID; kw p_layers [2; 2; 2; 2]] (Some 512).
Definition resnet34 :=
  with_channels [kw p_block cBasicBlock; kw p_layers [3; 4; 6; 3]] (Some 512).
Definition resnet50 :=
  with_channels [kw p_block cBottleneck; kw p_layers [3; 4; 6; 3]] (Some 2048).
Definition resnet101 :=
  with_channels [kw p_block cBottleneck; kw p_layers [3; 4; 23; 3]] (Some 2048).
Definition resnet50x2 :=
  with_channels [kw p_block cBottleneck; kw p_layers [3; 4; 6; 3]; kw p_widen 2]
    (Some 4096).
Definition resnet50x4 :=
  with_channels [kw p_block cBottleneck; kw p_layers [3; 4; 6; 3]; kw p_widen 4]
    (Some 8192).
Definition resnet50x5 :=
  with_channels [kw p_block cBottleneck; kw p_layers [3; 4; 6; 3]; kw p_widen 5]
    (Some 10240).
Definition resnet200x2 :=
  with_channels [kw p_block cBottleneck; kw p_layers [3; 24; 36; 3]; kw p_widen 2]
    (Some 4096).
End Constructors.

(** ** A symbolic tensor library

    Tensors are a shape and the expression that computed them: the
    computation graph itself.  The primitives succeed exactly when the
    shape rules say so.  The instance makes every definition above
    executable on concrete inputs. *)

Inductive term : Set :=
| tInput (n : nat)
| tSample (seed : nat)
| tFull (c : Z)
| tNone
| tConv (x w b : term) (s p d g : nat)
| tGroupNorm (x : term) (G : nat) (w b : term)
| tBatchNorm (x rm rv w b : term) (eps : nat)
| tRunningMean (x rm : term)
| tRunningVar (x rv : term)
| tRelu (x : term)
| tSigmoid (x : term)
| tAdd (x y : term)
| tMaxPool (x : term) (k s p : nat)
| tAvgPool (x : term) (oh ow : nat)
| tPad (x : term) (p : nat)
| tFlatten (x : term)
| tIncr (x : term).

Record sym : Set := Sym { sym_shape : shape_t; sym_term : term }.

Definition sym_op (r : result shape_t) (t : term) : result sym :=
  rmap (λ sh, Sym sh t) r.

Lemma shape_sym_op r t : rmap sym_shape (sym_op r t) = r.
Proof. by destruct r. Qed.

Definition sym_batch_norm (x rm rv w b : sym) (eps : nat) : result (sym * sym * sym) :=
  match sym_shape x with
  | [n; c; h; wd] =>
      if decide (sym_shape rm = [c])
      then Ok (Sym (sym_shape x)
                 (tBatchNorm (sym_term x) (sym_term rm) (sym_term rv)
                    (sym_term w) (sym_term b) eps),
               Sym (sym_shape rm) (tRunningMean (sym_term x) (sym_term rm)),
               Sym (sym_shape rv) (tRunningVar (sym_term x) (sym_term rv)))
      else Raise RuntimeError
  | _ => Raise RuntimeError
  end.

#[global, refine] Instance sym_torch : Torch sym := {|
  shape := sym_shape;
  conv2d x w b s p d g :=
    sym_op (conv2d_shape (sym_shape x) (sym_shape w) s p d g)
      (tConv (sym_term x) (sym_term w) (from_option sym_term tNone b) s p d g);
  group_norm x G w b :=
    sym_op (group_norm_shape (sym_shape x) G (sym_shape w))
      (tGroupNorm (sym_term x) G (sym_term w) (sym_term b));
  batch_norm := sym_batch_norm;
  relu x := Sym (sym_shape x) (tRelu (sym_term x));
  sigmoid x := Sym (sym_shape x) (tSigmoid (sym_term x));
  add x y :=
    if decide (sym_shape x = sym_shape y)
    then Ok (Sym (sym_shape x) (tAdd (sym_term x) (sym_term y)))
    else Raise RuntimeError;
  max_pool2d x k s p :=
    sym_op (max_pool2d_shape (sym_shape x) k s p) (tMaxPool (sym_term x) k s p);
  adaptive_avg_pool2d x oh ow :=
    sym_op (adaptive_avg_pool2d_shape (sym_shape x) oh ow) (tAvgPool (sym_term x) oh ow);
  constant_pad2d x p :=
    sym_op (constant_pad2d_shape (sym_shape x) p) (tPad (sym_term x) p);
  flatten1 x := sym_op (flatten1_shape (sym_shape x)) (tFlatten (sym_term x));
  sample seed sh := Sym sh (tSample seed);
  full sh c := Sym sh (tFull c);
  incr x := Sym (sym_shape x) (tIncr (sym_term x))
|}.
Proof.
  all: intros; try apply shape_sym_op; try reflexivity.
  - cbn. by rewrite decide_True.
  - match goal with E : _ = Ok _ |- _ => cbn in E end.
    case_decide; by simplify_eq.
Defined.

(** The empty heap with a fresh generator, and a heap holding one input
    batch of a given shape at location 0. *)
Definition empty_state : state sym := State [] 0.

Definition input_state (sh : shape_t) : state sym := State [Sym sh (tInput 0)] 0.

(** ** Predicates used by the statements *)

(** What the library constructor behind [norm_layer(G, C)] accepts. *)
Definition norm_accepts (k : norm_kind) (G C : nat) : bool :=
  match k with
  | nn_GroupNorm => negb (G =? 0) && (C mod G =? 0)
  | nn_BatchNorm2d => true
  end.

(** ** The forward computation as a function of tensor values

    What each [forward] computes, read off the heap [h] that holds the
    parameters: the computation graph without the tensor objects. *)

#[global] Instance result_bind : MBind result := λ A B k r, rbind r k.
#[global] Instance result_ret : MRet result := @Ok.

Section Denotation.
Context {T : Type} `{Torch T}.

Definition fetch (h : list T) (l : loc) : result T :=
  match h !! l with
  | Some v => Ok v
  | None => Raise ReferenceError
  end.

Definition fetch_opt (h : list T) (ol : option loc) : result (option T) :=
  match ol with
  | Some l => v ← fetch h l; Ok (Some v)
  | None => Ok None
  end.

Definition Conv2d_apply (h : list T) (c : Conv2d) (xv : T) : result T :=
  w ← fetch h (conv_weight c);
  b ← fetch_opt h (conv_bias c);
  conv2d xv w b (conv_stride c) (conv_padding c) (conv_dilation c) (conv_groups c).

(** Group normalisation; batch normalisation also updates its buffers,
    which a function of values does not express. *)
Definition Norm_apply (h : list T) (m : Norm) (xv : T) : result T :=
  match m with
  | GroupNorm G _ w b =>
      wv ← fetch h w;
      bv ← fetch h b;
      group_norm xv G wv bv
  | BatchNorm2d _ _ _ _ _ _ _ => Raise RuntimeError
  end.

Definition Act_apply (a : Act) (v : T) : T :=
  match a with
  | ReLU _ => relu v
  | Identity => v
  | Sigmoid => sigmoid v
  end.

Definition Downsample_apply (h : list T) (d : Downsample) (xv : T) : result T :=
  y ← Conv2d_apply h (ds_conv d) xv;
  Norm_apply h (ds_norm d) y.

(** The skip connection of the glossary: the block adds its (possibly
    downsampled) input to its transformed output and applies the final
    activation. *)
Definition skip_connection (activation transform identity : T → result T)
    (x : T) : result T :=
  t ← transform x;
  i ← identity x;
  sum ← add t i;
  activation sum.

Definition block_identity (h : list T) (d : option Downsample) (xv : T) : result T :=
  match d with
  | Some d => Downsample_apply h d xv
  | None => Ok xv
  end.

Definition BasicBlock_transform (h : list T) (b : BasicBlock) (xv : T) : result T :=
  out ← Conv2d_apply h (bb_conv1 b) xv;
  out ← Norm_apply h (bb_bn1 b) out;
  let out := Act_apply (bb_relu b) out in
  out ← Conv2d_apply h (bb_conv2 b) out;
  Norm_apply h (bb_bn2 b) out.

Definition Bottleneck_transform (h : list T) (b : Bottleneck) (xv : T) : result T :=
  out ← Conv2d_apply h (bn_conv1 b) xv;
  out ← Norm_apply h (bn_bn1 b) out;
  let out := Act_apply (bn_relu b) out in
  out ← Conv2d_apply h (bn_conv2 b) out;
  out ← Norm_apply h (bn_bn2 b) out;
  let out := Act_apply (bn_relu b) out in
  out ← Conv2d_apply h (bn_conv3 b) out;
  Norm_apply h (bn_bn3 b) out.

Definition attr_activation (a : option Act) (v : T) : result T :=
  match a with
  | Some a => Ok (Act_apply a v)
  | None => Raise AttributeError
  end.

Definition BasicBlock_apply (h : list T) (b : BasicBlock) : T → result T :=
  skip_connection (λ v, Ok (Act_apply (bb_relu b) v))
    (BasicBlock_transform h b) (block_identity h (bb_downsample b)).

Definition Bottleneck_apply (h : list T) (b : Bottleneck) : T → result T :=
  skip_connection (attr_activation (bn_last_activation b))
    (Bottleneck_transform h b) (block_identity h (bn_downsample b)).

Definition BasicBlockID_apply (h : list T) (b : BasicBlockID) (xv : T) : result T :=
  i ← block_identity h (id_downsample b) xv;
  Ok (Act_apply (id_relu b) i).

Definition Block_apply (h : list T) (b : Block) : T → result T :=
  match b with
  | IsBasicBlockID b => BasicBlockID_apply h b
  | IsBasicBlock b => BasicBlock_apply h b
  | IsBottleneck b => Bottleneck_apply h b
  end.

Fixpoint Sequential_apply (h : list T) (layers : list Block) (xv : T) : result T :=
  match layers with
  | [] => Ok xv
  | b :: rest => y ← Block_apply h b xv; Sequential_apply h rest y
  end.
End Denotation.




(** ** Where a module keeps its tensors *)

Definition Conv2d_locs (c : Conv2d) : list loc :=
  conv_weight c :: from_option (λ b, [b]) [] (conv_bias c).

Definition Norm_locs (n : Norm) : list loc :=
  match n with
  | GroupNorm _ _ w b => [w; b]
  | BatchNorm2d _ _ w b rm rv nbt => [w; b; rm; rv; nbt]
  end.

Definition Norm_is_group (n : Norm) : bool :=
  match n with
  | GroupNorm _ _ _ _ => true
  | BatchNorm2d _ _ _ _ _ _ _ => false
  end.

Definition leaf_locs (m : leaf) : list loc :=
  match m with
  | LeafConv c => Conv2d_locs c
  | LeafNorm n => Norm_locs n
  end.

Definition leaf_is_group (m : leaf) : bool :=
  match m with
  | LeafConv _ => true
  | LeafNorm n => Norm_is_group n
  end.

(** Every parameter of the leaves is allocated below [n], and every
    normalisation among them is a [GroupNorm]. *)
Definition leaves_in (ms : list leaf) (n : nat) : Prop :=
  Forall (λ m, Forall (λ l, l < n) (leaf_locs m) ∧ leaf_is_group m = true) ms.

Definition Block_in (b : Block) (n : nat) : Prop := leaves_in (Block_leaves b) n.

Definition ResNet_in (net : ResNet) (n : nat) : Prop := leaves_in (ResNet_leaves net) n.

(** [h'] is [h] with its first [n] tensors untouched. *)
Definition keeps {T} (n : nat) (h h' : list T) : Prop :=
  length h ≤ length h' ∧ ∀ l, l < n → h' !! l = h !! l.

(** The outcome [r] of a [forward]: the final heap is [h'] and the
    generator still [g]; the result is a tensor at a location not below [n]
    holding the value [rv], or the exception [rv]. *)
Definition yields {T} (r : result loc * state T) (n : nat) (h' : list T) (g : nat)
    (rv : result T) : Prop :=
  match rv with
  | Ok v => ∃ y, r = (Ok y, State h' g) ∧ n ≤ y ∧ h' !! y = Some v
  | Raise e => r = (Raise e, State h' g)
  end.

(** ** Concrete blocks for evaluation *)

Definition demo_conv (w : loc) : Conv2d :=
  {| in_channels := 64; out_channels := 64; kernel_size := 3; conv_stride := 1;
     conv_padding := 1; conv_dilation := 1; conv_groups := 1;
     conv_weight := w; conv_bias := None |}.

(** What [BasicBlock(64, 64, norm_layer=nn.GroupNorm)] builds in the empty
    heap. *)
Definition demo_block : BasicBlock :=
  {| bb_conv1 := demo_conv 0; bb_bn1 := GroupNorm 16 64 1 2; bb_relu := ReLU true;
     bb_conv2 := demo_conv 3; bb_bn2 := GroupNorm 16 64 4 5;
     bb_downsample := None; bb_stride := 1 |}.

(** Its parameters, followed by one input batch at location 6. *)
Definition demo_heap : list sym :=
  [Sym [64; 64; 3; 3] (tSample 0); Sym [64] (tFull 1); Sym [64] (tFull 0);
   Sym [64; 64; 3; 3] (tSample 1); Sym [64] (tFull 1); Sym [64] (tFull 0);
   Sym [1; 64; 8; 8] (tInput 0)].

(** The attributes that [BasicBlockID.__init__] assigns. *)
Definition demo_blockID : BasicBlockID :=
  {| id_relu := ReLU true; id_downsample := None; id_stride := 1 |}.

(** The expression held at the location that a computation returned. *)
Definition result_term (r : result loc * state sym) : option term :=
  match r.1 with
  | Ok y => sym_term <$> heap r.2 !! y
  | Raise _ => None
  end.

(** An expression that is a final activation (possibly none) of a sum. *)
Definition is_activated_sum (t : term) : bool :=
  match t with
  | tRelu (tAdd _ _) | tSigmoid (tAdd _ _) | tAdd _ _ => true
  | _ => false
  end.

Section NetworkDenotation.
Context {T : Type} `{Torch T}.

Definition optional_layer_apply (h : list T) (l : option (list Block)) (xv : T)
    : result T :=
  match l with
  | Some bs => Sequential_apply h bs xv
  | None => Ok xv
  end.

Definition FinalPool_apply (h : list T) (p : option FinalPool) (xv : T) : result T :=
  match p with
  | Some (AdaptiveAvgPool2d oh ow) => adaptive_avg_pool2d xv oh ow
  | Some (PoolConv c) => Conv2d_apply h c xv
  | None => Ok xv
  end.

Definition attr_final_pool (p : option (option FinalPool)) : result (option FinalPool) :=
  match p with
  | Some fp => Ok fp
  | None => Raise AttributeError
  end.

(** The stages after the stem: pooling, the residual layers, the final
    pooling and the flattening. *)
Definition ResNet_trunk_apply (h : list T) (net : ResNet) (x : T) : result T :=
  x ← match maxpool net with
      | Some m => max_pool2d x (mp_kernel m) (mp_stride m) (mp_padding m)
      | None => Ok x
      end;
  x ← Sequential_apply h (layer1 net) x;
  x ← optional_layer_apply h (layer2 net) x;
  x ← optional_layer_apply h (layer3 net) x;
  x ← optional_layer_apply h (layer4 net) x;
  fp ← attr_final_pool (final_pool net);
  x ← FinalPool_apply h fp x;
  if negb (spatial_output net) then flatten1 x else Ok x.

(** The encodings that [ResNet.forward] computes from the input [xv]. *)
Definition ResNet_apply (h : list T) (net : ResNet) (xv : T) : result T :=
  x ← match padding net with
      | Some p => constant_pad2d xv p
      | None => Ok xv
      end;
  x ← Conv2d_apply h (conv1 net) x;
  x ← Norm_apply h (bn1 net) x;
  ResNet_trunk_apply h net (Act_apply (relu_ net) x).

(** The location of the encodings in the outcome of [ResNet.forward]. *)
Definition out_loc (r : result BackboneOutput * state T) : result loc * state T :=
  (rmap encodings r.1, r.2).
End NetworkDenotation.

Section Stages.
Context {T : Type} `{Torch T}.
Implicit Types h hc : list T.

(** A stage of the network that is handed a tensor the caller does not
    hold: it keeps the caller's heap [h] and returns such a tensor. *)
Definition stage h (f : loc → M T loc) (fv : T → result T) : Prop :=
  ∀ hc g x xv, keeps (length h) h hc → length h ≤ x → hc !! x = Some xv →
    ∃ h1, keeps (length h) h h1 ∧ yields (f x (State hc g)) (length h) h1 g (fv xv).

(** The same for the last stages, which wrap the encodings. *)
Definition stage_out h (f : loc → M T BackboneOutput) (fv : T → result T) : Prop :=
  ∀ hc g x xv, keeps (length h) h hc → length h ≤ x → hc !! x = Some xv →
    ∃ h1, keeps (length h) h h1
          ∧ yields (out_loc (f x (State hc g))) (length h) h1 g (fv xv).
End Stages.

(** The heaps [h] and [h'] hold the same tensors at the parameters of the
    leaves [ms]. *)
Definition leaves_agree {T} (ms : list leaf) (h h' : list T) : Prop :=
  Forall (λ m, Forall (λ l, h !! l = h' !! l) (leaf_locs m)) ms.

(** Two networks with the same layers: every attribute that [forward]
    reads is the same; [final_ln] and the bookkeeping attributes are free. *)
Definition same_layers (net net' : ResNet) : Prop :=
  padding net = padding net' ∧ conv1 net = conv1 net' ∧ bn1 net = bn1 net'
  ∧ relu_ net = relu_ net' ∧ maxpool net = maxpool net'
  ∧ layer1 net = layer1 net' ∧ layer2 net = layer2 net'
  ∧ layer3 net = layer3 net' ∧ layer4 net = layer4 net'
  ∧ final_pool net = final_pool net' ∧ spatial_output net = spatial_output net'.

(** Two outcomes of [ResNet.forward] that carry the same encodings, or the
    same exception. *)
Definition same_outcome {T} (r1 r2 : result BackboneOutput * state T) : Prop :=
  match r1.1, r2.1 with
  | Ok o1, Ok o2 =>
      ∃ v, heap r1.2 !! encodings o1 = Some v ∧ heap r2.2 !! encodings o2 = Some v
  | Raise e1, Raise e2 => e1 = e2
  | _, _ => False
  end.

(** The arguments that the call [resnet18()] binds. *)
Definition resnet18_args : ResNet_args :=
  {| a_block := cBasicBlock; a_layers := [2; 2; 2; 2];
     a_filters := [64; 128; 256; 512]; a_strides := [1; 2; 2; 2];
     a_num_channels := 3; a_zero_init_residual := false; a_groups := 1;
     a_widen := 1; a_width_per_group := 64;
     a_replace_stride_with_dilation := None; a_norm_layer := None;
     a_last_activation := "relu"; a_inital_maxpool := true;
     a_final_pool_type := "avg_pool"; a_final_out_filters := 32;
     a_spatial_output := false; a_expand_factor := 2;
     a_initial_padding := true; a_final_ln := false |}.

(** An input batch allocated in the state [s]. *)
Definition with_input (s : state sym) (sh : shape_t) : state sym :=
  State (heap s ++ [Sym sh (tInput 0)]) (gen s).

(** A small network: one [BasicBlock] layer of one block. *)
Definition small_args : ResNet_args :=
  {| a_block := cBasicBlock; a_layers := [1]; a_filters := [64]; a_strides := [1];
     a_num_channels := 3; a_zero_init_residual := false; a_groups := 1;
     a_widen := 1; a_width_per_group := 64;
     a_replace_stride_with_dilation := None; a_norm_layer := None;
     a_last_activation := "relu"; a_inital_maxpool := true;
     a_final_pool_type := "avg_pool"; a_final_out_filters := 32;
     a_spatial_output := false; a_expand_factor := 2;
     a_initial_padding := true; a_final_ln := false |}.

(** The arguments [a] with other values for [expand_factor] and
    [final_ln]. *)
Definition with_unused (a : ResNet_args) (expand_factor : nat) (final_ln : bool)
    : ResNet_args :=
  {| a_block := a_block a; a_layers := a_layers a; a_filters := a_filters a;
     a_strides := a_strides a; a_num_channels := a_num_channels a;
     a_zero_init_residual := a_zero_init_residual a; a_groups := a_groups a;
     a_widen := a_widen a; a_width_per_group := a_width_per_group a;
     a_replace_stride_with_dilation := a_replace_stride_with_dilation a;
     a_norm_layer := a_norm_layer a; a_last_activation := a_last_activation a;
     a_inital_maxpool := a_inital_maxpool a;
     a_final_pool_type := a_final_pool_type a;
     a_final_out_filters := a_final_out_filters a;
     a_spatial_output := a_spatial_output a;
     a_expand_factor := expand_factor;
     a_initial_padding := a_initial_padding a;
     a_final_ln := final_ln |}.

(** An exception other than the [ValueError] about
    [replace_stride_with_dilation]. *)
Definition other_error (e : exn) : Prop :=
  ∀ l, e ≠ ValueError (replace_stride_message l).

(** A computation that never raises that [ValueError]. *)
Definition quiet {T A} (m : M T A) : Prop :=
  ∀ s e s', m s = (Raise e, s') → other_error e.

(** The arguments [a] with another [replace_stride_with_dilation]. *)
Definition with_replace_stride (a : ResNet_args) (r : option (list bool)) : ResNet_args :=
  {| a_block := a_block a; a_layers := a_layers a; a_filters := a_filters a;
     a_strides := a_strides a; a_num_channels := a_num_channels a;
     a_zero_init_residual := a_zero_init_residual a; a_groups := a_groups a;
     a_widen := a_widen a; a_width_per_group := a_width_per_group a;
     a_replace_stride_with_dilation := r;
     a_norm_layer := a_norm_layer a; a_last_activation := a_last_activation a;
     a_inital_maxpool := a_inital_maxpool a;
     a_final_pool_type := a_final_pool_type a;
     a_final_out_filters := a_final_out_filters a;
     a_spatial_output := a_spatial_output a;
     a_expand_factor := a_expand_factor a;
     a_initial_padding := a_initial_padding a;
     a_final_ln := a_final_ln a |}.


(** The tensor at the encodings of an outcome has the shape [sh]. *)
Definition encodings_shape {T} `{Torch T}
    (r : result BackboneOutput * state T) (sh : shape_t) : Prop :=
  ∃ o v, r.1 = Ok o ∧ heap r.2 !! encodings o = Some v ∧ shape v = sh.

(** ** Well-formed modules

    What the constructors establish about a module and the heap: the
    hyperparameters it was built with, and parameters of the matching
    shapes. *)

(** The group count [min(32, C // 4)] that every call of [norm_layer]
    passes is accepted by [nn.GroupNorm] for [C] channels. *)
Definition gn_ok (C : nat) : bool := norm_accepts nn_GroupNorm (min 32 (C / 4)) C.

(** The extent left by a 3x3 convolution with padding 1, or by a 1x1
    convolution, of stride [st]. *)
Definition down (h st : nat) : nat := (h - 1) / st + 1.

Section WellFormed.
Context {T : Type} `{Torch T}.

Definition has_shape (h : list T) (l : loc) (sh : shape_t) : Prop :=
  ∃ v, h !! l = Some v ∧ shape v = sh.

(** A convolution with a single group, built with these arguments. *)
Definition Conv2d_wf (h : list T) (c : Conv2d) (cin cout k st p : nat) : Prop :=
  in_channels c = cin ∧ out_channels c = cout ∧ kernel_size c = k
  ∧ conv_stride c = st ∧ conv_padding c = p ∧ conv_dilation c = 1
  ∧ conv_groups c = 1
  ∧ has_shape h (conv_weight c) [cout; cin; k; k]
  ∧ match conv_bias c with
    | Some b => has_shape h b [cout]
    | None => True
    end.

Definition GroupNorm_wf (h : list T) (n : Norm) (C : nat) : Prop :=
  ∃ w b, n = GroupNorm (min 32 (C / 4)) C w b
         ∧ has_shape h w [C] ∧ has_shape h b [C].

Definition Downsample_wf (h : list T) (d : option Downsample)
    (inplanes planes st : nat) : Prop :=
  if negb (st =? 1) || negb (inplanes =? planes)
  then ∃ d', d = Some d' ∧ Conv2d_wf h (ds_conv d') inplanes planes 1 st 0
             ∧ GroupNorm_wf h (ds_norm d') planes
  else d = None.

Definition BasicBlock_wf (h : list T) (b : BasicBlock) (inplanes planes st : nat)
    : Prop :=
  Conv2d_wf h (bb_conv1 b) inplanes planes 3 st 1
  ∧ GroupNorm_wf h (bb_bn1 b) planes
  ∧ Conv2d_wf h (bb_conv2 b) planes planes 3 1 1
  ∧ GroupNorm_wf h (bb_bn2 b) planes
  ∧ Downsample_wf h (bb_downsample b) inplanes planes st.

Definition Block_wf (h : list T) (b : Block) (inplanes planes st : nat) : Prop :=
  match b with
  | IsBasicBlock b => BasicBlock_wf h b inplanes planes st
  | _ => False
  end.

(** A layer made by [_make_layer]: a first block that changes the
    channels and the resolution, then blocks that keep them. *)
Definition layer_wf (h : list T) (bs : list Block) (inplanes planes st : nat) : Prop :=
  match bs with
  | [] => False
  | b :: rest =>
      Block_wf h b inplanes planes st ∧ Forall (λ b, Block_wf h b planes planes 1) rest
  end.

(** [h'] holds tensors of the same shapes as [h] wherever [h] holds one. *)
Definition same_shapes (h h' : list T) : Prop :=
  ∀ l sh, has_shape h l sh → has_shape h' l sh.
End WellFormed.

(** ** The shape of the encodings

    For the networks of four [BasicBlock] layers, what the stem, the layers
    and the final pooling leave of an input of height or width [H]. *)

Definition stem_extent (pad mp : bool) (H : nat) : nat :=
  let H1 := if pad then H + 2 else H in
  let H2 := window_out H1 7 2 2 1 in
  if mp then window_out H2 3 2 1 1 else H2.

Definition trunk_extent (t0 t1 t2 t3 H : nat) : nat :=
  down (down (down (down H t0) t1) t2) t3.

Definition pooled_shape (ty : string) (B f3 fof hh ww : nat) : shape_t :=
  if String.eqb ty "avg_pool" then [B; f3; 1; 1]
  else if String.eqb ty "1x1_pool" then [B; fof; hh; ww]
  else [B; f3; hh; ww].

Definition flat_shape (sh : shape_t) : shape_t :=
  match sh with
  | [B; C; Hh; W] => [B; C * Hh * W]
  | _ => sh
  end.

Definition valid_pool (ty : string) : bool :=
  String.eqb ty "avg_pool" || String.eqb ty "1x1_pool" || String.eqb ty "id".

(** The shape of the encodings of a network built from the arguments [a],
    with last filter count [f3] and strides [t0 .. t3], on an input of
    shape [B; C; H; W]. *)
Definition encodings_shape_of (a : ResNet_args) (f3 t0 t1 t2 t3 B H W : nat)
    : shape_t :=
  let ext X :=
    trunk_extent t0 t1 t2 t3
      (stem_extent (a_initial_padding a) (a_inital_maxpool a) X) in
  let pooled :=
    pooled_shape (a_final_pool_type a) B f3 (a_final_out_filters a) (ext H) (ext W) in
  if a_spatial_output a then pooled else flat_shape pooled.

Section NetworkWellFormed.
Context {T : Type} `{Torch T}.

Definition FinalPool_wf (h : list T) (p : option (option FinalPool)) (ty : string)
    (cin cout : nat) : Prop :=
  if String.eqb ty "avg_pool" then p = Some (Some (AdaptiveAvgPool2d 1 1))
  else if String.eqb ty "1x1_pool"
  then ∃ c, p = Some (Some (PoolConv c)) ∧ Conv2d_wf h c cin cout 1 1 0
  else if String.eqb ty "id" then p = Some None
  else p = None.

(** What [ResNet.__init__] establishes for four [BasicBlock] layers with
    filters [f0 .. f3] and strides [t0 .. t3]. *)
Definition ResNet_wf (h : list T) (net : ResNet) (a : ResNet_args)
    (f0 f1 f2 f3 t0 t1 t2 t3 : nat) : Prop :=
  padding net = (if a_initial_padding a then Some 1 else None)
  ∧ Conv2d_wf h (conv1 net) (a_num_channels a) f0 7 2 2
  ∧ GroupNorm_wf h (bn1 net) f0
  ∧ maxpool net
    = (if a_inital_maxpool a
       then Some {| mp_kernel := 3; mp_stride := 2; mp_padding := 1 |}
       else None)
  ∧ layer_wf h (layer1 net) (a_width_per_group a * a_widen a) f0 t0
  ∧ (∃ l, layer2 net = Some l ∧ layer_wf h l f0 f1 t1)
  ∧ (∃ l, layer3 net = Some l ∧ layer_wf h l f1 f2 t2)
  ∧ (∃ l, layer4 net = Some l ∧ layer_wf h l f2 f3 t3)
  ∧ FinalPool_wf h (final_pool net) (a_final_pool_type a) f3 (a_final_out_filters a)
  ∧ spatial_output net = a_spatial_output a.
End NetworkWellFormed.

(** ** Total correctness

    [m] run in [s] returns a value and a state that satisfy [P]. *)
Definition returns {T A} (m : M T A) (s : state T) (P : A → state T → Prop) : Prop :=
  ∃ a s', m s = (Ok a, s') ∧ P a s'.

(** ** The exposed constructors *)

(** What [resnet18s_g] leaves of a height or width. *)
Definition resnet18s_g_extent (X : nat) : nat :=
  trunk_extent 1 2 1 1 (stem_extent true false X).

(** The exposed constructors that pass neither [filters] nor [strides] to
    [ResNet]. *)
Definition constructors_without_filters {T} `{Torch T}
    : list (kwargs → M T (ResNet * option nat)) :=
  [resnet18ID; resnet34; resnet50; resnet101; resnet50x2; resnet50x4; resnet50x5;
   resnet200x2; resnet18s_a; resnet18s_b; resnet18s_c; resnet18s_d; resnet18s_e;
   resnet18s_f].

(** ** Further notions used by the properties of the constructors *)

(** The normalisation layer that closes the residual branch of a block. *)
Definition residual_norm (b : Block) : option Norm :=
  match b with
  | IsBasicBlock b => Some (bb_bn2 b)
  | IsBottleneck b => Some (bn_bn3 b)
  | IsBasicBlockID _ => None
  end.

(** The weight of that layer is a tensor of zeros. *)
Definition zero_weight {T} `{Torch T} (h : list T) (b : Block) : Prop :=
  match residual_norm b with
  | Some n => ∃ sh, h !! Norm_weight n = Some (full sh 0)
  | None => True
  end.

(** The [downsample] attribute of a block. *)
Definition Block_downsample (b : Block) : option Downsample :=
  match b with
  | IsBasicBlockID b => id_downsample b
  | IsBasicBlock b => bb_downsample b
  | IsBottleneck b => bn_downsample b
  end.

(** Every tensor of the leaves lies at or above [lo]. *)
Definition leaves_fresh (ms : list leaf) (lo : nat) : Prop :=
  Forall (λ m, Forall (λ l, lo ≤ l) (leaf_locs m)) ms.

(** [m] leaves the tensors below [lo] as they are, whatever its outcome, and
    a value it returns satisfies [Q]. *)
Definition frames {T A} (lo : nat) (m : M T A) (Q : A → Prop) : Prop :=
  ∀ s r s', lo ≤ length (heap s) → m s = (r, s') →
    keeps lo (heap s) (heap s') ∧ ∀ a, r = Ok a → Q a.

(** The arguments [a] with other values for [filters], [widen],
    [zero_init_residual] and [final_pool_type]. *)
Definition with_options (a : ResNet_args) (filters : list nat) (widen : nat)
    (zero_init_residual : bool) (final_pool_type : string) : ResNet_args :=
  {| a_block := a_block a; a_layers := a_layers a; a_filters := filters;
     a_strides := a_strides a; a_num_channels := a_num_channels a;
     a_zero_init_residual := zero_init_residual; a_groups := a_groups a;
     a_widen := widen; a_width_per_group := a_width_per_group a;
     a_replace_stride_with_dilation := a_replace_stride_with_dilation a;
     a_norm_layer := a_norm_layer a; a_last_activation := a_last_activation a;
     a_inital_maxpool := a_inital_maxpool a;
     a_final_pool_type := final_pool_type;
     a_final_out_filters := a_final_out_filters a;
     a_spatial_output := a_spatial_output a;
     a_expand_factor := a_expand_factor a;
     a_initial_padding := a_initial_padding a;
     a_final_ln := a_final_ln a |}.

(** The attributes of [self] when [ResNet.__init__] calls [_make_layer] for
    a second layer of a default network. *)
Definition demo_maker : maker :=
  {| mk_norm_layer := nn_GroupNorm; mk_inplanes := 64; mk_dilation := 1;
     mk_groups := 1; mk_base_width := 64 |}.

(** The arguments [a] with another [last_activation]. *)
Definition with_last_activation (a : ResNet_args) (la : string) : ResNet_args :=
  {| a_block := a_block a; a_layers := a_layers a; a_filters := a_filters a;
     a_strides := a_strides a; a_num_channels := a_num_channels a;
     a_zero_init_residual := a_zero_init_residual a; a_groups := a_groups a;
     a_widen := a_widen a; a_width_per_group := a_width_per_group a;
     a_replace_stride_with_dilation := a_replace_stride_with_dilation a;
     a_norm_layer := a_norm_layer a; a_last_activation := la;
     a_inital_maxpool := a_inital_maxpool a;
     a_final_pool_type := a_final_pool_type a;
     a_final_out_filters := a_final_out_filters a;
     a_spatial_output := a_spatial_output a;
     a_expand_factor := a_expand_factor a;
     a_initial_padding := a_initial_padding a;
     a_final_ln := a_final_ln a |}.

(** The arguments of [resnet18] with [initial_padding=False]. *)
Definition resnet18_unpadded_args : ResNet_args :=
  {| a_block := cBasicBlock; a_layers := [2; 2; 2; 2];
     a_filters := [64; 128; 256; 512]; a_strides := [1; 2; 2; 2];
     a_num_channels := 3; a_zero_init_residual := false; a_groups := 1;
     a_widen := 1; a_width_per_group := 64;
     a_replace_stride_with_dilation := None; a_norm_layer := None;
     a_last_activation := "relu"; a_inital_maxpool := true;
     a_final_pool_type := "avg_pool"; a_final_out_filters := 32;
     a_spatial_output := false; a_expand_factor := 2;
     a_initial_padding := false; a_final_ln := false |}.


(** ** Weights and buffers *)

(** The buffers of a normalisation: the running statistics and the batch
    counter that [BatchNorm2d] keeps and that are no parameters. *)
Definition Norm_buffers (n : Norm) : list loc :=
  match n with
  | GroupNorm _ _ _ _ => []
  | BatchNorm2d _ _ _ _ rm rv nbt => [rm; rv; nbt]
  end.

Definition leaf_buffers (m : leaf) : list loc :=
  match m with
  | LeafConv _ => []
  | LeafNorm n => Norm_buffers n
  end.



Definition leaves_buffers (ms : list leaf) : list loc := concat (map leaf_buffers ms).





(** The locations [ls] are pairwise distinct and lie in [lo, hi). *)
Definition span (ls : list loc) (lo hi : nat) : Prop :=
  NoDup ls ∧ Forall (λ l, lo ≤ l < hi) ls.


(** ** The skip connection of the residual blocks *)

(** The value of the tensor that a computation returns. *)
Definition value_of {T} (m : M T loc) : M T T := y <- m ;; read y.

Section SkipConnection.
Context {T : Type} `{Torch T}.

(** The layers of [BasicBlock.forward] before the sum. *)
Definition BasicBlock_transform_run (self : BasicBlock) (x : loc) : M T loc :=
  out <- Conv2d_forward (bb_conv1 self) x ;;
  out <- Norm_forward (bb_bn1 self) out ;;
  out <- Act_forward (bb_relu self) out ;;
  out <- Conv2d_forward (bb_conv2 self) out ;;
  Norm_forward (bb_bn2 self) out.

(** The layers of [Bottleneck.forward] before the sum. *)
Definition Bottleneck_transform_run (self : Bottleneck) (x : loc) : M T loc :=
  out <- Conv2d_forward (bn_conv1 self) x ;;
  out <- Norm_forward (bn_bn1 self) out ;;
  out <- Act_forward (bn_relu self) out ;;
  out <- Conv2d_forward (bn_conv2 self) out ;;
  out <- Norm_forward (bn_bn2 self) out ;;
  out <- Act_forward (bn_relu self) out ;;
  out <- Conv2d_forward (bn_conv3 self) out ;;
  Norm_forward (bn_bn3 self) out.

(** The identity branch of a block: [self.downsample(x)] when there is a
    downsample module, [x] otherwise. *)
Definition identity_run (downsample : option Downsample) (x : loc) : M T loc :=
  match downsample with
  | Some d => Downsample_forward d x
  | None => ret x
  end.

(** The skip connection in the words of the specification: the transformed
    output, then the identity branch, and the activation of the sum of
    their values. *)
Definition skip_connection_run (activation : T → result T)
    (transform identity : loc → M T loc) (x : loc) : M T T :=
  out <- transform x ;;
  idn <- identity x ;;
  tv <- read out ;;
  iv <- read idn ;;
  sum <- lift (add tv iv) ;;
  lift (activation sum).

(** A block without transformed branch: the activation of the value of the
    identity branch. *)
Definition identity_connection_run (activation : T → result T)
    (identity : loc → M T loc) (x : loc) : M T T :=
  idn <- identity x ;;
  iv <- read idn ;;
  lift (activation iv).
End SkipConnection.

(* END OF DEFINITIONS *)

(** * Properties *)

Section MonadFacts.
Context {T : Type} `{Torch T}.

Lemma bind_Ok {A B} (m : M T A) (k : A → M T B) s a s' :
  m s = (Ok a, s') → bind m k s = k a s'.
Proof. unfold bind. by intros ->. Qed.

Lemma bind_Raise {A B} (m : M T A) (k : A → M T B) s e s' :
  m s = (Raise e, s') → bind m k s = (Raise e, s').
Proof. unfold bind. by intros ->. Qed.

Lemma new_param_eq sh (s : state T) :
  new_param sh s
  = (Ok (length (heap s)), State (heap s ++ [sample (gen s) sh]) (S (gen s))).
Proof. reflexivity. Qed.

(** A convolution without bias and with a single group is always built,
    and costs one allocation and one draw. *)
Lemma new_Conv2d_plain cin cout k st p d (s : state T) :
  new_Conv2d cin cout k st p d 1 false s
  = (Ok {| in_channels := cin; out_channels := cout; kernel_size := k;
           conv_stride := st; conv_padding := p; conv_dilation := d;
           conv_groups := 1; conv_weight := length (heap s); conv_bias := None |},
     State (heap s ++ [sample (gen s) [cout; cin; k; k]]) (S (gen s))).
Proof.
  unfold new_Conv2d.
  rewrite !Nat.mod_1_r, Nat.div_1_r. reflexivity.
Qed.

Lemma new_GroupNorm_accepts G C (s : state T) :
  norm_accepts nn_GroupNorm G C = true →
  new_GroupNorm G C s
  = (Ok (GroupNorm G C (length (heap s)) (S (length (heap s)))),
     State (heap s ++ [full [C] 1; full [C] 0]) (gen s)).
Proof.
  unfold norm_accepts, new_GroupNorm. intros [HG HC]%andb_true_iff.
  apply negb_true_iff in HG. rewrite HG, HC. cbn.
  unfold bind, alloc, ret. cbn.
  rewrite length_app, <- app_assoc. cbn. do 3 f_equal. lia.
Qed.

Lemma new_BatchNorm2d_eq F eps (s : state T) :
  ∃ n s', new_BatchNorm2d F eps s = (Ok n, s').
Proof. unfold new_BatchNorm2d, bind, alloc, ret. cbn. eauto. Qed.

Lemma call_norm_layer_accepts k G C (s : state T) :
  norm_accepts k G C = true → ∃ n s', call_norm_layer k G C s = (Ok n, s').
Proof.
  destruct k; cbn [call_norm_layer]; intros Hk.
  - rewrite new_GroupNorm_accepts by done. eauto.
  - apply new_BatchNorm2d_eq.
Qed.
End MonadFacts.

(** ** The guards of [BasicBlock.__init__] *)

(** Runs the call of [norm_layer] at the head of the goal, given that the
    constructor accepts its arguments. *)
Ltac step_norm Hn :=
  match goal with
  | |- context [bind (call_norm_layer ?k ?G ?C) _ ?s] =>
      let n := fresh "n" in
      let s' := fresh "s" in
      let E := fresh "E" in
      destruct (call_norm_layer_accepts k G C s Hn) as (n & s' & E);
      erewrite bind_Ok by apply E
  end.

Section BasicBlockGuards.
Context {T : Type} `{Torch T}.

Lemma BasicBlock_init_builds inplanes planes stride ds nl la dil (s : state T) :
  norm_accepts (default nn_BatchNorm2d nl) (min 32 (planes / 4)) planes = true →
  dil ≤ 1 →
  ∃ b s', BasicBlock_init inplanes planes stride ds 1 64 dil nl la s = (Ok b, s').
Proof.
  intros Hn Hd. unfold BasicBlock_init, super_init.
  rewrite decide_True by done.
  erewrite bind_Ok by reflexivity. cbn [Nat.eqb negb orb].
  replace (1 <? dil) with false by (symmetry; apply Nat.ltb_ge; lia).
  unfold conv3x3.
  erewrite bind_Ok by apply new_Conv2d_plain.
  step_norm Hn.
  erewrite bind_Ok by apply new_Conv2d_plain.
  step_norm Hn.
  unfold ret. eauto.
Qed.
End BasicBlockGuards.

(** Splits on the outcome of the call of [norm_layer] at the head of the
    goal. *)
Ltac case_norm n e s' E :=
  match goal with
  | |- context [bind (call_norm_layer ?k ?G ?C) _ ?s] =>
      destruct (call_norm_layer k G C s) as [[n|e] s'] eqn:E;
      [erewrite bind_Ok by exact E | erewrite bind_Raise by exact E]
  end.

Section BasicBlockPastGuards.
Context {T : Type} `{Torch T}.

(** A call of [norm_layer] never shrinks the heap, whatever its outcome. *)
Lemma call_norm_layer_heap k G C (s : state T) :
  length (heap s) ≤ length (heap (call_norm_layer k G C s).2).
Proof.
  destruct k; cbn [call_norm_layer].
  - unfold new_GroupNorm. repeat case_match; cbn; try lia.
    unfold bind, alloc, ret. cbn. rewrite !length_app. cbn. lia.
  - unfold new_BatchNorm2d, bind, alloc, ret. cbn. rewrite !length_app. cbn. lia.
Qed.

(** Past its guards, [BasicBlock.__init__] has built [conv1] whatever
    happens next. *)
Lemma BasicBlock_init_past_guards inplanes planes stride ds dil nl la (s : state T) :
  dil ≤ 1 →
  length (heap s)
  < length (heap (BasicBlock_init inplanes planes stride ds 1 64 dil nl la s).2).
Proof.
  intros Hd. unfold BasicBlock_init, super_init.
  rewrite decide_True by done. erewrite bind_Ok by reflexivity.
  cbn [Nat.eqb negb orb].
  replace (1 <? dil) with false by (symmetry; apply Nat.ltb_ge; lia).
  unfold conv3x3. erewrite bind_Ok by apply new_Conv2d_plain.
  match goal with
  | |- context [bind (call_norm_layer ?k ?G ?C) _ ?s] =>
      pose proof (call_norm_layer_heap k G C s) as L1
  end.
  case_norm n1 e1 s1 E1; cbn in L1;
    rewrite length_app in L1; cbn in L1; [|cbn; lia].
  erewrite bind_Ok by apply new_Conv2d_plain.
  match goal with
  | |- context [bind (call_norm_layer ?k ?G ?C) _ ?s] =>
      pose proof (call_norm_layer_heap k G C s) as L2
  end.
  case_norm n2 e2 s2 E2; cbn in L2;
    rewrite length_app in L2; cbn in L2; cbn; lia.
Qed.
End BasicBlockPastGuards.

(** C4, as amended.  The guards of [BasicBlock.__init__] fire before any
    layer is built, leaving the heap and the generator as they were: the
    constructor raises a [ValueError] in the untouched state exactly when
    [groups != 1] or [base_width != 64], and then with the guard's message;
    a [NotImplementedError] in the untouched state when those pass and
    [dilation > 1]; and when those pass and [dilation <= 1] the constructor
    returns a block, provided the normalisation constructor accepts
    [(min(32, planes // 4), planes)], as the default [BatchNorm2d] always
    does; under the same proviso a [ValueError] of any origin is raised
    exactly when [groups != 1] or [base_width != 64].  Only these last two
    clauses depend on the normalisation layer. *)
Theorem BasicBlock_init_guards {T : Type} `{Torch T}
    inplanes planes stride ds groups base_width dil nl la (s : state T) :
  let r := BasicBlock_init inplanes planes stride ds groups base_width dil nl la s in
  ((groups ≠ 1 ∨ base_width ≠ 64) ↔ ∃ m, r = (Raise (ValueError m), s))
  ∧ ((groups ≠ 1 ∨ base_width ≠ 64) →
     r = (Raise (ValueError "BasicBlock only supports groups=1 and base_width=64"), s))
  ∧ (groups = 1 → base_width = 64 → 1 < dil →
     r = (Raise (NotImplementedError "Dilation > 1 not supported in BasicBlock"), s))
  ∧ (groups = 1 → base_width = 64 → dil ≤ 1 →
     norm_accepts (default nn_BatchNorm2d nl) (min 32 (planes / 4)) planes = true →
     ∃ b, r.1 = Ok b)
  ∧ (norm_accepts (default nn_BatchNorm2d nl) (min 32 (planes / 4)) planes = true →
     ((groups ≠ 1 ∨ base_width ≠ 64) ↔ ∃ m, r.1 = Raise (ValueError m))).
Proof.
  intros r.
  assert (Hbad : (groups ≠ 1 ∨ base_width ≠ 64) →
     r = (Raise (ValueError "BasicBlock only supports groups=1 and base_width=64"), s)).
  { intros Hg. subst r. unfold BasicBlock_init, super_init.
    rewrite decide_True by done. erewrite bind_Ok by reflexivity.
    replace (negb (groups =? 1) || negb (base_width =? 64)) with true; [done|].
    symmetry. apply orb_true_iff.
    destruct Hg as [Hg|Hg]; [left|right]; apply negb_true_iff, Nat.eqb_neq; done. }
  assert (Hdil : groups = 1 → base_width = 64 → 1 < dil →
     r = (Raise (NotImplementedError "Dilation > 1 not supported in BasicBlock"), s)).
  { intros -> -> Hd. subst r. unfold BasicBlock_init, super_init.
    rewrite decide_True by done. erewrite bind_Ok by reflexivity.
    cbn [Nat.eqb negb orb].
    replace (1 <? dil) with true by (symmetry; apply Nat.ltb_lt; lia). done. }
  split_and!.
  - split; [intros Hg; rewrite (Hbad Hg); eauto|]. intros [m Hr].
    destruct (decide (groups = 1)) as [Hg|]; [|by left].
    destruct (decide (base_width = 64)) as [Hb|]; [|by right].
    exfalso. destruct (decide (dil ≤ 1)) as [Hd|Hd].
    + subst groups base_width.
      pose proof (BasicBlock_init_past_guards inplanes planes stride ds dil nl la s Hd)
        as Hlen.
      fold r in Hlen. rewrite Hr in Hlen. cbn in Hlen. lia.
    + rewrite (Hdil Hg Hb ltac:(lia)) in Hr. discriminate.
  - exact Hbad.
  - exact Hdil.
  - intros -> -> Hd Hn. subst r.
    destruct (BasicBlock_init_builds inplanes planes stride ds nl la dil s Hn Hd)
      as (b & s' & ->). eauto.
  - intros Hn. split; [intros Hg; rewrite (Hbad Hg); eauto|]. intros [m Hm].
    destruct (decide (groups = 1)) as [Hg|]; [|by left].
    destruct (decide (base_width = 64)) as [Hb|]; [|by right].
    exfalso. destruct (decide (dil ≤ 1)) as [Hd|Hd].
    + subst groups base_width. subst r.
      destruct (BasicBlock_init_builds inplanes planes stride ds nl la dil s Hn Hd)
        as (b & s' & Eb). rewrite Eb in Hm. discriminate.
    + rewrite (Hdil Hg Hb ltac:(lia)) in Hm. cbn in Hm. congruence.
Qed.

Lemma BasicBlock_init_guards_witness :
  BasicBlock_init (T := sym) 9 9 1 None 2 64 1 (Some nn_GroupNorm) "relu" empty_state
  = (Raise (ValueError "BasicBlock only supports groups=1 and base_width=64"),
     empty_state).
Proof.
  destruct (BasicBlock_init_guards (T := sym) 9 9 1 None 2 64 1 (Some nn_GroupNorm)
              "relu" empty_state) as (_ & Hfire & _).
  apply Hfire. left. lia.
Defined.

(** C4 as stated fails: with [norm_layer = nn.GroupNorm] and [planes = 9]
    the arguments pass both guards ([groups = 1], [base_width = 64],
    [dilation = 1]) and the constructor still raises a [ValueError], from
    [nn.GroupNorm(2, 9)], after the first convolution has been built. *)
Lemma BasicBlock_init_raises_past_guards :
  let r := BasicBlock_init (T := sym) 9 9 1 None 1 64 1 (Some nn_GroupNorm) "relu"
             empty_state in
  r.1 = Raise (ValueError "num_channels must be divisible by num_groups")
  ∧ length (heap r.2) = 1.
Proof. vm_compute. done. Qed.

(** ** A [Bottleneck] whose final activation was never assigned *)


Section BottleneckAttr.
Context {T : Type} `{Torch T}.


End BottleneckAttr.




(** ** [forward] against the computation on values *)

(** Takes apart the hypotheses that say where the leaves of a module live. *)
Ltac split_leaves :=
  repeat match goal with
  | H : leaves_in _ _ |- _ => unfold leaves_in in H
  | H : Forall _ (_ ++ _) |- _ => apply Forall_app in H as [? ?]
  | H : Forall _ (_ :: _) |- _ => apply Forall_cons in H as [? ?]
  | H : _ ∧ _ |- _ => destruct H as [? ?]
  end; cbn [leaf_locs leaf_is_group] in *.

Section ForwardRuns.
Context {T : Type} `{Torch T}.
Implicit Types h hp : list T.

Lemma keeps_refl n h : keeps n h h.
Proof. by split. Qed.

Lemma keeps_trans n m k h1 h2 h3 :
  keeps n h1 h2 → keeps m h2 h3 → k ≤ n → k ≤ m → keeps k h1 h3.
Proof.
  intros [L1 K1] [L2 K2] ??. split; [lia|].
  intros l Hl. rewrite K2, K1 by lia. done.
Qed.

Lemma keeps_weaken n k h1 h2 : keeps n h1 h2 → k ≤ n → keeps k h1 h2.
Proof. intros [L K] ?. split; [done|]. intros l ?. apply K. lia. Qed.

Lemma keeps_app h E : keeps (length h) h (h ++ E).
Proof.
  split; [rewrite length_app; lia|]. intros l Hl. by apply lookup_app_l.
Qed.

Lemma keeps_insert n h y v : n ≤ y → keeps n h (<[y := v]> h).
Proof.
  intros Hy. split; [by rewrite length_insert|].
  intros l Hl. apply list_lookup_insert_ne. lia.
Qed.

Lemma keeps_lookup n h h' l v :
  keeps n h h' → l < n → h !! l = Some v → h' !! l = Some v.
Proof. intros [_ K] Hl Hv. by rewrite K. Qed.

(** A heap that keeps its first [n] tensors is an extension of them. *)
Lemma keeps_ext h h' : keeps (length h) h h' → ∃ E, h' = h ++ E.
Proof.
  intros [L K]. exists (drop (length h) h').
  rewrite <- (take_drop (length h) h') at 1. f_equal.
  apply list_eq. intros i. destruct (decide (i < length h)) as [Hi|Hi].
  - rewrite lookup_take_lt by done. by apply K.
  - rewrite lookup_take_ge by lia. symmetry. apply lookup_ge_None. lia.
Qed.

Lemma fetch_keeps hp h l :
  keeps (length hp) hp h → l < length hp → fetch h l = fetch hp l.
Proof. intros [_ K] Hl. unfold fetch. by rewrite K. Qed.

Lemma read_fetch h g l :
  read l (State h g) = (fetch h l, State h g).
Proof. unfold read, fetch. cbn. by destruct (h !! l). Qed.

Lemma lookup_snoc h (v : T) : (h ++ [v]) !! length h = Some v.
Proof. rewrite lookup_app_r by done. by rewrite Nat.sub_diag. Qed.

(** The outcome of allocating the result of a primitive. *)
Lemma alloc_yields h g (r : result T) :
  ∃ h', keeps (length h) h h'
        ∧ yields ((y <- lift r ;; alloc y) (State h g)) (length h) h' g r.
Proof.
  destruct r as [v|e]; cbn.
  - exists (h ++ [v]). split; [apply keeps_app|].
    exists (length h). split_and!; [done|done|apply lookup_snoc].
  - exists h. split; [apply keeps_refl|done].
Qed.

Lemma Conv2d_apply_keeps hp h c xv :
  keeps (length hp) hp h → Forall (λ l, l < length hp) (Conv2d_locs c) →
  Conv2d_apply h c xv = Conv2d_apply hp c xv.
Proof.
  intros K Hc. unfold Conv2d_apply, Conv2d_locs in *.
  apply Forall_cons in Hc as [Hw Hb].
  rewrite (fetch_keeps hp h) by done.
  destruct (conv_bias c) as [b|]; cbn in *; [|done].
  apply Forall_cons in Hb as [Hb _].
  by rewrite (fetch_keeps hp h) by done.
Qed.

Lemma Conv2d_forward_run c x h g xv :
  h !! x = Some xv →
  ∃ h', keeps (length h) h h'
        ∧ yields (Conv2d_forward c x (State h g)) (length h) h' g (Conv2d_apply h c xv).
Proof.
  intros Hx. unfold Conv2d_forward, Conv2d_apply.
  unfold bind at 1. rewrite read_fetch. unfold fetch at 1. rewrite Hx.
  unfold bind at 1. rewrite read_fetch.
  destruct (fetch h (conv_weight c)) as [w|e]; cbn [mbind result_bind rbind];
    [|exists h; split; [apply keeps_refl|by split]].
  unfold bind at 1.
  destruct (conv_bias c) as [b|]; cbn [read_opt fetch_opt].
  - unfold bind at 1. rewrite read_fetch.
    destruct (fetch h b) as [bv|e]; cbn [mbind result_bind rbind];
      [|exists h; split; [apply keeps_refl|by split]].
    unfold ret at 1. apply alloc_yields.
  - unfold ret at 1. cbn [mbind result_bind rbind]. apply alloc_yields.
Qed.

Lemma Norm_apply_keeps hp h n xv :
  keeps (length hp) hp h → Forall (λ l, l < length hp) (Norm_locs n) →
  Norm_apply h n xv = Norm_apply hp n xv.
Proof.
  intros K Hn. destruct n as [G C w b|]; cbn in *; [|done].
  apply Forall_cons in Hn as [Hw Hb]. apply Forall_cons in Hb as [Hb _].
  by rewrite !(fetch_keeps hp h) by done.
Qed.

Lemma Norm_forward_run n x h g xv :
  Norm_is_group n = true → h !! x = Some xv →
  ∃ h', keeps (length h) h h'
        ∧ yields (Norm_forward n x (State h g)) (length h) h' g (Norm_apply h n xv).
Proof.
  intros Hn Hx. destruct n as [G C w b|]; [|done]. cbn [Norm_forward Norm_apply].
  unfold bind at 1. rewrite read_fetch. unfold fetch at 1. rewrite Hx.
  unfold bind at 1. rewrite read_fetch.
  destruct (fetch h w) as [wv|e]; cbn [mbind result_bind rbind];
    [|exists h; split; [apply keeps_refl|by split]].
  unfold bind at 1. rewrite read_fetch.
  destruct (fetch h b) as [bv|e]; cbn [mbind result_bind rbind];
    [|exists h; split; [apply keeps_refl|by split]].
  apply alloc_yields.
Qed.

Lemma write_eq h g l (v : T) :
  l < length h → write l v (State h g) = (Ok tt, State (<[l := v]> h) g).
Proof.
  intros Hl. destruct (lookup_lt_is_Some_2 h l Hl) as [u Hu].
  unfold write. cbv beta. cbn [heap gen]. by rewrite Hu.
Qed.

(** An activation applied to a tensor that the caller does not hold. *)
Lemma Act_forward_run a y h g v n :
  n ≤ y → h !! y = Some v →
  ∃ h', keeps n h h'
        ∧ yields (Act_forward a y (State h g)) n h' g (Ok (Act_apply a v)).
Proof.
  intros Hn Hy. pose proof (lookup_lt_Some _ _ _ Hy) as Hlt.
  destruct a as [[|]| |]; cbn [Act_forward Act_apply].
  - exists (<[y := relu v]> h). split; [by apply keeps_insert|].
    unfold bind at 1. rewrite read_fetch. unfold fetch. rewrite Hy.
    unfold bind at 1. rewrite write_eq by done.
    exists y. split_and!; [done|done|by apply list_lookup_insert_eq].
  - exists (h ++ [relu v]). split; [eapply keeps_weaken; [apply keeps_app|lia]|].
    unfold bind at 1. rewrite read_fetch. unfold fetch. rewrite Hy.
    exists (length h). split_and!; [done|cbn; lia|apply lookup_snoc].
  - exists h. split; [apply keeps_refl|]. by exists y.
  - exists (h ++ [sigmoid v]). split; [eapply keeps_weaken; [apply keeps_app|lia]|].
    unfold bind at 1. rewrite read_fetch. unfold fetch. rewrite Hy.
    exists (length h). split_and!; [done|cbn; lia|apply lookup_snoc].
Qed.

Lemma iadd_run out idn h g ov iv n :
  n ≤ out → h !! out = Some ov → h !! idn = Some iv →
  ∃ h', keeps n h h' ∧ yields (iadd out idn (State h g)) n h' g (add ov iv).
Proof.
  intros Hn Ho Hi. pose proof (lookup_lt_Some _ _ _ Ho) as Hlt.
  unfold iadd.
  unfold bind at 1. rewrite read_fetch. unfold fetch at 1. rewrite Ho.
  unfold bind at 1. rewrite read_fetch. unfold fetch at 1. rewrite Hi.
  unfold bind at 1, lift at 1.
  destruct (add ov iv) as [v|e]; [|exists h; split; [apply keeps_refl|by split]].
  unfold bind at 1. rewrite write_eq by done.
  exists (<[out := v]> h). split; [by apply keeps_insert|].
  exists out. split_and!; [done|done|by apply list_lookup_insert_eq].
Qed.

Lemma rbind_assoc {A B C} (r : result A) (f : A → result B) (g : B → result C) :
  rbind (rbind r f) g = rbind r (λ a, rbind (f a) g).
Proof. by destruct r. Qed.

(** One step of a [forward]: the outcome of [m], then the rest.  [P] is
    what the proof maintains about the heap. *)
Lemma yields_step (m : M T loc) (k : loc → M T loc) hc g n h1 rv
    (kv : T → result T) N (P : list T → Prop) :
  yields (m (State hc g)) n h1 g rv →
  (is_ok rv = false → P h1) →
  (∀ y v, rv = Ok v → n ≤ y → h1 !! y = Some v →
     ∃ h2, P h2 ∧ yields (k y (State h1 g)) N h2 g (kv v)) →
  ∃ h2, P h2 ∧ yields (bind m k (State hc g)) N h2 g (rbind rv kv).
Proof.
  intros Y HR HO. destruct rv as [v|e]; cbn in *.
  - destruct Y as (y & E & Hy & Hv).
    destruct (HO y v eq_refl Hy Hv) as (h2 & HP & Y2).
    exists h2. split; [done|]. by rewrite (bind_Ok _ _ _ _ _ E).
  - exists h1. split; [by apply HR|]. by rewrite (bind_Raise _ _ _ _ _ Y).
Qed.

Lemma Downsample_forward_run hp d x h g xv :
  leaves_in (Downsample_leaves (Some d)) (length hp) → keeps (length hp) hp h →
  h !! x = Some xv →
  ∃ h', keeps (length h) h h'
        ∧ yields (Downsample_forward d x (State h g)) (length h) h' g
            (Downsample_apply hp d xv).
Proof.
  intros Hd Kb Hx. unfold Downsample_forward, Downsample_apply.
  cbn in Hd. apply Forall_cons in Hd as [[Hc _] Hd].
  apply Forall_cons in Hd as [[Hnl Hg] _]. cbn in Hc, Hnl, Hg.
  destruct (Conv2d_forward_run (ds_conv d) x h g xv Hx) as (h1 & K1 & Y1).
  rewrite (Conv2d_apply_keeps hp h) in Y1 by done.
  unfold mbind, result_bind.
  eapply yields_step; [exact Y1|done|].
  intros y v _ Hy Hv.
  destruct (Norm_forward_run (ds_norm d) y h1 g v Hg Hv) as (h2 & K2 & Y2).
  assert (Kb1 : keeps (length hp) hp h1).
  { eapply keeps_trans; [exact Kb|exact K1|lia|destruct Kb; lia]. }
  rewrite (Norm_apply_keeps hp h1) in Y2 by done.
  exists h2. split.
  - eapply keeps_trans; [exact K1|exact K2|lia|destruct K1; lia].
  - destruct (Norm_apply hp (ds_norm d) v); cbn in *; [|done].
    destruct Y2 as (y2 & ? & ? & ?). exists y2. split_and!; try done.
    destruct K1; lia.
Qed.

Lemma yields_step_pure (m : M T loc) (k : loc → M T loc) hc g n h1 z
    (R : result T) N (P : list T → Prop) :
  yields (m (State hc g)) n h1 g (Ok z) →
  (∀ y, n ≤ y → h1 !! y = Some z →
     ∃ h2, P h2 ∧ yields (k y (State h1 g)) N h2 g R) →
  ∃ h2, P h2 ∧ yields (bind m k (State hc g)) N h2 g R.
Proof.
  intros (y & E & Hy & Hv) HO.
  destruct (HO y Hy Hv) as (h2 & HP & Y2).
  exists h2. split; [done|]. by rewrite (bind_Ok _ _ _ _ _ E).
Qed.

Lemma bind_ret_r {A} (m : M T A) s : bind m ret s = m s.
Proof. unfold bind, ret. by destruct (m s) as [[a|e] s']. Qed.

Lemma yields_weaken r n n' h' g rv :
  yields r n h' g rv → n' ≤ n → yields r n' h' g rv.
Proof.
  destruct rv; cbn; [|done]. intros (y & ? & ? & ?) ?.
  exists y. split_and!; [done|lia|done].
Qed.

(** The steps of a block, relative to the heap [h0] at its entry and to
    the heap [hp] that holds the parameters. *)
Lemma keeps_base hp h0 hc :
  keeps (length hp) hp h0 → keeps (length h0) h0 hc → keeps (length hp) hp hc.
Proof.
  intros Kp K. eapply keeps_trans; [exact Kp|exact K|lia|destruct Kp; lia].
Qed.

Lemma Conv2d_step hp h0 c x hc g xv :
  Forall (λ l, l < length hp) (Conv2d_locs c) →
  keeps (length hp) hp h0 → keeps (length h0) h0 hc →
  hc !! x = Some xv →
  ∃ h1, (keeps (length h0) h0 h1 ∧ keeps (length hc) hc h1)
        ∧ yields (Conv2d_forward c x (State hc g)) (length hc) h1 g
            (Conv2d_apply hp c xv).
Proof.
  intros Hc Kp K Hx.
  destruct (Conv2d_forward_run c x hc g xv Hx) as (h1 & K1 & Y1).
  rewrite (Conv2d_apply_keeps hp hc) in Y1 by eauto using keeps_base.
  exists h1. split_and!; [|done|done].
  eapply keeps_trans; [exact K|exact K1|lia|destruct K; lia].
Qed.

Lemma Norm_step hp h0 n x hc g xv :
  Forall (λ l, l < length hp) (Norm_locs n) → Norm_is_group n = true →
  keeps (length hp) hp h0 → keeps (length h0) h0 hc → hc !! x = Some xv →
  ∃ h1, (keeps (length h0) h0 h1 ∧ keeps (length hc) hc h1)
        ∧ yields (Norm_forward n x (State hc g)) (length hc) h1 g
            (Norm_apply hp n xv).
Proof.
  intros Hn Hg Kp K Hx.
  destruct (Norm_forward_run n x hc g xv Hg Hx) as (h1 & K1 & Y1).
  rewrite (Norm_apply_keeps hp hc) in Y1 by eauto using keeps_base.
  exists h1. split_and!; [|done|done].
  eapply keeps_trans; [exact K|exact K1|lia|destruct K; lia].
Qed.

Lemma Act_step h0 a y hc g v :
  keeps (length h0) h0 hc → length h0 ≤ y → hc !! y = Some v →
  ∃ h1, keeps (length h0) h0 h1
        ∧ yields (Act_forward a y (State hc g)) (length h0) h1 g
            (Ok (Act_apply a v)).
Proof.
  intros K Hy Hv.
  destruct (Act_forward_run a y hc g v (length h0) Hy Hv) as (h1 & K1 & Y1).
  exists h1. split; [|done].
  eapply keeps_trans; [exact K|exact K1|lia|lia].
Qed.

Lemma iadd_step h0 out idn hc g ov iv :
  keeps (length h0) h0 hc → length h0 ≤ out →
  hc !! out = Some ov → hc !! idn = Some iv →
  ∃ h1, keeps (length h0) h0 h1
        ∧ yields (iadd out idn (State hc g)) (length h0) h1 g (add ov iv).
Proof.
  intros K Hy Ho Hi.
  destruct (iadd_run out idn hc g ov iv (length h0) Hy Ho Hi) as (h1 & K1 & Y1).
  exists h1. split; [|done].
  eapply keeps_trans; [exact K|exact K1|lia|lia].
Qed.

Lemma Downsample_step hp h0 d x hc g xv :
  leaves_in (Downsample_leaves (Some d)) (length hp) →
  keeps (length hp) hp h0 → keeps (length h0) h0 hc →
  hc !! x = Some xv →
  ∃ h1, (keeps (length h0) h0 h1 ∧ keeps (length hc) hc h1)
        ∧ yields (Downsample_forward d x (State hc g)) (length hc) h1 g
            (Downsample_apply hp d xv).
Proof.
  intros Hd Kp K Hx.
  destruct (Downsample_forward_run hp d x hc g xv Hd (keeps_base _ _ _ Kp K) Hx)
    as (h1 & K1 & Y1).
  exists h1. split_and!; [|done|done].
  eapply keeps_trans; [exact K|exact K1|lia|destruct K; lia].
Qed.

(** The end of a residual block: the identity branch, the in-place sum
    into [out], and the final activation [fin]. *)
Lemma residual_tail hp h ds x xv out ov hc g (fin : loc → M T loc)
    (act : T → result T) :
  leaves_in (Downsample_leaves ds) (length hp) → keeps (length hp) hp h →
  h !! x = Some xv →
  keeps (length h) h hc → length h ≤ out → hc !! out = Some ov →
  (∀ hc' y v, keeps (length h) h hc' → length h ≤ y → hc' !! y = Some v →
     ∃ h', keeps (length h) h h'
           ∧ yields (fin y (State hc' g)) (length h) h' g (act v)) →
  ∃ h', keeps (length h) h h'
        ∧ yields
            ((identity <- match ds with
                          | Some d => Downsample_forward d x
                          | None => ret x
                          end ;;
              out <- iadd out identity ;;
              fin out) (State hc g))
            (length h) h' g
            (rbind (block_identity hp ds xv) (λ i, rbind (add ov i) act)).
Proof.
  intros Hds Kp Hx K Hout Hov Hfin.
  pose proof (lookup_lt_Some _ _ _ Hx) as Hxlt.
  pose proof (lookup_lt_Some _ _ _ Hov) as Holt.
  pose proof (keeps_lookup _ _ _ _ _ K Hxlt Hx) as Hxc.
  assert (Htail : ∀ hc' idn iv, keeps (length h) h hc' → hc' !! out = Some ov →
            hc' !! idn = Some iv →
            ∃ h', keeps (length h) h h'
                  ∧ yields ((out <- iadd out idn ;; fin out) (State hc' g))
                      (length h) h' g (rbind (add ov iv) act)).
  { intros hc' idn iv K' Ho Hi.
    destruct (iadd_step h out idn hc' g ov iv K' Hout Ho Hi) as (h6 & K6 & Y6).
    eapply (yields_step _ _ _ _ _ _ _ _ _ (keeps (length h) h)); [exact Y6|done|].
    intros y6 v6 _ Hy6 Hv6. by apply Hfin. }
  destruct ds as [d|]; cbn [block_identity].
  - destruct (Downsample_step hp h d x hc g xv Hds Kp K Hxc) as (h6 & [K6 K6'] & Y6).
    eapply (yields_step _ _ _ _ _ _ _ _ _ (keeps (length h) h)); [exact Y6|done|].
    intros yi vi _ Hyi Hvi. apply Htail; [done| |done].
    by apply (keeps_lookup _ _ _ _ _ K6' Holt).
  - cbn [rbind]. unfold bind at 1, ret at 1. by apply Htail.
Qed.

Lemma BasicBlock_forward_run hp b x h g xv :
  Block_in (IsBasicBlock b) (length hp) → keeps (length hp) hp h →
  h !! x = Some xv →
  ∃ h', keeps (length h) h h'
        ∧ yields (BasicBlock_forward b x (State h g)) (length h) h' g
            (BasicBlock_apply hp b xv).
Proof.
  intros Hb Kp Hx. unfold Block_in in Hb. cbn [Block_leaves] in Hb.
  assert (Hds : leaves_in (Downsample_leaves (bb_downsample b)) (length hp)).
  { unfold leaves_in in *. by apply Forall_app in Hb as [_ ?]. }
  split_leaves.
  unfold BasicBlock_forward, BasicBlock_apply, skip_connection, BasicBlock_transform.
  unfold mbind, result_bind. rewrite !rbind_assoc.
  pose proof (keeps_refl (length h) h) as K0.
  destruct (Conv2d_step hp h (bb_conv1 b) x h g xv ltac:(done) Kp K0 Hx)
    as (h1 & [K1 K1'] & Y1).
  eapply (yields_step _ _ _ _ _ _ _ _ _ (keeps (length h) h)); [exact Y1|done|].
  intros y1 v1 _ Hy1 Hv1. cbv beta. rewrite ?rbind_assoc.
  destruct (Norm_step hp h (bb_bn1 b) y1 h1 g v1 ltac:(done) ltac:(done) Kp K1 Hv1)
    as (h2 & [K2 K2'] & Y2).
  eapply (yields_step _ _ _ _ _ _ _ _ _ (keeps (length h) h)); [exact Y2|done|].
  intros y2 v2 _ Hy2 Hv2. cbv beta. rewrite ?rbind_assoc.
  assert (Hy2' : length h ≤ y2) by (destruct K1; lia).
  destruct (Act_step h (bb_relu b) y2 h2 g v2 K2 Hy2' Hv2) as (h3 & K3 & Y3).
  eapply (yields_step_pure _ _ _ _ _ _ _ _ _ (keeps (length h) h)); [exact Y3|].
  intros y3 Hy3 Hv3.
  destruct (Conv2d_step hp h (bb_conv2 b) y3 h3 g _ ltac:(done) Kp K3 Hv3)
    as (h4 & [K4 K4'] & Y4).
  eapply (yields_step _ _ _ _ _ _ _ _ _ (keeps (length h) h)); [exact Y4|done|].
  intros y4 v4 _ Hy4 Hv4. cbv beta. rewrite ?rbind_assoc.
  destruct (Norm_step hp h (bb_bn2 b) y4 h4 g v4 ltac:(done) ltac:(done) Kp K4 Hv4)
    as (h5 & [K5 K5'] & Y5).
  eapply (yields_step _ _ _ _ _ _ _ _ _ (keeps (length h) h)); [exact Y5|done|].
  intros y5 v5 _ Hy5 Hv5. cbv beta. rewrite ?rbind_assoc.
  assert (Hy5' : length h ≤ y5) by (destruct K4; lia).
  apply residual_tail; try done.
  intros hc' y v K' Hy Hv. rewrite bind_ret_r. by apply Act_step.
Qed.

Lemma Bottleneck_forward_run hp b x h g xv :
  Block_in (IsBottleneck b) (length hp) → keeps (length hp) hp h →
  h !! x = Some xv →
  ∃ h', keeps (length h) h h'
        ∧ yields (Bottleneck_forward b x (State h g)) (length h) h' g
            (Bottleneck_apply hp b xv).
Proof.
  intros Hb Kp Hx. unfold Block_in in Hb. cbn [Block_leaves] in Hb.
  assert (Hds : leaves_in (Downsample_leaves (bn_downsample b)) (length hp)).
  { unfold leaves_in in *. by apply Forall_app in Hb as [_ ?]. }
  split_leaves.
  unfold Bottleneck_forward, Bottleneck_apply, skip_connection, Bottleneck_transform.
  unfold mbind, result_bind. rewrite !rbind_assoc.
  pose proof (keeps_refl (length h) h) as K0.
  destruct (Conv2d_step hp h (bn_conv1 b) x h g xv ltac:(done) Kp K0 Hx)
    as (h1 & [K1 K1'] & Y1).
  eapply (yields_step _ _ _ _ _ _ _ _ _ (keeps (length h) h)); [exact Y1|done|].
  intros y1 v1 _ Hy1 Hv1. cbv beta. rewrite ?rbind_assoc.
  destruct (Norm_step hp h (bn_bn1 b) y1 h1 g v1 ltac:(done) ltac:(done) Kp K1 Hv1)
    as (h2 & [K2 K2'] & Y2).
  eapply (yields_step _ _ _ _ _ _ _ _ _ (keeps (length h) h)); [exact Y2|done|].
  intros y2 v2 _ Hy2 Hv2. cbv beta. rewrite ?rbind_assoc.
  assert (Hy2' : length h ≤ y2) by (destruct K1; lia).
  destruct (Act_step h (bn_relu b) y2 h2 g v2 K2 Hy2' Hv2) as (h3 & K3 & Y3).
  eapply (yields_step_pure _ _ _ _ _ _ _ _ _ (keeps (length h) h)); [exact Y3|].
  intros y3 Hy3 Hv3.
  destruct (Conv2d_step hp h (bn_conv2 b) y3 h3 g _ ltac:(done) Kp K3 Hv3)
    as (h4 & [K4 K4'] & Y4).
  eapply (yields_step _ _ _ _ _ _ _ _ _ (keeps (length h) h)); [exact Y4|done|].
  intros y4 v4 _ Hy4 Hv4. cbv beta. rewrite ?rbind_assoc.
  destruct (Norm_step hp h (bn_bn2 b) y4 h4 g v4 ltac:(done) ltac:(done) Kp K4 Hv4)
    as (h5 & [K5 K5'] & Y5).
  eapply (yields_step _ _ _ _ _ _ _ _ _ (keeps (length h) h)); [exact Y5|done|].
  intros y5 v5 _ Hy5 Hv5. cbv beta. rewrite ?rbind_assoc.
  assert (Hy5' : length h ≤ y5) by (destruct K4; lia).
  destruct (Act_step h (bn_relu b) y5 h5 g v5 K5 Hy5' Hv5) as (h6 & K6 & Y6).
  eapply (yields_step_pure _ _ _ _ _ _ _ _ _ (keeps (length h) h)); [exact Y6|].
  intros y6 Hy6 Hv6.
  destruct (Conv2d_step hp h (bn_conv3 b) y6 h6 g _ ltac:(done) Kp K6 Hv6)
    as (h7 & [K7 K7'] & Y7).
  eapply (yields_step _ _ _ _ _ _ _ _ _ (keeps (length h) h)); [exact Y7|done|].
  intros y7 v7 _ Hy7 Hv7. cbv beta. rewrite ?rbind_assoc.
  destruct (Norm_step hp h (bn_bn3 b) y7 h7 g v7 ltac:(done) ltac:(done) Kp K7 Hv7)
    as (h8 & [K8 K8'] & Y8).
  eapply (yields_step _ _ _ _ _ _ _ _ _ (keeps (length h) h)); [exact Y8|done|].
  intros y8 v8 _ Hy8 Hv8. cbv beta. rewrite ?rbind_assoc.
  assert (Hy8' : length h ≤ y8) by (destruct K7; lia).
  apply residual_tail; try done.
  intros hc' y v K' Hy Hv.
  destruct (bn_last_activation b) as [a|]; cbn [getattr attr_activation].
  - unfold bind at 1, ret at 1. rewrite bind_ret_r. by apply Act_step.
  - exists hc'. split; [done|]. reflexivity.
Qed.

Lemma BasicBlockID_forward_run hp b x h g xv :
  Block_in (IsBasicBlockID b) (length hp) → keeps (length hp) hp h →
  length hp ≤ x → h !! x = Some xv →
  ∃ h', keeps (length hp) hp h'
        ∧ yields (BasicBlockID_forward b x (State h g)) (length hp) h' g
            (BasicBlockID_apply hp b xv).
Proof.
  intros Hb Kp Hxp Hx. unfold Block_in in Hb. cbn [Block_leaves] in Hb.
  unfold BasicBlockID_forward, BasicBlockID_apply. unfold mbind, result_bind.
  destruct (id_downsample b) as [d|]; cbn [block_identity].
  - destruct (Downsample_step hp h d x h g xv Hb Kp (keeps_refl _ _) Hx)
      as (h1 & [K1 K1'] & Y1).
    eapply (yields_step _ _ _ _ _ _ _ _ _ (keeps (length hp) hp));
      [exact Y1|intros _; eauto using keeps_base|].
    intros y1 v1 _ Hy1 Hv1. rewrite bind_ret_r.
    apply Act_step; [eauto using keeps_base|destruct Kp; lia|done].
  - cbn [rbind]. unfold bind at 1, ret at 1. rewrite bind_ret_r.
    by apply Act_step.
Qed.

Lemma Block_forward_run hp b x h g xv :
  Block_in b (length hp) → keeps (length hp) hp h →
  length hp ≤ x → h !! x = Some xv →
  ∃ h', keeps (length hp) hp h'
        ∧ yields (Block_forward b x (State h g)) (length hp) h' g
            (Block_apply hp b xv).
Proof.
  intros Hb Kp Hxp Hx. destruct b as [b|b|b]; cbn [Block_forward Block_apply].
  - by apply BasicBlockID_forward_run.
  - destruct (BasicBlock_forward_run hp b x h g xv Hb Kp Hx) as (h' & K & Y).
    exists h'. split; [eauto using keeps_base|].
    eapply yields_weaken; [exact Y|destruct Kp; lia].
  - destruct (Bottleneck_forward_run hp b x h g xv Hb Kp Hx) as (h' & K & Y).
    exists h'. split; [eauto using keeps_base|].
    eapply yields_weaken; [exact Y|destruct Kp; lia].
Qed.

Lemma Sequential_forward_run hp bs x h g xv :
  Forall (λ b, Block_in b (length hp)) bs → keeps (length hp) hp h →
  length hp ≤ x → h !! x = Some xv →
  ∃ h', keeps (length hp) hp h'
        ∧ yields (Sequential_forward bs x (State h g)) (length hp) h' g
            (Sequential_apply hp bs xv).
Proof.
  intros Hbs. revert x h xv.
  induction Hbs as [|b bs Hb Hbs IH]; intros x h xv Kp Hxp Hx;
    cbn [Sequential_forward Sequential_apply].
  - exists h. split; [done|]. by exists x.
  - destruct (Block_forward_run hp b x h g xv Hb Kp Hxp Hx) as (h1 & K1 & Y1).
    unfold mbind, result_bind.
    eapply (yields_step _ _ _ _ _ _ _ _ _ (keeps (length hp) hp)); [exact Y1|done|].
    intros y v _ Hy Hv. by apply IH.
Qed.
End ForwardRuns.

(** Decides, on a concrete module and bound, where its leaves live. *)
Ltac solve_leaves_in :=
  unfold ResNet_in, Block_in, leaves_in; cbn;
  repeat match goal with
         | |- Forall _ [] => apply Forall_nil
         | |- Forall _ (_ :: _) => apply Forall_cons
         | |- _ ∧ _ => split
         | |- _ = _ => reflexivity
         | |- _ < _ => lia
         | |- True => exact I
         | |- Forall ?P ?l =>
             let l' := eval vm_compute in l in progress change (Forall P l')
         end.

(** ** [ResNet.forward] against the computation on values *)

Section NetworkRuns.
Context {T : Type} `{Torch T}.
Implicit Types h hc : list T.

Lemma stage_bind h f fv k kv :
  stage h f fv → stage h k kv →
  stage h (λ x, bind (f x) k) (λ v, rbind (fv v) kv).
Proof.
  intros Hf Hk hc g x xv K Hx Hv.
  destruct (Hf hc g x xv K Hx Hv) as (h1 & K1 & Y1).
  eapply (yields_step _ _ _ _ _ _ _ _ _ (keeps (length h) h)); [exact Y1|done|].
  intros y v _ Hy Hyv. by apply Hk.
Qed.

Lemma out_loc_bind_Ok {A} (m : M T A) k s a s' :
  m s = (Ok a, s') → out_loc (bind m k s) = out_loc (k a s').
Proof. intros E. by rewrite (bind_Ok _ _ _ _ _ E). Qed.

Lemma yields_step_out (m : M T loc) (k : loc → M T BackboneOutput) hc g n h1 rv
    (kv : T → result T) N (P : list T → Prop) :
  yields (m (State hc g)) n h1 g rv →
  (is_ok rv = false → P h1) →
  (∀ y v, rv = Ok v → n ≤ y → h1 !! y = Some v →
     ∃ h2, P h2 ∧ yields (out_loc (k y (State h1 g))) N h2 g (kv v)) →
  ∃ h2, P h2 ∧ yields (out_loc (bind m k (State hc g))) N h2 g (rbind rv kv).
Proof.
  intros Y HR HO. destruct rv as [v|e]; cbn in *.
  - destruct Y as (y & E & Hy & Hv).
    destruct (HO y v eq_refl Hy Hv) as (h2 & HP & Y2).
    exists h2. split; [done|]. by rewrite (out_loc_bind_Ok _ _ _ _ _ E).
  - exists h1. split; [by apply HR|]. by rewrite (bind_Raise _ _ _ _ _ Y).
Qed.

Lemma stage_bind_out h f fv k kv :
  stage h f fv → stage_out h k kv →
  stage_out h (λ x, bind (f x) k) (λ v, rbind (fv v) kv).
Proof.
  intros Hf Hk hc g x xv K Hx Hv.
  destruct (Hf hc g x xv K Hx Hv) as (h1 & K1 & Y1).
  eapply (yields_step_out _ _ _ _ _ _ _ _ _ (keeps (length h) h)); [exact Y1|done|].
  intros y v _ Hy Hyv. by apply Hk.
Qed.

Lemma stage_ret h : stage h ret (λ v, Ok v).
Proof. intros hc g x xv K Hx Hv. exists hc. split; [done|]. by exists x. Qed.

(** A primitive applied to a tensor, its result a new tensor. *)
Lemma prim_run (f : T → result T) x hc g xv :
  hc !! x = Some xv →
  ∃ h1, keeps (length hc) hc h1
        ∧ yields ((xv <- read x ;; y <- lift (f xv) ;; alloc y) (State hc g))
            (length hc) h1 g (f xv).
Proof.
  intros Hx. unfold bind at 1. rewrite read_fetch. unfold fetch. rewrite Hx.
  apply alloc_yields.
Qed.

Lemma stage_prim h (f : T → result T) :
  stage h (λ x, xv <- read x ;; y <- lift (f xv) ;; alloc y) f.
Proof.
  intros hc g x xv K Hx Hv.
  destruct (prim_run f x hc g xv Hv) as (h1 & K1 & Y1).
  exists h1. split; [eauto using keeps_base|].
  eapply yields_weaken; [exact Y1|destruct K; lia].
Qed.

Lemma stage_Conv2d h c :
  Forall (λ l, l < length h) (Conv2d_locs c) →
  stage h (Conv2d_forward c) (Conv2d_apply h c).
Proof.
  intros Hc hc g x xv K Hx Hv.
  destruct (Conv2d_step h h c x hc g xv Hc (keeps_refl _ _) K Hv)
    as (h1 & [K1 _] & Y1).
  exists h1. split; [done|]. eapply yields_weaken; [exact Y1|destruct K; lia].
Qed.

Lemma stage_Norm h n :
  Forall (λ l, l < length h) (Norm_locs n) → Norm_is_group n = true →
  stage h (Norm_forward n) (Norm_apply h n).
Proof.
  intros Hn Hg hc g x xv K Hx Hv.
  destruct (Norm_step h h n x hc g xv Hn Hg (keeps_refl _ _) K Hv)
    as (h1 & [K1 _] & Y1).
  exists h1. split; [done|]. eapply yields_weaken; [exact Y1|destruct K; lia].
Qed.

Lemma stage_Act h a : stage h (Act_forward a) (λ v, Ok (Act_apply a v)).
Proof. intros hc g x xv K Hx Hv. by apply Act_step. Qed.

Lemma stage_Sequential h bs :
  Forall (λ b, Block_in b (length h)) bs →
  stage h (Sequential_forward bs) (Sequential_apply h bs).
Proof. intros Hbs hc g x xv K Hx Hv. by apply Sequential_forward_run. Qed.

Lemma stage_optional_layer h l :
  Forall (λ b, Block_in b (length h)) (layer_blocks l) →
  stage h (optional_layer_forward l) (optional_layer_apply h l).
Proof.
  destruct l as [bs|]; cbn; intros Hbs; [by apply stage_Sequential|apply stage_ret].
Qed.

Lemma stage_maxpool h (m : option MaxPool2d) :
  stage h
    (λ x, match m with
          | Some m => MaxPool2d_forward m x
          | None => ret x
          end)
    (λ v, match m with
          | Some m => max_pool2d v (mp_kernel m) (mp_stride m) (mp_padding m)
          | None => Ok v
          end).
Proof.
  destruct m as [m|]; [|apply stage_ret].
  apply (stage_prim h (λ v, max_pool2d v (mp_kernel m) (mp_stride m) (mp_padding m))).
Qed.

Lemma stage_FinalPool h fp :
  leaves_in (FinalPool_leaves (Some fp)) (length h) →
  stage h (FinalPool_forward fp) (FinalPool_apply h fp).
Proof.
  destruct fp as [[oh ow|c]|]; cbn [FinalPool_forward FinalPool_apply]; intros Hfp.
  - apply (stage_prim h (λ v, adaptive_avg_pool2d v oh ow)).
  - apply stage_Conv2d. cbn in Hfp. by split_leaves.
  - apply stage_ret.
Qed.

Lemma stage_flatten_out h (spatial : bool) :
  stage_out h
    (λ x, x <- (if negb spatial then torch_flatten1 x else ret x) ;;
          ret {| encodings := x |})
    (λ v, if negb spatial then flatten1 v else Ok v).
Proof.
  intros hc g x xv K Hx Hv. destruct spatial; cbn [negb].
  - exists hc. split; [done|]. by exists x.
  - destruct (stage_prim h flatten1 hc g x xv K Hx Hv) as (h1 & K1 & Y1).
    exists h1. split; [done|]. unfold torch_flatten1.
    destruct (flatten1 xv) as [v|e]; cbn in *.
    + destruct Y1 as (y & E & Hy & Hyv). exists y.
      by rewrite (out_loc_bind_Ok _ _ _ _ _ E).
    + by rewrite (bind_Raise _ _ _ _ _ Y1).
Qed.

Lemma stage_final h (p : option (option FinalPool)) (spatial : bool) :
  leaves_in (FinalPool_leaves p) (length h) →
  stage_out h
    (λ x, fp <- getattr p ;;
          x <- FinalPool_forward fp x ;;
          x <- (if negb spatial then torch_flatten1 x else ret x) ;;
          ret {| encodings := x |})
    (λ v, rbind (attr_final_pool p)
            (λ fp, rbind (FinalPool_apply h fp v)
                     (λ v, if negb spatial then flatten1 v else Ok v))).
Proof.
  intros Hp. destruct p as [fp|]; cbn [attr_final_pool rbind].
  - apply (stage_bind_out h (FinalPool_forward fp) (FinalPool_apply h fp)).
    + by apply stage_FinalPool.
    + apply stage_flatten_out.
  - intros hc g x xv K Hx Hv. exists hc. by split.
Qed.

Lemma stage_bind_pure_out h f (p : T → T) k kv :
  stage h f (λ v, Ok (p v)) → stage_out h k kv →
  stage_out h (λ x, bind (f x) k) (λ v, kv (p v)).
Proof. intros Hf Hk. by apply (stage_bind_out h f (λ v, Ok (p v)) k kv). Qed.

Lemma leaves_in_blocks bs n :
  leaves_in (concat (map Block_leaves bs)) n → Forall (λ b, Block_in b n) bs.
Proof.
  unfold leaves_in, Block_in. intros Hl.
  induction bs as [|b bs IH]; [constructor|].
  cbn in Hl. apply Forall_app in Hl as [Hb Hbs]. constructor; [done|by apply IH].
Qed.

Lemma ResNet_in_parts net n :
  ResNet_in net n →
  Forall (λ l, l < n) (Conv2d_locs (conv1 net))
  ∧ (Forall (λ l, l < n) (Norm_locs (bn1 net)) ∧ Norm_is_group (bn1 net) = true)
  ∧ Forall (λ b, Block_in b n) (ResNet_blocks net)
  ∧ leaves_in (FinalPool_leaves (final_pool net)) n.
Proof.
  unfold ResNet_in, ResNet_leaves, leaves_in. intros Hn.
  apply Forall_app in Hn as [Hhead Hn]. apply Forall_app in Hn as [Hbs Hfp].
  apply Forall_cons in Hhead as [[Hc _] Hhead].
  apply Forall_cons in Hhead as [Hb _].
  cbn in Hc, Hb. destruct Hb as [Hb Hg].
  split_and!; [done|done|done| |done]. by apply leaves_in_blocks.
Qed.

(** The network after its stem. *)
Lemma ResNet_trunk_stage net h :
  ResNet_in net (length h) →
  stage_out h
    (λ x, x <- match maxpool net with
               | Some m => MaxPool2d_forward m x
               | None => ret x
               end ;;
          x <- Sequential_forward (layer1 net) x ;;
          x <- optional_layer_forward (layer2 net) x ;;
          x <- optional_layer_forward (layer3 net) x ;;
          x <- optional_layer_forward (layer4 net) x ;;
          fp <- getattr (final_pool net) ;;
          x <- FinalPool_forward fp x ;;
          x <- (if negb (spatial_output net) then torch_flatten1 x else ret x) ;;
          ret {| encodings := x |})
    (ResNet_trunk_apply h net).
Proof.
  intros Hnet. destruct (ResNet_in_parts _ _ Hnet) as (Hc & [Hb Hg] & Hbs & Hfp).
  unfold ResNet_blocks in Hbs.
  apply Forall_app in Hbs as [H1 Hbs]. apply Forall_app in Hbs as [H2 Hbs].
  apply Forall_app in Hbs as [H3 H4].
  unfold ResNet_trunk_apply, mbind, result_bind.
  eapply stage_bind_out; [apply stage_maxpool|].
  eapply stage_bind_out; [by apply stage_Sequential|].
  eapply stage_bind_out; [by apply stage_optional_layer|].
  eapply stage_bind_out; [by apply stage_optional_layer|].
  eapply stage_bind_out; [by apply stage_optional_layer|].
  by apply stage_final.
Qed.

(** The network from its first normalisation on. *)
Lemma ResNet_tail_stage net h :
  ResNet_in net (length h) →
  stage_out h
    (λ x, x <- Norm_forward (bn1 net) x ;;
          x <- Act_forward (relu_ net) x ;;
          x <- match maxpool net with
               | Some m => MaxPool2d_forward m x
               | None => ret x
               end ;;
          x <- Sequential_forward (layer1 net) x ;;
          x <- optional_layer_forward (layer2 net) x ;;
          x <- optional_layer_forward (layer3 net) x ;;
          x <- optional_layer_forward (layer4 net) x ;;
          fp <- getattr (final_pool net) ;;
          x <- FinalPool_forward fp x ;;
          x <- (if negb (spatial_output net) then torch_flatten1 x else ret x) ;;
          ret {| encodings := x |})
    (λ v, rbind (Norm_apply h (bn1 net) v)
            (λ x, ResNet_trunk_apply h net (Act_apply (relu_ net) x))).
Proof.
  intros Hnet. destruct (ResNet_in_parts _ _ Hnet) as (Hc & [Hb Hg] & Hbs & Hfp).
  apply (stage_bind_out h (Norm_forward (bn1 net)) (Norm_apply h (bn1 net)));
    [by apply stage_Norm|].
  exact (stage_bind_pure_out h (Act_forward (relu_ net)) (Act_apply (relu_ net))
           _ _ (stage_Act h (relu_ net)) (ResNet_trunk_stage net h Hnet)).
Qed.

Lemma ResNet_forward_run net x h g xv :
  ResNet_in net (length h) → h !! x = Some xv →
  ∃ h', keeps (length h) h h'
        ∧ yields (out_loc (ResNet_forward net x (State h g))) (length h) h' g
            (ResNet_apply h net xv).
Proof.
  intros Hnet Hx. destruct (ResNet_in_parts _ _ Hnet) as (Hc & _).
  pose proof (ResNet_tail_stage net h Hnet) as Htail.
  pose proof (keeps_refl (length h) h) as K0.
  assert (Hconv : ∀ hc y v, keeps (length h) h hc → hc !! y = Some v →
    ∃ h', keeps (length h) h h'
          ∧ yields (out_loc
              ((x <- Conv2d_forward (conv1 net) y ;;
                x <- Norm_forward (bn1 net) x ;;
                x <- Act_forward (relu_ net) x ;;
                x <- match maxpool net with
                     | Some m => MaxPool2d_forward m x
                     | None => ret x
                     end ;;
                x <- Sequential_forward (layer1 net) x ;;
                x <- optional_layer_forward (layer2 net) x ;;
                x <- optional_layer_forward (layer3 net) x ;;
                x <- optional_layer_forward (layer4 net) x ;;
                fp <- getattr (final_pool net) ;;
                x <- FinalPool_forward fp x ;;
                x <- (if negb (spatial_output net) then torch_flatten1 x else ret x) ;;
                ret {| encodings := x |}) (State hc g)))
              (length h) h' g
              (rbind (Conv2d_apply h (conv1 net) v)
                 (λ x, rbind (Norm_apply h (bn1 net) x)
                         (λ x, ResNet_trunk_apply h net (Act_apply (relu_ net) x))))).
  { intros hc y v K Hv.
    destruct (Conv2d_step h h (conv1 net) y hc g v Hc K0 K Hv) as (h1 & [K1 _] & Y1).
    eapply (yields_step_out _ _ _ _ _ _ _ _ _ (keeps (length h) h)); [exact Y1|done|].
    intros y1 v1 _ Hy1 Hv1. apply Htail; [done|destruct K; lia|done]. }
  unfold ResNet_forward, ResNet_apply, mbind, result_bind.
  destruct (padding net) as [p|].
  - destruct (prim_run (λ v, constant_pad2d v p) x h g xv Hx) as (h1 & K1 & Y1).
    eapply (yields_step_out _ _ _ _ _ _ _ _ _ (keeps (length h) h)); [exact Y1|done|].
    intros y1 v1 _ Hy1 Hv1. by apply Hconv.
  - cbn [rbind]. unfold bind at 1, ret at 1. by apply Hconv.
Qed.
End NetworkRuns.

(** ** What the constructors build

    Whatever a constructor returns keeps its parameters in the heap it
    leaves behind; the normalisation layers are [GroupNorm]s when that is
    the [norm_layer] in use. *)

Section Built.
Context {T : Type} `{Torch T}.

Lemma bind_Ok_inv {A B} (m : M T A) (k : A → M T B) s b s' :
  bind m k s = (Ok b, s') → ∃ a s1, m s = (Ok a, s1) ∧ k a s1 = (Ok b, s').
Proof.
  unfold bind. destruct (m s) as [[a|e] s1]; [eauto|discriminate].
Qed.

Lemma leaves_in_mono ms n n' : leaves_in ms n → n ≤ n' → leaves_in ms n'.
Proof.
  unfold leaves_in. intros Hm Hn. eapply Forall_impl; [exact Hm|].
  intros m [Hl Hg]. split; [|done].
  eapply Forall_impl; [exact Hl|]. cbn. intros; lia.
Qed.

Lemma Block_in_mono b n n' : Block_in b n → n ≤ n' → Block_in b n'.
Proof. apply leaves_in_mono. Qed.

Lemma blocks_in_mono bs n n' :
  Forall (λ b, Block_in b n) bs → n ≤ n' → Forall (λ b, Block_in b n') bs.
Proof.
  intros Hbs Hn. eapply Forall_impl; [exact Hbs|].
  intros b Hb. eapply Block_in_mono; [exact Hb|exact Hn].
Qed.

Lemma new_Conv2d_built cin cout k st p d g wb (s : state T) c s' :
  new_Conv2d cin cout k st p d g wb s = (Ok c, s') →
  length (heap s) ≤ length (heap s')
  ∧ Forall (λ l, l < length (heap s')) (Conv2d_locs c).
Proof.
  unfold new_Conv2d. repeat case_match; try discriminate.
  all: unfold bind, new_param, draw, alloc, ret; cbn.
  all: intros [= <- <-]; cbn; rewrite ?length_app; cbn.
  all: split; [lia|]. all: unfold Conv2d_locs; cbn.
  all: repeat first [apply Forall_nil_2 | apply Forall_cons_2]; lia.
Qed.

Lemma call_norm_layer_built G C (s : state T) n s' :
  call_norm_layer nn_GroupNorm G C s = (Ok n, s') →
  length (heap s) ≤ length (heap s')
  ∧ Forall (λ l, l < length (heap s')) (Norm_locs n) ∧ Norm_is_group n = true.
Proof.
  cbn [call_norm_layer]. unfold new_GroupNorm. repeat case_match; try discriminate.
  unfold bind, alloc, ret; cbn. intros [= <- <-]; cbn. rewrite !length_app; cbn.
  split_and!; [lia| |done].
  repeat first [apply Forall_nil_2 | apply Forall_cons_2]; lia.
Qed.

Lemma index_Ok_inv {A} (xs : list A) i (s : state T) v s' :
  index xs i s = (Ok v, s') → xs !! i = Some v ∧ s' = s.
Proof.
  unfold index. destruct (xs !! i); [|discriminate].
  unfold ret. by intros [= <- <-].
Qed.
End Built.

(** Inverts a successful run of a chain of [bind]s into its steps. *)
Ltac inv_run E :=
  repeat match type of E with
  | bind _ _ _ = (Ok _, _) =>
      let a := fresh "a" in let s := fresh "s" in let E1 := fresh "E" in
      apply bind_Ok_inv in E as (a & s & E1 & E)
  | (if ?c then _ else _) _ = (Ok _, _) =>
      let Hc := fresh "Hc" in destruct c eqn:Hc; try discriminate E
  | (let _ := _ in _) _ = _ => cbv zeta in E
  end.

Ltac built_facts :=
  repeat match goal with
  | E : new_Conv2d _ _ _ _ _ _ _ _ _ = (Ok _, _) |- _ =>
      apply new_Conv2d_built in E as [? ?]
  | E : call_norm_layer nn_GroupNorm _ _ _ = (Ok _, _) |- _ =>
      apply call_norm_layer_built in E as (? & ? & ?)
  end.

Ltac solve_bound :=
  match goal with
  | Hl : Forall (λ l, l < ?n) ?ls |- Forall (λ l, l < ?m) ?ls =>
      eapply Forall_impl; [exact Hl|cbn; intros; lia]
  end.

Ltac index_facts :=
  repeat match goal with
  | E : index _ _ _ = (Ok _, _) |- _ =>
      let Hi := fresh "Hi" in apply index_Ok_inv in E as [Hi ->]
  end.

Section BuiltNetwork.
Context {T : Type} `{Torch T}.

Lemma BasicBlock_init_built inpl pl st ds g bw dil la (s : state T) b s' :
  leaves_in (Downsample_leaves ds) (length (heap s)) →
  BasicBlock_init inpl pl st ds g bw dil (Some nn_GroupNorm) la s = (Ok b, s') →
  length (heap s) ≤ length (heap s') ∧ Block_in (IsBasicBlock b) (length (heap s')).
Proof.
  intros Hds E. unfold BasicBlock_init, super_init, conv3x3 in E.
  rewrite decide_True in E by done.
  change (default nn_BatchNorm2d (Some nn_GroupNorm)) with nn_GroupNorm in E.
  inv_run E. unfold ret in E, E0. simplify_eq. built_facts.
  split; [lia|]. unfold Block_in, leaves_in. cbn.
  repeat apply Forall_cons_2; try (split; [solve_bound|done]).
  eapply leaves_in_mono; [exact Hds|lia].
Qed.

Lemma Bottleneck_init_built inpl pl st ds g bw dil la (s : state T) b s' :
  leaves_in (Downsample_leaves ds) (length (heap s)) →
  Bottleneck_init inpl pl st ds g bw dil (Some nn_GroupNorm) la s = (Ok b, s') →
  length (heap s) ≤ length (heap s') ∧ Block_in (IsBottleneck b) (length (heap s')).
Proof.
  intros Hds E. unfold Bottleneck_init, super_init, conv3x3, conv1x1 in E.
  rewrite decide_True in E by done.
  change (default nn_BatchNorm2d (Some nn_GroupNorm)) with nn_GroupNorm in E.
  inv_run E. unfold ret in E, E0. simplify_eq. built_facts.
  split; [lia|]. unfold Block_in, leaves_in. cbn.
  repeat apply Forall_cons_2; try (split; [solve_bound|done]).
  eapply leaves_in_mono; [exact Hds|lia].
Qed.

Lemma block_init_built c inpl pl st ds g bw dil la (s : state T) b s' :
  leaves_in (Downsample_leaves ds) (length (heap s)) →
  block_init c inpl pl st ds g bw dil (Some nn_GroupNorm) la s = (Ok b, s') →
  length (heap s) ≤ length (heap s') ∧ Block_in b (length (heap s')).
Proof.
  intros Hds E. destruct c; cbn [block_init] in E; inv_run E;
    unfold ret in E; simplify_eq.
  - by eapply BasicBlock_init_built.
  - by eapply Bottleneck_init_built.
Qed.

Lemma make_rest_built self c pl blocks la idx (s : state T) bs s' :
  mk_norm_layer self = nn_GroupNorm →
  make_rest self c pl blocks la idx s = (Ok bs, s') →
  length (heap s) ≤ length (heap s')
  ∧ Forall (λ b, Block_in b (length (heap s'))) bs.
Proof.
  intros Hn. revert s bs s'.
  induction idx as [|i idx IH]; intros s bs s' E; cbn [make_rest] in E.
  - unfold ret in E. simplify_eq. split; [done|constructor].
  - rewrite Hn in E. inv_run E. unfold ret in E. simplify_eq.
    apply block_init_built in E0 as [L0 B0]; [|constructor].
    apply IH in E1 as [L1 B1]. split; [lia|].
    constructor; [|done]. eapply Block_in_mono; [exact B0|lia].
Qed.

Lemma _make_layer_built self c pl blocks st dilate la (s : state T) r s' :
  mk_norm_layer self = nn_GroupNorm →
  _make_layer self c pl blocks st dilate la s = (Ok r, s') →
  length (heap s) ≤ length (heap s')
  ∧ Forall (λ b, Block_in b (length (heap s'))) r.1
  ∧ mk_norm_layer r.2 = nn_GroupNorm.
Proof.
  intros Hn E. unfold _make_layer in E. cbv zeta in E. rewrite Hn in E.
  inv_run E. unfold ret in E. simplify_eq. cbn [fst snd].
  apply make_rest_built in E2 as [L2 B2]; [|by destruct dilate].
  assert (Hds : length (heap s) ≤ length (heap s0)
                ∧ leaves_in (Downsample_leaves a) (length (heap s0))).
  { destruct (negb _ || negb _) in E0.
    - unfold conv1x1 in E0. inv_run E0. unfold ret in E0. simplify_eq.
      built_facts. split; [lia|]. unfold leaves_in. cbn.
      repeat apply Forall_cons_2; try (split; [solve_bound|done]). constructor.
    - unfold ret in E0. simplify_eq. split; [done|constructor]. }
  destruct Hds as [L0 Hds].
  apply block_init_built in E1 as [L1 B1]; [|done].
  split_and!; [lia| |by destruct dilate].
  constructor; [|done]. eapply Block_in_mono; [exact B1|lia].
Qed.

Lemma make_optional_layer_built present self a rswd i la nof (s : state T) r s' :
  mk_norm_layer self = nn_GroupNorm →
  make_optional_layer present self a rswd i la nof s = (Ok r, s') →
  length (heap s) ≤ length (heap s')
  ∧ Forall (λ b, Block_in b (length (heap s'))) (layer_blocks r.1.1)
  ∧ mk_norm_layer r.1.2 = nn_GroupNorm.
Proof.
  intros Hn E. unfold make_optional_layer in E. destruct present.
  - inv_run E. unfold ret in E. simplify_eq. cbn. index_facts.
    match goal with
    | E : _make_layer _ _ _ _ _ _ _ _ = _ |- _ => by apply _make_layer_built in E
    end.
  - unfold ret in E. simplify_eq. cbn. split_and!; [done|constructor|done].
Qed.

(** Initialisation overwrites tensors in place. *)
Lemma write_length l (v : T) (s : state T) s' :
  write l v s = (Ok tt, s') → length (heap s') = length (heap s).
Proof.
  unfold write. destruct (heap s !! l); [|discriminate].
  intros [= <-]. cbn. apply length_insert.
Qed.

Lemma kaiming_normal__length w (s : state T) s' :
  kaiming_normal_ w s = (Ok tt, s') → length (heap s') = length (heap s).
Proof.
  unfold kaiming_normal_, read, draw, bind. destruct (heap s !! w); [|discriminate].
  cbn. intros E. by apply write_length in E.
Qed.

Lemma constant__length w c (s : state T) s' :
  constant_ w c s = (Ok tt, s') → length (heap s') = length (heap s).
Proof.
  unfold constant_, read, bind. destruct (heap s !! w); [|discriminate].
  intros E. by apply write_length in E.
Qed.

Lemma for_each_length {A} (f : A → M T unit) xs :
  (∀ x s s', f x s = (Ok tt, s') → length (heap s') = length (heap s)) →
  ∀ s s', for_each f xs s = (Ok tt, s') → length (heap s') = length (heap s).
Proof.
  intros Hf. induction xs as [|x xs IH]; intros s s' E; cbn [for_each] in E.
  - unfold ret in E. by simplify_eq.
  - inv_run E. destruct a. apply Hf in E0. apply IH in E. lia.
Qed.

Lemma init_leaf_length m (s : state T) s' :
  init_leaf m s = (Ok tt, s') → length (heap s') = length (heap s).
Proof.
  destruct m; cbn [init_leaf]; intros E.
  - by apply kaiming_normal__length in E.
  - inv_run E. destruct a. apply constant__length in E0, E. lia.
Qed.

Lemma zero_init_block_length m (s : state T) s' :
  zero_init_block m s = (Ok tt, s') → length (heap s') = length (heap s).
Proof.
  destruct m; cbn [zero_init_block]; intros E.
  - unfold ret in E. by simplify_eq.
  - by apply constant__length in E.
  - by apply constant__length in E.
Qed.

Lemma blocks_leaves_in bs n :
  Forall (λ b, Block_in b n) bs → leaves_in (concat (map Block_leaves bs)) n.
Proof.
  unfold leaves_in, Block_in. induction 1 as [|b bs Hb Hbs IH]; cbn; [constructor|].
  apply Forall_app. by split.
Qed.

Lemma final_pool_built (ty : string) nof fof (s : state T) p s' :
  (if String.eqb ty "avg_pool"
   then ret (Some (Some (AdaptiveAvgPool2d 1 1)))
   else if String.eqb ty "1x1_pool"
   then c <- new_Conv2d nof fof 1 1 0 1 1 true ;; ret (Some (Some (PoolConv c)))
   else if String.eqb ty "id" then ret (Some None) else ret None) s = (Ok p, s') →
  length (heap s) ≤ length (heap s')
  ∧ leaves_in (FinalPool_leaves p) (length (heap s')).
Proof.
  intros E. repeat case_match; inv_run E; unfold ret in E; simplify_eq;
    try (split; [done|constructor]).
  built_facts. split; [done|]. unfold leaves_in. cbn.
  repeat apply Forall_cons_2; try (split; [solve_bound|done]). constructor.
Qed.

Lemma final_ln_built (fl : bool) (filters : list nat) (s : state T) l s' :
  (if fl then n <- index_last filters ;; new_LayerNorm n else ret LnIdentity) s
  = (Ok l, s') →
  length (heap s) ≤ length (heap s').
Proof.
  destruct fl; intros E.
  - inv_run E. unfold index_last in E0. destruct (last filters); [|discriminate].
    unfold ret in E0. simplify_eq.
    unfold new_LayerNorm, bind, alloc, ret in E. cbn in E. simplify_eq. cbn.
    rewrite !length_app. lia.
  - unfold ret in E. by simplify_eq.
Qed.

Lemma ResNet_init_built a (s : state T) net s' :
  a_norm_layer a ≠ Some nn_BatchNorm2d →
  ResNet_init a s = (Ok net, s') →
  length (heap s) ≤ length (heap s') ∧ ResNet_in net (length (heap s')).
Proof.
  intros Hn E. unfold ResNet_init in E. cbv zeta in E.
  assert (Hk : default nn_GroupNorm (a_norm_layer a) = nn_GroupNorm).
  { destruct (a_norm_layer a) as [[|]|]; done. }
  rewrite Hk in E.
  inv_run E. index_facts. built_facts.
  apply _make_layer_built in E6 as (L6 & B6 & N6); [|done].
  apply make_optional_layer_built in E7 as (L7 & B7 & N7); [|done].
  apply make_optional_layer_built in E8 as (L8 & B8 & N8); [|done].
  apply make_optional_layer_built in E9 as (L9 & B9 & N9); [|done].
  apply final_pool_built in E10 as [L10 B10].
  apply final_ln_built in E11.
  destruct a12, a13.
  apply (for_each_length _ _ init_leaf_length) in E12.
  assert (L13 : length (heap s13) = length (heap s12)).
  { destruct (a_zero_init_residual a).
    - by apply (for_each_length _ _ zero_init_block_length) in E13.
    - unfold ret in E13. by simplify_eq. }
  unfold ret in E. simplify_eq. split; [lia|].
  unfold ResNet_in, ResNet_leaves, ResNet_blocks. cbn.
  repeat apply Forall_cons_2; try (split; [solve_bound|done]).
  apply Forall_app. split.
  - apply blocks_leaves_in. rewrite !Forall_app. split_and!.
    all: eapply blocks_in_mono; [eassumption|lia].
  - eapply leaves_in_mono; [exact B10|lia].
Qed.
End BuiltNetwork.

(** ** The computation reads the parameters only *)

Section Agreement.
Context {T : Type} `{Torch T}.
Implicit Types h : list T.

Lemma rbind_ext {A B} (r : result A) (f g : A → result B) :
  (∀ a, f a = g a) → rbind r f = rbind r g.
Proof. intros Hfg. destruct r; cbn; [apply Hfg|done]. Qed.

Lemma Conv2d_apply_agree h h' c xv :
  Forall (λ l, h !! l = h' !! l) (Conv2d_locs c) →
  Conv2d_apply h c xv = Conv2d_apply h' c xv.
Proof.
  unfold Conv2d_locs, Conv2d_apply, fetch_opt, fetch.
  intros Hc. apply Forall_cons in Hc as [Hw Hb]. rewrite Hw.
  destruct (conv_bias c) as [b|]; cbn in *; [|done].
  apply Forall_cons in Hb as [Hb _]. by rewrite Hb.
Qed.

Lemma Norm_apply_agree h h' n xv :
  Forall (λ l, h !! l = h' !! l) (Norm_locs n) →
  Norm_apply h n xv = Norm_apply h' n xv.
Proof.
  destruct n as [G C w b|]; cbn; [|done]. unfold fetch.
  intros Hn. apply Forall_cons in Hn as [Hw Hb].
  apply Forall_cons in Hb as [Hb _]. by rewrite Hw, Hb.
Qed.

Lemma block_identity_agree h h' ds xv :
  leaves_agree (Downsample_leaves ds) h h' →
  block_identity h ds xv = block_identity h' ds xv.
Proof.
  destruct ds as [d|]; cbn; [|done]. unfold leaves_agree, Downsample_apply.
  intros Hd. apply Forall_cons in Hd as [Hc Hd]. apply Forall_cons in Hd as [Hn _].
  cbn in Hc, Hn. rewrite (Conv2d_apply_agree h h') by done.
  apply rbind_ext. intros y. by apply Norm_apply_agree.
Qed.

Lemma Block_apply_agree h h' b xv :
  leaves_agree (Block_leaves b) h h' → Block_apply h b xv = Block_apply h' b xv.
Proof.
  unfold leaves_agree. destruct b as [b|b|b]; cbn [Block_leaves Block_apply]; intros Hb.
  - unfold BasicBlockID_apply. by rewrite (block_identity_agree h h').
  - apply Forall_app in Hb as [Hb Hds].
    repeat (apply Forall_cons in Hb as [? Hb]). cbn [leaf_locs] in *.
    unfold BasicBlock_apply, skip_connection, BasicBlock_transform.
    unfold mbind, result_bind. rewrite !rbind_assoc.
    rewrite (Conv2d_apply_agree h h') by done.
    apply rbind_ext; intros y1. rewrite !rbind_assoc.
    rewrite (Norm_apply_agree h h') by done.
    apply rbind_ext; intros y2. rewrite !rbind_assoc.
    rewrite (Conv2d_apply_agree h h') by done.
    apply rbind_ext; intros y3.
    rewrite (Norm_apply_agree h h') by done.
    apply rbind_ext; intros y4.
    by rewrite (block_identity_agree h h').
  - apply Forall_app in Hb as [Hb Hds].
    repeat (apply Forall_cons in Hb as [? Hb]). cbn [leaf_locs] in *.
    unfold Bottleneck_apply, skip_connection, Bottleneck_transform.
    unfold mbind, result_bind. rewrite !rbind_assoc.
    rewrite (Conv2d_apply_agree h h') by done.
    apply rbind_ext; intros y1. rewrite !rbind_assoc.
    rewrite (Norm_apply_agree h h') by done.
    apply rbind_ext; intros y2. rewrite !rbind_assoc.
    rewrite (Conv2d_apply_agree h h') by done.
    apply rbind_ext; intros y3. rewrite !rbind_assoc.
    rewrite (Norm_apply_agree h h') by done.
    apply rbind_ext; intros y4. rewrite !rbind_assoc.
    rewrite (Conv2d_apply_agree h h') by done.
    apply rbind_ext; intros y5.
    rewrite (Norm_apply_agree h h') by done.
    apply rbind_ext; intros y6.
    by rewrite (block_identity_agree h h').
Qed.

Lemma Sequential_apply_agree h h' bs xv :
  leaves_agree (concat (map Block_leaves bs)) h h' →
  Sequential_apply h bs xv = Sequential_apply h' bs xv.
Proof.
  unfold leaves_agree. revert xv.
  induction bs as [|b bs IH]; intros xv Hbs; cbn; [done|].
  cbn in Hbs. apply Forall_app in Hbs as [Hb Hbs].
  rewrite (Block_apply_agree h h') by done.
  apply rbind_ext. intros y. by apply IH.
Qed.

Lemma optional_layer_apply_agree h h' l xv :
  leaves_agree (concat (map Block_leaves (layer_blocks l))) h h' →
  optional_layer_apply h l xv = optional_layer_apply h' l xv.
Proof. destruct l as [bs|]; cbn; [apply Sequential_apply_agree|done]. Qed.

Lemma FinalPool_apply_agree h h' fp xv :
  leaves_agree (FinalPool_leaves (Some fp)) h h' →
  FinalPool_apply h fp xv = FinalPool_apply h' fp xv.
Proof.
  destruct fp as [[oh ow|c]|]; cbn; try done. unfold leaves_agree.
  intros Hc. apply Forall_cons in Hc as [Hc _]. by apply Conv2d_apply_agree.
Qed.

Lemma ResNet_apply_agree h h' net net' xv :
  same_layers net net' → leaves_agree (ResNet_leaves net) h h' →
  ResNet_apply h net xv = ResNet_apply h' net' xv.
Proof.
  intros (Ep & Ec & Eb & Er & Em & E1 & E2 & E3 & E4 & Ef & Es) Hl.
  unfold ResNet_apply, ResNet_trunk_apply.
  rewrite <- Ep, <- Ec, <- Eb, <- Er, <- Em, <- E1, <- E2, <- E3, <- E4, <- Ef, <- Es.
  unfold leaves_agree, ResNet_leaves, ResNet_blocks in Hl.
  apply Forall_app in Hl as [Hhead Hl]. apply Forall_app in Hl as [Hbs Hfp].
  apply Forall_cons in Hhead as [Hc Hhead]. apply Forall_cons in Hhead as [Hb _].
  cbn [leaf_locs] in Hc, Hb.
  rewrite !map_app, !concat_app in Hbs.
  apply Forall_app in Hbs as [H1 Hbs]. apply Forall_app in Hbs as [H2 Hbs].
  apply Forall_app in Hbs as [H3 H4].
  unfold mbind, result_bind.
  apply rbind_ext; intros x0.
  rewrite (Conv2d_apply_agree h h') by done. apply rbind_ext; intros x1.
  rewrite (Norm_apply_agree h h') by done. apply rbind_ext; intros x2.
  apply rbind_ext; intros x3.
  rewrite (Sequential_apply_agree h h') by done. apply rbind_ext; intros x4.
  rewrite (optional_layer_apply_agree h h') by done. apply rbind_ext; intros x5.
  rewrite (optional_layer_apply_agree h h') by done. apply rbind_ext; intros x6.
  rewrite (optional_layer_apply_agree h h') by done. apply rbind_ext; intros x7.
  destruct (final_pool net) as [fp|]; cbn [attr_final_pool rbind]; [|done].
  by rewrite (FinalPool_apply_agree h h').
Qed.
End Agreement.

(** ** Frame and determinism of [ResNet.forward] *)

Section ForwardFacts.
Context {T : Type} `{Torch T}.

Lemma out_loc_Ok_inv (r : result BackboneOutput * state T) y s' :
  out_loc r = (Ok y, s') → ∃ o, r = (Ok o, s') ∧ encodings o = y.
Proof.
  destruct r as [[o|e] s1]; unfold out_loc; cbn; intros [= <- <-]; eauto.
Qed.

Lemma out_loc_Raise_inv (r : result BackboneOutput * state T) e s' :
  out_loc r = (Raise e, s') → r = (Raise e, s').
Proof.
  destruct r as [[o|e1] s1]; unfold out_loc; cbn; intros [= <- <-]; eauto.
Qed.

(** A network whose parameters live in the heap leaves the heap it was
    given, and the generator, as they were. *)
Lemma ResNet_forward_extends net x (s : state T) xv :
  ResNet_in net (length (heap s)) → heap s !! x = Some xv →
  gen (ResNet_forward net x s).2 = gen s
  ∧ keeps (length (heap s)) (heap s) (heap (ResNet_forward net x s).2).
Proof.
  destruct s as [h g]. cbn [heap gen]. intros Hnet Hx.
  destruct (ResNet_forward_run net x h g xv Hnet Hx) as (h' & K & Y).
  destruct (ResNet_apply h net xv) as [v|e]; cbn in Y.
  - destruct Y as (y & E & _). apply out_loc_Ok_inv in E as (o & -> & _). done.
  - apply out_loc_Raise_inv in Y as ->. done.
Qed.

Lemma ResNet_forward_same net net' x x' (s t : state T) xv :
  ResNet_in net (length (heap s)) → ResNet_in net' (length (heap t)) →
  same_layers net net' → leaves_agree (ResNet_leaves net) (heap s) (heap t) →
  heap s !! x = Some xv → heap t !! x' = Some xv →
  same_outcome (ResNet_forward net x s) (ResNet_forward net' x' t).
Proof.
  destruct s as [h g], t as [h2 g2]. cbn [heap gen].
  intros Hnet Hnet' Hsame Hagree Hx Hx'.
  destruct (ResNet_forward_run net x h g xv Hnet Hx) as (h' & K & Y).
  destruct (ResNet_forward_run net' x' h2 g2 xv Hnet' Hx') as (h2' & K2 & Y2).
  rewrite <- (ResNet_apply_agree h h2 net net' xv Hsame Hagree) in Y2.
  unfold same_outcome.
  destruct (ResNet_apply h net xv) as [v|e]; cbn in Y, Y2.
  - destruct Y as (y & E & _ & Hv), Y2 as (y2 & E2 & _ & Hv2).
    apply out_loc_Ok_inv in E as (o & -> & <-).
    apply out_loc_Ok_inv in E2 as (o2 & -> & <-). cbn. eauto.
  - apply out_loc_Raise_inv in Y as ->. apply out_loc_Raise_inv in Y2 as ->. done.
Qed.
End ForwardFacts.

(** ** Skip connections *)

Section SkipProofs.
Context {T : Type} `{Torch T}.

Lemma outcome_step {A B C} (m : M T A) (f f' : A → M T B) (g g' : B → M T C) s :
  (∀ a s1, (bind (f a) g s1).1 = (bind (f' a) g' s1).1) →
  (bind (bind m f) g s).1 = (bind (bind m f') g' s).1.
Proof. intros Hk. unfold bind. destruct (m s) as [[a|e] s1]; [apply Hk|done]. Qed.

Lemma outcome_step_last {A B C} (m : M T A) (f : A → M T B) (g : B → M T C) k s :
  (∀ a s1, (bind (f a) g s1).1 = (k a s1).1) →
  (bind (bind m f) g s).1 = (bind m k s).1.
Proof. intros Hk. unfold bind. destruct (m s) as [[a|e] s1]; [apply Hk|done]. Qed.

(** The in-place sum followed by the activation module leaves, at the
    location returned, the activation of the sum of the two values. *)
Lemma sum_then_activation (a : Act) out idn (s : state T) :
  (value_of (o <- iadd out idn ;; o <- Act_forward a o ;; ret o) s).1
  = ((tv <- read out ;; iv <- read idn ;; sum <- lift (add tv iv) ;;
      lift (Ok (Act_apply a sum))) s).1.
Proof.
  unfold value_of, iadd, bind, read, lift, write, ret.
  destruct (heap s !! out) as [tv|] eqn:Eo; [|done].
  destruct (heap s !! idn) as [iv|]; [|done].
  destruct (add tv iv) as [sum|e]; [|done]. cbn [heap gen].
  assert (Hlt : out < length (heap s)) by by eapply lookup_lt_Some.
  rewrite Eo. cbn.
  destruct a as [[|]| |]; cbn [Act_forward Act_apply];
    unfold bind, read, write, alloc, ret; cbn;
    repeat (progress (rewrite ?length_insert, ?Nat.sub_diag,
                        ?list_lookup_insert_eq, ?lookup_app_r
                        by (rewrite ?length_insert; lia); cbn));
    done.
Qed.

Lemma sum_then_attr_activation (la : option Act) out idn (s : state T) :
  (value_of (o <- iadd out idn ;; last <- getattr la ;; o <- Act_forward last o ;;
             ret o) s).1
  = ((tv <- read out ;; iv <- read idn ;; sum <- lift (add tv iv) ;;
      lift (attr_activation la sum)) s).1.
Proof.
  destruct la as [a|]; cbn [getattr attr_activation].
  - rewrite <- sum_then_activation. unfold value_of.
    apply outcome_step. intros o s1. reflexivity.
  - unfold value_of, iadd, bind, read, lift, write, ret, raise.
    destruct (heap s !! out) as [tv|] eqn:Eo; [|done].
    destruct (heap s !! idn) as [iv|]; [|done].
    destruct (add tv iv) as [sum|e]; [|done]. cbn [heap gen].
    rewrite Eo. reflexivity.
Qed.

Lemma activation_value (a : Act) idn (s : state T) :
  (value_of (o <- Act_forward a idn ;; ret o) s).1
  = ((iv <- read idn ;; lift (Ok (Act_apply a iv))) s).1.
Proof.
  unfold value_of.
  destruct a as [[|]| |]; cbn [Act_forward Act_apply];
    unfold bind, read, write, alloc, ret, lift;
    destruct (heap s !! idn) as [iv|] eqn:Ei; try done; cbn;
    try (assert (Hlt : idn < length (heap s)) by (by eapply lookup_lt_Some));
    repeat (progress (rewrite ?Ei, ?length_insert, ?Nat.sub_diag,
                        ?list_lookup_insert_eq, ?lookup_app_r
                        by (rewrite ?length_insert; lia); cbn));
    done.
Qed.

Lemma BasicBlock_forward_skip (b : BasicBlock) x (s : state T) :
  (value_of (BasicBlock_forward b x) s).1
  = (skip_connection_run (λ v, Ok (Act_apply (bb_relu b) v))
       (BasicBlock_transform_run b) (identity_run (bb_downsample b)) x s).1.
Proof.
  unfold value_of, BasicBlock_forward, skip_connection_run, BasicBlock_transform_run.
  do 4 (apply outcome_step; intros ? ?).
  apply outcome_step_last; intros out sa.
  unfold identity_run. apply outcome_step_last; intros idn sb.
  apply sum_then_activation.
Qed.

Lemma Bottleneck_forward_skip (b : Bottleneck) x (s : state T) :
  (value_of (Bottleneck_forward b x) s).1
  = (skip_connection_run (attr_activation (bn_last_activation b))
       (Bottleneck_transform_run b) (identity_run (bn_downsample b)) x s).1.
Proof.
  unfold value_of, Bottleneck_forward, skip_connection_run, Bottleneck_transform_run.
  do 7 (apply outcome_step; intros ? ?).
  apply outcome_step_last; intros out sa.
  unfold identity_run. apply outcome_step_last; intros idn sb.
  apply sum_then_attr_activation.
Qed.

Lemma BasicBlockID_forward_identity (b : BasicBlockID) x (s : state T) :
  (value_of (BasicBlockID_forward b x) s).1
  = (identity_connection_run (λ v, Ok (Act_apply (id_relu b) v))
       (identity_run (id_downsample b)) x s).1.
Proof.
  unfold value_of, BasicBlockID_forward, identity_connection_run, identity_run.
  apply outcome_step_last; intros idn sa.
  apply activation_value.
Qed.
End SkipProofs.

(** On symbolic tensors: the output of a normalisation is no sum. *)
Lemma Norm_forward_no_sum n x (s : state sym) y s' :
  Norm_forward n x s = (Ok y, s') →
  ∃ v, heap s' !! y = Some v
       ∧ ∀ a, is_activated_sum (sym_term (Act_apply a v)) = false.
Proof.
  destruct n as [G C w b|F eps w b rm rv nbt]; cbn [Norm_forward]; intros E.
  - inv_run E. unfold lift in *. unfold alloc in E. simplify_eq.
    match goal with
    | Eg : group_norm _ _ _ _ = Ok ?v |- _ =>
        exists v; cbn in Eg; unfold sym_op in Eg;
        destruct (group_norm_shape _ _ _); cbn in Eg; simplify_eq
    end.
    split; [cbn; by rewrite lookup_app_r, Nat.sub_diag|].
    by intros [[|]| |].
  - inv_run E. unfold lift in *. unfold alloc in E. simplify_eq.
    match goal with
    | Eg : batch_norm _ _ _ _ _ _ = Ok ?r |- _ =>
        exists (r.1.1); cbn in Eg; unfold sym_batch_norm in Eg;
        repeat case_match; simplify_eq
    end.
    split; [cbn; by rewrite lookup_app_r, Nat.sub_diag|].
    by intros [[|]| |].
Qed.

(** C3, as amended.  [BasicBlock] and [Bottleneck] implement a skip
    connection, whatever their normalisation layers, the input and the
    state: the tensor that [forward] returns holds the activation of the sum
    of the values of the transformed output and of the identity branch,
    where the identity branch is the downsample module when there is one
    and the input otherwise, and the activation is [relu] for [BasicBlock]
    and the attribute [last_activation] for [Bottleneck]; [forward] raises
    exactly when one of these steps raises, and the same exception.
    [BasicBlockID] has no transformed output and no sum: the tensor that
    its [forward] returns holds the activation of the value of the identity
    branch.  When the normalisation layers are [GroupNorm]s, the
    transformed output and the identity branch are functions of the value
    [xv] of the input and of the parameters in the heap [h], the result is
    a new tensor, and every tensor of [h] is left as it was. *)
Theorem residual_blocks_skip_connection {T : Type} `{Torch T} :
  (∀ (b : BasicBlock) x (s : state T),
     (value_of (BasicBlock_forward b x) s).1
     = (skip_connection_run (λ v, Ok (Act_apply (bb_relu b) v))
          (BasicBlock_transform_run b) (identity_run (bb_downsample b)) x s).1)
  ∧ (∀ (b : Bottleneck) x (s : state T),
       (value_of (Bottleneck_forward b x) s).1
       = (skip_connection_run (attr_activation (bn_last_activation b))
            (Bottleneck_transform_run b) (identity_run (bn_downsample b)) x s).1)
  ∧ (∀ (b : BasicBlockID) x (s : state T),
       (value_of (BasicBlockID_forward b x) s).1
       = (identity_connection_run (λ v, Ok (Act_apply (id_relu b) v))
            (identity_run (id_downsample b)) x s).1)
  ∧ (∀ (h : list T) (g : nat) (x : loc) (xv : T),
       h !! x = Some xv →
       (∀ b, Block_in (IsBasicBlock b) (length h) →
          ∃ h', keeps (length h) h h'
                ∧ yields (BasicBlock_forward b x (State h g)) (length h) h' g
                    (skip_connection (λ v, Ok (Act_apply (bb_relu b) v))
                       (BasicBlock_transform h b)
                       (block_identity h (bb_downsample b)) xv))
       ∧ (∀ b, Block_in (IsBottleneck b) (length h) →
            ∃ h', keeps (length h) h h'
                  ∧ yields (Bottleneck_forward b x (State h g)) (length h) h' g
                      (skip_connection (attr_activation (bn_last_activation b))
                         (Bottleneck_transform h b)
                         (block_identity h (bn_downsample b)) xv))).
Proof.
  split_and!.
  - apply BasicBlock_forward_skip.
  - apply Bottleneck_forward_skip.
  - apply BasicBlockID_forward_identity.
  - intros h g x xv Hx. split; intros b Hb.
    + by apply BasicBlock_forward_run; [|apply keeps_refl|].
    + by apply Bottleneck_forward_run; [|apply keeps_refl|].
Qed.

Lemma residual_blocks_skip_connection_witness :
  ∃ h', keeps 7 demo_heap h'
        ∧ yields (BasicBlock_forward demo_block 6 (State demo_heap 2)) 7 h' 2
            (skip_connection (λ v, Ok (relu v))
               (BasicBlock_transform demo_heap demo_block) (λ v, Ok v)
               (Sym [1; 64; 8; 8] (tInput 0))).
Proof.
  destruct (residual_blocks_skip_connection (T := sym)) as (_ & _ & _ & HB).
  destruct (HB demo_heap 2 6 (Sym [1; 64; 8; 8] (tInput 0)) eq_refl) as [HB1 _].
  apply (HB1 demo_block).
  solve_leaves_in.
Defined.

(** The block that the witness runs is the one the constructor builds. *)
Example demo_block_built :
  BasicBlock_init (T := sym) 64 64 1 None 1 64 1 (Some nn_GroupNorm) "relu" empty_state
  = (Ok demo_block, State (take 6 demo_heap) 2).
Proof. vm_compute. reflexivity. Qed.

(** C3 as stated fails for [BasicBlockID].  On an input that is no sum
    itself, the tensor that its [forward] returns holds [relu(x)] for the
    object with the attributes that [__init__] assigns, and holds no
    activated sum for any object of the class, whatever its attributes;
    [BasicBlock] on the same input returns [relu(... + x)]. *)
Lemma BasicBlockID_forward_no_sum :
  (value_of (BasicBlockID_forward demo_blockID 6) (State demo_heap 2)).1
  = Ok (Sym [1; 64; 8; 8] (tRelu (tInput 0)))
  ∧ (∀ (b : BasicBlockID) v,
       (value_of (BasicBlockID_forward b 6) (State demo_heap 2)).1 = Ok v →
       is_activated_sum (sym_term v) = false)
  ∧ (is_activated_sum <$>
       result_term (BasicBlock_forward demo_block 6 (State demo_heap 2)))
    = Some true.
Proof.
  split_and!; [vm_compute; reflexivity| |vm_compute; reflexivity].
  intros b v. rewrite BasicBlockID_forward_identity.
  unfold identity_connection_run, identity_run.
  destruct (id_downsample b) as [d|].
  - unfold Downsample_forward.
    destruct (bind (bind _ _) _ _) as [[r|e] s1] eqn:E; [|discriminate].
    cbn [fst]. intros [= <-].
    apply bind_Ok_inv in E as (idn & s2 & E & E2).
    apply bind_Ok_inv in E as (c & s3 & _ & E).
    apply Norm_forward_no_sum in E as (iv & Hiv & Hsum).
    unfold bind, read, lift in E2. rewrite Hiv in E2. simplify_eq. apply Hsum.
  - unfold bind, ret, read, lift. cbn. intros [= <-]. by destruct (id_relu b) as [[|]| |].
Qed.

(** ** What [forward] writes

    [forward] overwrites tensors in place: the activations and sums it has
    allocated itself, and the running statistics and the batch counter of
    every [BatchNorm2d]. *)

Section Updates.
Context {T : Type} `{Torch T}.
Implicit Types (lo : nat) (bufs : list loc).




















End Updates.


Section UpdatesNetwork.
Context {T : Type} `{Torch T}.
Implicit Types (lo : nat) (bufs : list loc).

Lemma leaves_buffers_app ms1 ms2 :
  leaves_buffers (ms1 ++ ms2) = leaves_buffers ms1 ++ leaves_buffers ms2.
Proof. unfold leaves_buffers. by rewrite map_app, concat_app. Qed.

Lemma blocks_buffers_elem b bs l :
  b ∈ bs → l ∈ leaves_buffers (Block_leaves b) →
  l ∈ leaves_buffers (concat (map Block_leaves bs)).
Proof.
  induction 1 as [b bs|b b' bs Hb IH]; cbn [map concat]; intros Hl;
    rewrite leaves_buffers_app, elem_of_app; auto.
Qed.







End UpdatesNetwork.

Section Spans.
Context {T : Type} `{Torch T}.




Lemma span_mono ls lo hi lo' hi' :
  span ls lo hi → lo' ≤ lo → hi ≤ hi' → span ls lo' hi'.
Proof.
  intros [N F] L1 L2. split; [done|].
  eapply Forall_impl; [exact F|]. cbn. intros; lia.
Qed.



End Spans.


Section SpansBlocks.
Context {T : Type} `{Torch T}.









End SpansBlocks.

Section WeightsAndBuffers.
Context {T : Type} `{Torch T}.







End WeightsAndBuffers.



(** C6.  [ResNet.forward] is deterministic: two invocations of a network
    built by [ResNet.__init__] (with the default [GroupNorm]
    normalisation), in two heaps that hold identical values at the
    network's parameters and identical input tensors, both return encodings
    of the same value, or both raise the same exception. *)
Theorem ResNet_forward_deterministic {T : Type} `{Torch T}
    a (s0 : state T) net s1 (s t : state T) x x' xv :
  ResNet_init a s0 = (Ok net, s1) →
  a_norm_layer a ≠ Some nn_BatchNorm2d →
  length (heap s1) ≤ length (heap s) →
  length (heap s1) ≤ length (heap t) →
  leaves_agree (ResNet_leaves net) (heap s) (heap t) →
  heap s !! x = Some xv →
  heap t !! x' = Some xv →
  same_outcome (ResNet_forward net x s) (ResNet_forward net x' t).
Proof.
  intros Hinit Hn Hs Ht Hagree Hx Hx'.
  destruct (ResNet_init_built a s0 net s1 Hn Hinit) as [_ Hnet].
  eapply ResNet_forward_same; try done.
  - eapply leaves_in_mono; [exact Hnet|exact Hs].
  - eapply leaves_in_mono; [exact Hnet|exact Ht].
Qed.

(** Decides, on concrete heaps, that they agree on a network's parameters. *)
Ltac solve_leaves_agree :=
  unfold leaves_agree;
  repeat match goal with
         | |- Forall _ [] => apply Forall_nil
         | |- Forall _ (_ :: _) => apply Forall_cons
         | |- _ ∧ _ => split
         | |- True => exact I
         | |- _ = _ => vm_compute; reflexivity
         | |- Forall ?P ?l =>
             let l' := eval vm_compute in l in progress change (Forall P l')
         end.

Lemma ResNet_forward_deterministic_witness :
  ∃ net s1,
    ResNet_init (T := sym) small_args empty_state = (Ok net, s1)
    ∧ let s := with_input s1 [2; 3; 16; 16] in
      let t := (ResNet_forward net (length (heap s1)) s).2 in
      same_outcome (ResNet_forward net (length (heap s1)) s)
        (ResNet_forward net (length (heap s1)) t).
Proof.
  eexists _, _. split; [vm_compute; reflexivity|].
  eapply (ResNet_forward_deterministic (T := sym) small_args empty_state).
  all: first [discriminate | (vm_compute; reflexivity) | (vm_compute; lia)
             | solve_leaves_agree].
Defined.

(** ** Parameters that [forward] never reads *)

(** Identifies the outcomes of one computation run twice from one state. *)
Ltac unify_runs :=
  repeat match goal with
  | E1 : ?lhs = (Ok _, _), E2 : ?lhs = (Ok _, _) |- _ =>
      rewrite E1 in E2; injection E2 as <- <-
  end.

Section Unused.
Context {T : Type} `{Torch T}.

Lemma make_optional_layer_unused present self a e fl rswd i la nof :
  make_optional_layer (T := T) present self (with_unused a e fl) rswd i la nof
  = make_optional_layer present self a rswd i la nof.
Proof. reflexivity. Qed.

Lemma ResNet_init_same_layers a e fl (s0 : state T) net s1 net' s1' :
  ResNet_init a s0 = (Ok net, s1) →
  ResNet_init (with_unused a e fl) s0 = (Ok net', s1') →
  same_layers net net'.
Proof.
  intros E E'. unfold ResNet_init in E, E'. cbv zeta in E, E'.
  cbn [with_unused a_block a_layers a_filters a_strides a_num_channels
       a_zero_init_residual a_groups a_widen a_width_per_group
       a_replace_stride_with_dilation a_norm_layer a_last_activation
       a_inital_maxpool a_final_pool_type a_final_out_filters a_spatial_output
       a_expand_factor a_initial_padding a_final_ln] in E'.
  inv_run E. inv_run E'.
  repeat match goal with
  | E : context [with_unused a e fl] |- _ =>
      rewrite make_optional_layer_unused in E
  end.
  unify_runs.
  unfold ret in E, E'. simplify_eq. by repeat split.
Qed.
End Unused.

(** C9.  [expand_factor] and [final_ln] have no effect on what the network
    computes: two networks built by [ResNet.__init__] from arguments that
    differ in these two only have the same layers, and in heaps that hold
    identical values at the parameters of those layers and identical
    inputs their [forward]s return encodings of the same value, or raise
    the same exception. *)
Theorem unused_parameters_have_no_effect {T : Type} `{Torch T}
    a e fl (s0 : state T) net s1 net' s1' (s t : state T) x x' xv :
  ResNet_init a s0 = (Ok net, s1) →
  ResNet_init (with_unused a e fl) s0 = (Ok net', s1') →
  a_norm_layer a ≠ Some nn_BatchNorm2d →
  length (heap s1) ≤ length (heap s) →
  length (heap s1') ≤ length (heap t) →
  leaves_agree (ResNet_leaves net) (heap s) (heap t) →
  heap s !! x = Some xv →
  heap t !! x' = Some xv →
  same_layers net net'
  ∧ same_outcome (ResNet_forward net x s) (ResNet_forward net' x' t).
Proof.
  intros Hinit Hinit' Hn Hs Ht Hagree Hx Hx'.
  pose proof (ResNet_init_same_layers a e fl s0 net s1 net' s1' Hinit Hinit') as Hsame.
  split; [exact Hsame|].
  destruct (ResNet_init_built a s0 net s1 Hn Hinit) as [_ Hnet].
  destruct (ResNet_init_built (with_unused a e fl) s0 net' s1' Hn Hinit') as [_ Hnet'].
  eapply ResNet_forward_same; try done.
  - eapply leaves_in_mono; [exact Hnet|exact Hs].
  - eapply leaves_in_mono; [exact Hnet'|exact Ht].
Qed.

Lemma unused_parameters_have_no_effect_witness :
  ∃ net s1 net' s1',
    ResNet_init (T := sym) small_args empty_state = (Ok net, s1)
    ∧ ResNet_init (T := sym) (with_unused small_args 1 true) empty_state = (Ok net', s1')
    ∧ same_layers net net'
    ∧ same_outcome
        (ResNet_forward net (length (heap s1)) (with_input s1 [2; 3; 16; 16]))
        (ResNet_forward net' (length (heap s1')) (with_input s1' [2; 3; 16; 16])).
Proof.
  eexists _, _, _, _. split; [vm_compute; reflexivity|].
  split; [vm_compute; reflexivity|].
  eapply (unused_parameters_have_no_effect (T := sym) small_args 1 true empty_state).
  all: first [discriminate | (vm_compute; reflexivity) | (vm_compute; lia)
             | solve_leaves_agree].
Defined.

(** ** The guard on [replace_stride_with_dilation] *)

Section Quiet.
Context {T : Type} `{Torch T}.

Lemma quiet_ret {A} (a : A) : quiet (T := T) (ret a).
Proof. intros s e s' E. discriminate. Qed.

Lemma quiet_bind {A B} (m : M T A) (k : A → M T B) :
  quiet m → (∀ a, quiet (k a)) → quiet (bind m k).
Proof.
  intros Hm Hk s e s' E. unfold bind in E.
  destruct (m s) as [[a|e1] s1] eqn:Em.
  - by eapply Hk.
  - injection E as <- <-. by eapply Hm.
Qed.

Lemma quiet_raise {A} e : other_error e → quiet (T := T) (A := A) (raise e).
Proof. intros He s e' s' [= <- <-]. done. Qed.

Lemma other_error_message m :
  (∀ l, m ≠ replace_stride_message l) → other_error (ValueError m).
Proof. intros Hm l [= E]. by eapply Hm. Qed.

Lemma quiet_index {A} (xs : list A) i : quiet (T := T) (index xs i).
Proof. unfold index. destruct (xs !! i); [apply quiet_ret|by apply quiet_raise]. Qed.

Lemma quiet_index_last {A} (xs : list A) : quiet (T := T) (index_last xs).
Proof.
  unfold index_last. destruct (last xs); [apply quiet_ret|by apply quiet_raise].
Qed.

Lemma quiet_alloc (v : T) : quiet (alloc v).
Proof. intros s e s' E. discriminate. Qed.

Lemma quiet_draw : quiet (T := T) draw.
Proof. intros s e s' E. discriminate. Qed.

Lemma quiet_read l : quiet (T := T) (read l).
Proof.
  intros s e s' E. unfold read in E. destruct (heap s !! l); [discriminate|].
  by injection E as <- <-.
Qed.

Lemma quiet_write l (v : T) : quiet (write l v).
Proof.
  intros s e s' E. unfold write in E. destruct (heap s !! l); [discriminate|].
  by injection E as <- <-.
Qed.
End Quiet.

(** Proves that a chain of constructor steps is [quiet]; [tac] handles the
    calls of other constructors. *)
Ltac solve_quiet_using tac :=
  repeat first
    [ apply quiet_ret
    | apply quiet_alloc
    | apply quiet_draw
    | apply quiet_read
    | apply quiet_write
    | apply quiet_index
    | apply quiet_index_last
    | apply quiet_raise;
      first [ done
            | apply other_error_message; intros l;
              unfold replace_stride_message; cbn; discriminate ]
    | tac
    | apply quiet_bind; [|intros ?]
    | match goal with
      | |- quiet (if ?c then _ else _) => destruct c
      | |- quiet (match ?c with _ => _ end) => destruct c
      end ].

Ltac solve_quiet := solve_quiet_using fail.

Section QuietConstructors.
Context {T : Type} `{Torch T}.

Lemma quiet_new_Conv2d cin cout k st p d g wb :
  quiet (T := T) (new_Conv2d cin cout k st p d g wb).
Proof. unfold new_Conv2d, new_param. solve_quiet. Qed.

Lemma quiet_call_norm_layer k G C : quiet (T := T) (call_norm_layer k G C).
Proof.
  destruct k; cbn [call_norm_layer]; unfold new_GroupNorm, new_BatchNorm2d;
    solve_quiet.
Qed.

Lemma quiet_block_init c inpl pl st ds g bw dil nl la :
  quiet (T := T) (block_init c inpl pl st ds g bw dil nl la).
Proof.
  destruct c; cbn [block_init];
    unfold BasicBlockID_init, BasicBlock_init, Bottleneck_init, super_init,
      conv3x3, conv1x1; cbv zeta;
    solve_quiet_using ltac:(first [apply quiet_new_Conv2d | apply quiet_call_norm_layer]).
Qed.

Lemma quiet_make_rest self c pl blocks la idx :
  quiet (T := T) (make_rest self c pl blocks la idx).
Proof.
  induction idx as [|i idx IH]; cbn [make_rest];
    solve_quiet_using ltac:(first [apply quiet_block_init | apply IH]).
Qed.

Lemma quiet__make_layer self c pl blocks st dilate la :
  quiet (T := T) (_make_layer self c pl blocks st dilate la).
Proof.
  unfold _make_layer, conv1x1. cbv zeta.
  solve_quiet_using ltac:(first [apply quiet_new_Conv2d | apply quiet_call_norm_layer
                                | apply quiet_block_init | apply quiet_make_rest]).
Qed.

Lemma quiet_make_optional_layer present self a rswd i la nof :
  quiet (T := T) (make_optional_layer present self a rswd i la nof).
Proof.
  unfold make_optional_layer.
  solve_quiet_using ltac:(apply quiet__make_layer).
Qed.

Lemma quiet_for_each {A} (f : A → M T unit) xs :
  (∀ x, quiet (f x)) → quiet (for_each f xs).
Proof.
  intros Hf. induction xs as [|x xs IH]; cbn [for_each];
    solve_quiet_using ltac:(first [apply Hf | apply IH]).
Qed.

Lemma quiet_init_leaf m : quiet (T := T) (init_leaf m).
Proof.
  destruct m; cbn [init_leaf]; unfold kaiming_normal_, constant_; solve_quiet.
Qed.

Lemma quiet_zero_init_block m : quiet (T := T) (zero_init_block m).
Proof.
  destruct m; cbn [zero_init_block]; unfold constant_; solve_quiet.
Qed.

Lemma ResNet_init_guard a (s : state T) :
  let rswd := default [false; false; false] (a_replace_stride_with_dilation a) in
  (length rswd ≠ 3 →
     ResNet_init a s = (Raise (ValueError (replace_stride_message rswd)), s))
  ∧ (length rswd = 3 →
     ∀ e s', ResNet_init a s = (Raise e, s') → other_error e).
Proof.
  intros rswd. split; intros Hl.
  - unfold ResNet_init. cbv zeta. fold rswd.
    by replace (length rswd =? 3) with false by (symmetry; by apply Nat.eqb_neq).
  - assert (Hq : quiet (T := T) (ResNet_init a)); [|intros e s'; apply Hq].
    unfold ResNet_init. cbv zeta. fold rswd.
    replace (length rswd =? 3) with true by (symmetry; by apply Nat.eqb_eq).
    cbn [negb]. unfold new_LayerNorm.
    solve_quiet_using ltac:(first
      [ apply quiet_new_Conv2d | apply quiet_call_norm_layer
      | apply quiet__make_layer | apply quiet_make_optional_layer
      | apply quiet_for_each; intros ?
      | apply quiet_init_leaf | apply quiet_zero_init_block ]).
Qed.
End QuietConstructors.

(** C5.  [ResNet.__init__] raises the [ValueError] that names the offending
    [replace_stride_with_dilation] exactly when that argument is not [None]
    and does not have 3 elements, and it does so at once, leaving the state
    as it was; [None] is treated as [[False, False, False]] and never leads
    to that error. *)
Theorem ResNet_init_replace_stride_guard {T : Type} `{Torch T}
    (a : ResNet_args) (s : state T) :
  (∀ l, a_replace_stride_with_dilation a = Some l ∧ length l ≠ 3
        ↔ ∃ s', ResNet_init a s = (Raise (ValueError (replace_stride_message l)), s')
                ∧ default [false; false; false] (a_replace_stride_with_dilation a) = l)
  ∧ (∀ l, a_replace_stride_with_dilation a = Some l → length l ≠ 3 →
        ResNet_init a s = (Raise (ValueError (replace_stride_message l)), s))
  ∧ (∀ l s', ResNet_init a s = (Raise (ValueError (replace_stride_message l)), s') →
        ∃ l', a_replace_stride_with_dilation a = Some l' ∧ length l' ≠ 3)
  ∧ (a_replace_stride_with_dilation a = None →
        ResNet_init a s
        = ResNet_init (with_replace_stride a (Some [false; false; false])) s
        ∧ ∀ l s', ResNet_init a s ≠ (Raise (ValueError (replace_stride_message l)), s')).
Proof.
  pose proof (ResNet_init_guard a s) as [Hbad Hgood]. cbv zeta in Hbad, Hgood.
  assert (Honly : ∀ l s',
    ResNet_init a s = (Raise (ValueError (replace_stride_message l)), s') →
    ∃ l', a_replace_stride_with_dilation a = Some l' ∧ length l' ≠ 3).
  { intros l s' E.
    destruct (decide (length (default [false; false; false]
                                (a_replace_stride_with_dilation a)) = 3)) as [H3|H3].
    - exfalso. by eapply (Hgood H3 _ _ E l).
    - destruct (a_replace_stride_with_dilation a) as [l'|]; [eauto|done]. }
  split_and!.
  - intros l. split.
    + intros [Hl H3]. rewrite Hl in Hbad. cbn in Hbad.
      exists s. split; [by apply Hbad|by rewrite Hl].
    + intros (s' & E & Hd). destruct (Honly l s' E) as (l' & Hl' & H3).
      rewrite Hl' in Hd. cbn in Hd. by subst.
  - intros l Hl H3. rewrite Hl in Hbad. by apply Hbad.
  - exact Honly.
  - intros Hnone. split.
    + unfold ResNet_init. cbv zeta. cbn [with_replace_stride
        a_block a_layers a_filters a_strides a_num_channels
        a_zero_init_residual a_groups a_widen a_width_per_group
        a_replace_stride_with_dilation a_norm_layer a_last_activation
        a_inital_maxpool a_final_pool_type a_final_out_filters a_spatial_output
        a_expand_factor a_initial_padding a_final_ln].
      rewrite Hnone. reflexivity.
    + intros l s' E. destruct (Honly l s' E) as (l' & Hl' & _). congruence.
Qed.

(** ** Dimensions of the encodings *)

Section Dims.
Context {T : Type} `{Torch T}.
Implicit Types h : list T.


Lemma rmap_Ok_eq {A B} (f : A → B) (r : result A) a b :
  r = Ok a → rmap f r = Ok b → f a = b.
Proof. intros -> [= <-]. done. Qed.




Lemma Act_apply_shape a v : shape (Act_apply a v) = shape v.
Proof. destruct a; cbn; [apply shape_relu|done|apply shape_sigmoid]. Qed.














Lemma ResNet_forward_Ok net x (s : state T) xv v :
  ResNet_in net (length (heap s)) → heap s !! x = Some xv →
  ResNet_apply (heap s) net xv = Ok v →
  ∃ o, (ResNet_forward net x s).1 = Ok o
       ∧ heap (ResNet_forward net x s).2 !! encodings o = Some v.
Proof.
  destruct s as [h g]. cbn [heap]. intros Hnet Hx E.
  destruct (ResNet_forward_run net x h g xv Hnet Hx) as (h' & K & Y).
  rewrite E in Y. cbn in Y. destruct Y as (y & Ey & _ & Hv).
  apply out_loc_Ok_inv in Ey as (o & -> & <-). eauto.
Qed.
End Dims.



(** ** Shapes through well-formed layers *)

Section Shapes.
Context {T : Type} `{Torch T}.
Implicit Types h : list T.

Lemma rmap_shape_Ok (r : result T) sh :
  rmap shape r = Ok sh → ∃ y, r = Ok y ∧ shape y = sh.
Proof. destruct r as [y|e]; cbn; [|discriminate]. intros [= <-]. eauto. Qed.

Lemma fetch_has_shape h l sh :
  has_shape h l sh → ∃ v, fetch h l = Ok v ∧ shape v = sh.
Proof. intros (v & Hv & Hs). exists v. unfold fetch. by rewrite Hv. Qed.

Lemma gn_ok_inv C :
  gn_ok C = true →
  min 32 (C / 4) ≠ 0 ∧ C mod min 32 (C / 4) = 0.
Proof.
  unfold gn_ok, norm_accepts. intros [HG HC]%andb_true_iff.
  apply negb_true_iff, Nat.eqb_neq in HG. apply Nat.eqb_eq in HC. done.
Qed.

(** No group of a normalisation layer holds a single value. *)
Lemma gn_group_size C n hh ww :
  gn_ok C = true → (n * C / min 32 (C / 4)) * hh * ww ≠ 1.
Proof.
  intros [HG HC]%gn_ok_inv.
  assert (HG4 : 4 * min 32 (C / 4) ≤ C).
  { clear HG HC. pose proof (Nat.Div0.mul_div_le C 4) as H4.
    pose proof (Nat.le_min_r 32 (C / 4)) as Hm. revert H4 Hm.
    generalize (C / 4). intros q. generalize (min 32 q). intros. lia. }
  remember (min 32 (C / 4)) as G eqn:EG. clear EG.
  apply Nat.Div0.div_exact in HC.
  remember (C / G) as q eqn:Eq. clear Eq.
  assert (Hq : 4 ≤ q) by nia.
  replace (n * C / G) with (n * q).
  - intros E. apply Nat.eq_mul_1 in E as [E _]. apply Nat.eq_mul_1 in E as [E _].
    apply Nat.eq_mul_1 in E as [_ E]. lia.
  - rewrite HC. rewrite (Nat.mul_comm G q), Nat.mul_assoc.
    by rewrite Nat.div_mul.
Qed.

Lemma Conv2d_apply_shape h c xv cin cout k st p n hh ww :
  Conv2d_wf h c cin cout k st p → shape xv = [n; cin; hh; ww] →
  1 ≤ st → 1 ≤ k → k ≤ hh + 2 * p → k ≤ ww + 2 * p →
  ∃ y, Conv2d_apply h c xv = Ok y
       ∧ shape y = [n; cout; window_out hh k st p 1; window_out ww k st p 1].
Proof.
  intros (Ei & Eo & Ek & Es & Ep & Ed & Eg & Hw & Hb) Hx Hst Hk Hh Hww.
  unfold Conv2d_apply, mbind, result_bind.
  destruct (fetch_has_shape _ _ _ Hw) as (w & -> & Hws). cbn [rbind].
  assert (Hbias : ∃ b, fetch_opt h (conv_bias c) = Ok b).
  { unfold fetch_opt. destruct (conv_bias c) as [b|]; [|eauto].
    destruct (fetch_has_shape _ _ _ Hb) as (bv & -> & _). cbn. eauto. }
  destruct Hbias as (b & ->). cbn [rbind].
  apply rmap_shape_Ok. rewrite shape_conv2d by (by rewrite Hx).
  rewrite Hx, Hws, Es, Ep, Ed, Eg. unfold conv2d_shape.
  rewrite Nat.mul_1_r, Nat.eqb_refl. cbn [negb].
  replace (st =? 0) with false by (symmetry; apply Nat.eqb_neq; lia).
  replace (hh + 2 * p <? 1 * (k - 1) + 1) with false
    by (symmetry; apply Nat.ltb_ge; lia).
  replace (ww + 2 * p <? 1 * (k - 1) + 1) with false
    by (symmetry; apply Nat.ltb_ge; lia).
  reflexivity.
Qed.

Lemma Norm_apply_shape h n C xv nb hh ww :
  GroupNorm_wf h n C → gn_ok C = true → shape xv = [nb; C; hh; ww] →
  ∃ y, Norm_apply h n xv = Ok y ∧ shape y = [nb; C; hh; ww].
Proof.
  intros (w & b & -> & Hw & Hb) HC Hx. cbn [Norm_apply]. unfold mbind, result_bind.
  destruct (fetch_has_shape _ _ _ Hw) as (wv & -> & Hws).
  destruct (fetch_has_shape _ _ _ Hb) as (bv & -> & _). cbn [rbind].
  apply rmap_shape_Ok. rewrite shape_group_norm by (by rewrite Hx).
  rewrite Hx, Hws. unfold group_norm_shape.
  destruct (gn_ok_inv C HC) as [HG Hmod].
  replace (min 32 (C / 4) =? 0) with false by (symmetry; by apply Nat.eqb_neq).
  replace (_ =? 1) with false
    by (symmetry; apply Nat.eqb_neq; by apply gn_group_size).
  rewrite Hmod. cbn. by rewrite decide_True.
Qed.

Lemma window_3 hh st : window_out hh 3 st 1 1 = down hh st.
Proof.
  unfold window_out, down. replace (hh + 2 * 1 - (1 * (3 - 1) + 1)) with (hh - 1) by lia.
  done.
Qed.

Lemma window_1 hh st : window_out hh 1 st 0 1 = down hh st.
Proof.
  unfold window_out, down. replace (hh + 2 * 0 - (1 * (1 - 1) + 1)) with (hh - 1) by lia.
  done.
Qed.

Lemma down_1 hh : 1 ≤ hh → down hh 1 = hh.
Proof. intros Hh. unfold down. rewrite Nat.div_1_r. lia. Qed.

Lemma down_pos hh st : 1 ≤ down hh st.
Proof. unfold down. lia. Qed.

Lemma block_identity_shape h ds inpl pl st xv n hh ww :
  Downsample_wf h ds inpl pl st → gn_ok pl = true → 1 ≤ st →
  shape xv = [n; inpl; hh; ww] → 1 ≤ hh → 1 ≤ ww →
  ∃ y, block_identity h ds xv = Ok y ∧ shape y = [n; pl; down hh st; down ww st].
Proof.
  intros Hds Hpl Hst Hx Hh Hw. unfold Downsample_wf in Hds.
  destruct (negb (st =? 1) || negb (inpl =? pl)) eqn:Hc.
  - destruct Hds as (d & -> & Hconv & Hn). cbn [block_identity].
    unfold Downsample_apply, mbind, result_bind.
    destruct (Conv2d_apply_shape h _ xv _ _ _ _ _ n hh ww Hconv Hx)
      as (y1 & -> & Hy1); [lia..|]. cbn [rbind].
    rewrite !window_1 in Hy1. by eapply Norm_apply_shape.
  - apply orb_false_iff in Hc as [H1 H2].
    apply negb_false_iff, Nat.eqb_eq in H1, H2. subst.
    exists xv. split; [done|]. by rewrite !down_1.
Qed.

Lemma BasicBlock_apply_shape h b inpl pl st xv n hh ww :
  BasicBlock_wf h b inpl pl st → gn_ok pl = true → 1 ≤ st →
  shape xv = [n; inpl; hh; ww] → 1 ≤ hh → 1 ≤ ww →
  ∃ y, BasicBlock_apply h b xv = Ok y ∧ shape y = [n; pl; down hh st; down ww st].
Proof.
  intros (Hc1 & Hn1 & Hc2 & Hn2 & Hds) Hpl Hst Hx Hh Hw.
  unfold BasicBlock_apply, skip_connection, BasicBlock_transform, mbind, result_bind.
  destruct (Conv2d_apply_shape h _ xv _ _ _ _ _ n hh ww Hc1 Hx)
    as (y1 & -> & Hy1); [lia..|]. cbn [rbind]. rewrite !window_3 in Hy1.
  destruct (Norm_apply_shape h _ _ y1 _ _ _ Hn1 Hpl Hy1) as (y2 & -> & Hy2).
  cbn [rbind].
  assert (Hy3 : shape (Act_apply (bb_relu b) y2) = [n; pl; down hh st; down ww st]).
  { by rewrite Act_apply_shape. }
  pose proof (down_pos hh st). pose proof (down_pos ww st).
  destruct (Conv2d_apply_shape h _ _ _ _ _ _ _ _ _ _ Hc2 Hy3)
    as (y4 & -> & Hy4); [lia..|]. cbn [rbind].
  rewrite !window_3, !down_1 in Hy4 by done.
  destruct (Norm_apply_shape h _ _ y4 _ _ _ Hn2 Hpl Hy4) as (y5 & -> & Hy5).
  cbn [rbind].
  destruct (block_identity_shape h _ _ _ _ xv n hh ww Hds Hpl Hst Hx Hh Hw)
    as (yi & -> & Hyi). cbn [rbind].
  assert (Hsame : shape y5 = shape yi) by congruence.
  pose proof (shape_add y5 yi Hsame) as Hadd.
  apply rmap_shape_Ok in Hadd as (sum & -> & Hsum). cbn [rbind].
  eexists. split; [reflexivity|]. rewrite Act_apply_shape. congruence.
Qed.

Lemma Block_apply_shape h b inpl pl st xv n hh ww :
  Block_wf h b inpl pl st → gn_ok pl = true → 1 ≤ st →
  shape xv = [n; inpl; hh; ww] → 1 ≤ hh → 1 ≤ ww →
  ∃ y, Block_apply h b xv = Ok y ∧ shape y = [n; pl; down hh st; down ww st].
Proof. destruct b; cbn; try done. apply BasicBlock_apply_shape. Qed.

Lemma Sequential_apply_same h bs pl xv n hh ww :
  Forall (λ b, Block_wf h b pl pl 1) bs → gn_ok pl = true →
  shape xv = [n; pl; hh; ww] → 1 ≤ hh → 1 ≤ ww →
  ∃ y, Sequential_apply h bs xv = Ok y ∧ shape y = [n; pl; hh; ww].
Proof.
  intros Hbs Hpl. revert xv.
  induction Hbs as [|b bs Hb Hbs IH]; intros xv Hx Hh Hw; cbn [Sequential_apply].
  - eauto.
  - destruct (Block_apply_shape h b pl pl 1 xv n hh ww Hb Hpl ltac:(lia) Hx Hh Hw)
      as (y & -> & Hy). cbn [mbind result_bind rbind].
    rewrite !down_1 in Hy by done. by apply IH.
Qed.

Lemma layer_apply_shape h bs inpl pl st xv n hh ww :
  layer_wf h bs inpl pl st → gn_ok pl = true → 1 ≤ st →
  shape xv = [n; inpl; hh; ww] → 1 ≤ hh → 1 ≤ ww →
  ∃ y, Sequential_apply h bs xv = Ok y ∧ shape y = [n; pl; down hh st; down ww st].
Proof.
  intros Hbs Hpl Hst Hx Hh Hw. destruct bs as [|b rest]; [done|].
  destruct Hbs as [Hb Hrest]. cbn [Sequential_apply].
  destruct (Block_apply_shape h b inpl pl st xv n hh ww Hb Hpl Hst Hx Hh Hw)
    as (y & -> & Hy). cbn [mbind result_bind rbind].
  apply (Sequential_apply_same h rest pl y n _ _ Hrest Hpl Hy); apply down_pos.
Qed.
End Shapes.

(** ** The shape of the encodings of a well-formed network *)

Section NetworkShapes.
Context {T : Type} `{Torch T}.
Implicit Types h : list T.

Lemma window_out_pos hh k s p d : 1 ≤ window_out hh k s p d.
Proof. unfold window_out. lia. Qed.

Lemma gn_ok_pos C : gn_ok C = true → 1 ≤ C.
Proof.
  intros [HG _]%gn_ok_inv. destruct C; [|lia]. by cbn in HG.
Qed.

Lemma constant_pad2d_Ok xv p n c hh ww :
  shape xv = [n; c; hh; ww] →
  ∃ y, constant_pad2d xv p = Ok y ∧ shape y = [n; c; hh + 2 * p; ww + 2 * p].
Proof.
  intros Hx. apply rmap_shape_Ok.
  rewrite shape_constant_pad2d by (by rewrite Hx). by rewrite Hx.
Qed.

Lemma max_pool2d_Ok xv n c hh ww :
  shape xv = [n; c; hh; ww] → 1 ≤ hh → 1 ≤ ww →
  ∃ y, max_pool2d xv 3 2 1 = Ok y
       ∧ shape y = [n; c; window_out hh 3 2 1 1; window_out ww 3 2 1 1].
Proof.
  intros Hx Hh Hw. apply rmap_shape_Ok.
  rewrite shape_max_pool2d by (by rewrite Hx). rewrite Hx. unfold max_pool2d_shape.
  replace (3 / 2 <? 1) with false by done. cbn [orb Nat.eqb].
  replace (hh + 2 * 1 <? 3) with false by (symmetry; apply Nat.ltb_ge; lia).
  replace (ww + 2 * 1 <? 3) with false by (symmetry; apply Nat.ltb_ge; lia).
  done.
Qed.

Lemma adaptive_avg_pool2d_Ok xv n c hh ww :
  shape xv = [n; c; hh; ww] → 1 ≤ c → 1 ≤ hh → 1 ≤ ww →
  ∃ y, adaptive_avg_pool2d xv 1 1 = Ok y ∧ shape y = [n; c; 1; 1].
Proof.
  intros Hx Hc Hh Hw. apply rmap_shape_Ok.
  rewrite shape_adaptive_avg_pool2d by (by rewrite Hx). rewrite Hx.
  unfold adaptive_avg_pool2d_shape.
  replace (c =? 0) with false by (symmetry; apply Nat.eqb_neq; lia).
  replace (hh =? 0) with false by (symmetry; apply Nat.eqb_neq; lia).
  replace (ww =? 0) with false by (symmetry; apply Nat.eqb_neq; lia).
  done.
Qed.

Lemma flatten1_Ok xv n c hh ww :
  shape xv = [n; c; hh; ww] →
  ∃ y, flatten1 xv = Ok y ∧ shape y = [n; c * hh * ww].
Proof.
  intros Hx. apply rmap_shape_Ok. rewrite shape_flatten1, Hx. cbn.
  by rewrite Nat.mul_1_r, Nat.mul_assoc.
Qed.

Lemma ResNet_apply_shape h net a f0 f1 f2 f3 t0 t1 t2 t3 xv B Hh W :
  ResNet_wf h net a f0 f1 f2 f3 t0 t1 t2 t3 →
  a_width_per_group a * a_widen a = f0 →
  gn_ok f0 = true → gn_ok f1 = true → gn_ok f2 = true → gn_ok f3 = true →
  1 ≤ t0 → 1 ≤ t1 → 1 ≤ t2 → 1 ≤ t3 →
  valid_pool (a_final_pool_type a) = true →
  shape xv = [B; a_num_channels a; Hh; W] → 3 ≤ Hh → 3 ≤ W →
  ∃ y, ResNet_apply h net xv = Ok y
       ∧ shape y = encodings_shape_of a f3 t0 t1 t2 t3 B Hh W.
Proof.
  intros (Hpad & Hc1 & Hn1 & Hmp & Hl1 & (l2 & El2 & Hl2) & (l3 & El3 & Hl3)
          & (l4 & El4 & Hl4) & Hfp & Hsp) Hin G0 G1 G2 G3 S0 S1 S2 S3 Hty Hx HH HW.
  unfold ResNet_apply, mbind, result_bind. rewrite Hpad.
  set (pad := a_initial_padding a) in *.
  assert (Hp : ∃ x0, (if pad then constant_pad2d xv 1 else Ok xv) = Ok x0
                     ∧ shape x0 = [B; a_num_channels a;
                                   (if pad then Hh + 2 else Hh);
                                   (if pad then W + 2 else W)]).
  { destruct pad; [|eauto].
    destruct (constant_pad2d_Ok xv 1 _ _ _ _ Hx) as (x0 & -> & Hx0). eauto. }
  destruct Hp as (x0 & Ep & Hx0).
  replace (match (if pad then Some 1 else None) with
           | Some p => constant_pad2d xv p
           | None => Ok xv
           end) with (Ok x0 : result T) by (by destruct pad).
  cbn [rbind].
  destruct (Conv2d_apply_shape h _ x0 _ _ _ _ _ _ _ _ Hc1 Hx0)
    as (x1 & -> & Hx1); [lia|lia|destruct pad; lia|destruct pad; lia|].
  cbn [rbind].
  destruct (Norm_apply_shape h _ _ x1 _ _ _ Hn1 G0 Hx1) as (x2 & -> & Hx2).
  cbn [rbind].
  assert (Hx3 : shape (Act_apply (relu_ net) x2) = shape x2) by apply Act_apply_shape.
  rewrite Hx2 in Hx3. clear Hx2 Hx1 Hx0 Ep. revert Hx3.
  generalize (Act_apply (relu_ net) x2). intros x3 Hx3.
  unfold ResNet_trunk_apply, mbind, result_bind. rewrite Hmp.
  set (mp := a_inital_maxpool a) in *.
  assert (Hm : ∃ x4,
    (if mp then max_pool2d x3 3 2 1 else Ok x3) = Ok x4
    ∧ shape x4 = [B; f0; stem_extent pad mp Hh; stem_extent pad mp W]).
  { unfold stem_extent. destruct mp; [|eauto].
    destruct (max_pool2d_Ok x3 _ _ _ _ Hx3) as (x4 & -> & Hx4);
      [apply window_out_pos..|]. eauto. }
  destruct Hm as (x4 & Em & Hx4).
  replace (match (if mp then Some {| mp_kernel := 3; mp_stride := 2; mp_padding := 1 |}
                  else None) with
           | Some m => max_pool2d x3 (mp_kernel m) (mp_stride m) (mp_padding m)
           | None => Ok x3
           end) with (Ok x4 : result T) by (by destruct mp).
  cbn [rbind].
  assert (He : ∀ X, 1 ≤ stem_extent pad mp X).
  { intros X. unfold stem_extent. destruct mp; apply window_out_pos. }
  rewrite Hin in Hl1.
  destruct (layer_apply_shape h _ _ _ _ x4 _ _ _ Hl1 G0 S0 Hx4 (He _) (He _))
    as (x5 & -> & Hx5). cbn [rbind].
  rewrite El2, El3, El4. cbn [optional_layer_apply].
  destruct (layer_apply_shape h _ _ _ _ x5 _ _ _ Hl2 G1 S1 Hx5 (down_pos _ _)
              (down_pos _ _)) as (x6 & -> & Hx6). cbn [rbind].
  destruct (layer_apply_shape h _ _ _ _ x6 _ _ _ Hl3 G2 S2 Hx6 (down_pos _ _)
              (down_pos _ _)) as (x7 & -> & Hx7). cbn [rbind].
  destruct (layer_apply_shape h _ _ _ _ x7 _ _ _ Hl4 G3 S3 Hx7 (down_pos _ _)
              (down_pos _ _)) as (x8 & -> & Hx8). cbn [rbind].
  fold (trunk_extent t0 t1 t2 t3 (stem_extent pad mp Hh)) in Hx8.
  fold (trunk_extent t0 t1 t2 t3 (stem_extent pad mp W)) in Hx8.
  assert (Hpool : ∃ fp x9,
    attr_final_pool (final_pool net) = Ok fp
    ∧ FinalPool_apply h fp x8 = Ok x9
    ∧ shape x9 = pooled_shape (a_final_pool_type a) B f3 (a_final_out_filters a)
                   (trunk_extent t0 t1 t2 t3 (stem_extent pad mp Hh))
                   (trunk_extent t0 t1 t2 t3 (stem_extent pad mp W))).
  { unfold FinalPool_wf in Hfp. unfold pooled_shape, valid_pool in *.
    destruct (String.eqb (a_final_pool_type a) "avg_pool").
    - rewrite Hfp.
      destruct (adaptive_avg_pool2d_Ok x8 _ _ _ _ Hx8) as (x9 & E9 & Hx9);
        [by apply gn_ok_pos|apply down_pos..|].
      exists (Some (AdaptiveAvgPool2d 1 1)), x9. by split_and!.
    - destruct (String.eqb (a_final_pool_type a) "1x1_pool").
      + destruct Hfp as (c & -> & Hc).
        destruct (Conv2d_apply_shape h _ x8 _ _ _ _ _ _ _ _ Hc Hx8)
          as (x9 & E9 & Hx9); [lia|lia|pose proof (down_pos
            (down (down (down (stem_extent pad mp Hh) t0) t1) t2) t3);
            unfold trunk_extent; lia|pose proof (down_pos
            (down (down (down (stem_extent pad mp W) t0) t1) t2) t3);
            unfold trunk_extent; lia|].
        rewrite !window_1, !down_1 in Hx9 by apply down_pos.
        exists (Some (PoolConv c)), x9. by split_and!.
      + destruct (String.eqb (a_final_pool_type a) "id"); [|done].
        rewrite Hfp. exists None, x8. by split_and!. }
  destruct Hpool as (fp & x9 & Efp & E9 & Hx9).
  rewrite Efp. cbn [rbind]. rewrite E9. cbn [rbind].
  unfold encodings_shape_of. fold pad mp. rewrite Hsp.
  destruct (a_spatial_output a); cbn [negb]; [eauto|].
  unfold pooled_shape in *.
  repeat case_match; destruct (flatten1_Ok x9 _ _ _ _ Hx9) as (y & -> & Hy); eauto.
Qed.
End NetworkShapes.

(** ** What the constructors establish

    Total correctness of the constructors for networks of [BasicBlock]
    layers with [GroupNorm]: they return, and the modules they return are
    well formed in the heap they leave. *)

Section SameShapes.
Context {T : Type} `{Torch T}.
Implicit Types h : list T.

Lemma same_shapes_refl h : same_shapes h h.
Proof. by intros l sh. Qed.

Lemma same_shapes_trans h1 h2 h3 :
  same_shapes h1 h2 → same_shapes h2 h3 → same_shapes h1 h3.
Proof. intros H12 H23 l sh Hl. by apply H23, H12. Qed.

Lemma same_shapes_app h E : same_shapes h (h ++ E).
Proof.
  intros l sh (v & Hv & Hs). exists v. split; [|done]. by apply lookup_app_l_Some.
Qed.

Lemma has_shape_app_r h E i v sh :
  E !! i = Some v → shape v = sh → has_shape (h ++ E) (length h + i) sh.
Proof.
  intros Hi Hs. exists v. split; [|done].
  rewrite lookup_app_r by lia. by replace (length h + i - length h) with i by lia.
Qed.

Lemma Conv2d_wf_mono h h' c cin cout k st p :
  same_shapes h h' → Conv2d_wf h c cin cout k st p → Conv2d_wf h' c cin cout k st p.
Proof.
  intros Hs (?&?&?&?&?&?&?&Hw&Hb). split_and!; try done; [by apply Hs|].
  destruct (conv_bias c); [by apply Hs|done].
Qed.

Lemma GroupNorm_wf_mono h h' n C :
  same_shapes h h' → GroupNorm_wf h n C → GroupNorm_wf h' n C.
Proof.
  intros Hs (w & b & ? & Hw & Hb). exists w, b. split_and!; [done|by apply Hs..].
Qed.

Lemma Downsample_wf_mono h h' d inpl pl st :
  same_shapes h h' → Downsample_wf h d inpl pl st → Downsample_wf h' d inpl pl st.
Proof.
  intros Hs. unfold Downsample_wf. case_match; [|done].
  intros (d' & ? & Hc & Hn). exists d'.
  eauto using Conv2d_wf_mono, GroupNorm_wf_mono.
Qed.

Lemma Block_wf_mono h h' b inpl pl st :
  same_shapes h h' → Block_wf h b inpl pl st → Block_wf h' b inpl pl st.
Proof.
  intros Hs. destruct b as [|b|]; cbn; try done.
  intros (?&?&?&?&?). unfold BasicBlock_wf.
  eauto 10 using Conv2d_wf_mono, GroupNorm_wf_mono, Downsample_wf_mono.
Qed.

Lemma layer_wf_mono h h' bs inpl pl st :
  same_shapes h h' → layer_wf h bs inpl pl st → layer_wf h' bs inpl pl st.
Proof.
  intros Hs. destruct bs as [|b rest]; cbn; [done|]. intros [Hb Hrest].
  split; [by eapply Block_wf_mono|].
  eapply Forall_impl; [exact Hrest|]. intros b'. by apply Block_wf_mono.
Qed.

Lemma FinalPool_wf_mono h h' p ty cin cout :
  same_shapes h h' → FinalPool_wf h p ty cin cout → FinalPool_wf h' p ty cin cout.
Proof.
  intros Hs. unfold FinalPool_wf. repeat case_match; try done.
  intros (c & ? & Hc). exists c. eauto using Conv2d_wf_mono.
Qed.

Lemma new_Conv2d_plain_wf cin cout k st p (s : state T) :
  ∃ c s', new_Conv2d cin cout k st p 1 1 false s = (Ok c, s')
          ∧ same_shapes (heap s) (heap s')
          ∧ Conv2d_wf (heap s') c cin cout k st p.
Proof.
  rewrite new_Conv2d_plain. eexists _, _. split; [reflexivity|]. cbn [heap].
  split; [apply same_shapes_app|]. split_and!; try done. cbn.
  replace (length (heap s)) with (length (heap s) + 0) at 1 by lia.
  eapply has_shape_app_r; [done|apply shape_sample].
Qed.

Lemma new_Conv2d_bias_wf cin cout k st p (s : state T) :
  ∃ c s', new_Conv2d cin cout k st p 1 1 true s = (Ok c, s')
          ∧ same_shapes (heap s) (heap s')
          ∧ Conv2d_wf (heap s') c cin cout k st p.
Proof.
  unfold new_Conv2d. rewrite !Nat.mod_1_r, Nat.div_1_r. cbn [Nat.eqb negb].
  unfold bind, new_param, draw, alloc, ret. cbn.
  eexists _, _. split; [reflexivity|]. cbn [heap]. rewrite <- app_assoc.
  split; [apply same_shapes_app|]. split_and!; try done; cbn.
  - replace (length (heap s)) with (length (heap s) + 0) at 1 by lia.
    eapply has_shape_app_r; [done|apply shape_sample].
  - rewrite length_app. cbn.
    eapply has_shape_app_r; [done|apply shape_sample].
Qed.

Lemma call_norm_layer_wf C (s : state T) :
  gn_ok C = true →
  ∃ n s', call_norm_layer nn_GroupNorm (min 32 (C / 4)) C s = (Ok n, s')
          ∧ same_shapes (heap s) (heap s')
          ∧ GroupNorm_wf (heap s') n C.
Proof.
  intros HC. cbn [call_norm_layer]. rewrite new_GroupNorm_accepts by done.
  eexists _, _. split; [reflexivity|]. cbn [heap].
  split; [apply same_shapes_app|]. eexists _, _. split; [reflexivity|]. split.
  - replace (length (heap s)) with (length (heap s) + 0) at 1 by lia.
    eapply has_shape_app_r; [done|apply shape_full].
  - replace (S (length (heap s))) with (length (heap s) + 1) by lia.
    eapply has_shape_app_r; [done|apply shape_full].
Qed.
End SameShapes.

Section Returns.
Context {T : Type} `{Torch T}.
Implicit Types h : list T.

Lemma returns_ret {A} (a : A) (s : state T) P : P a s → returns (ret a) s P.
Proof. intros HP. by exists a, s. Qed.

Lemma returns_bind {A B} (m : M T A) (k : A → M T B) s P :
  returns m s (λ a s1, returns (k a) s1 P) → returns (bind m k) s P.
Proof.
  intros (a & s1 & E & b & s' & Ek & HP). exists b, s'. split; [|done].
  by rewrite (bind_Ok _ _ _ _ _ E).
Qed.

Lemma returns_mono {A} (m : M T A) s (P Q : A → state T → Prop) :
  returns m s P → (∀ a s', P a s' → Q a s') → returns m s Q.
Proof. intros (a & s' & E & HP) HPQ. exists a, s'. eauto. Qed.

End Returns.

(** Runs the constructor call at the head of the goal with its
    specification [spec]. *)
Ltac run_with spec :=
  apply returns_bind; eapply returns_mono; [apply spec|]; cbv beta.

Section LayerConstructors.
Context {T : Type} `{Torch T}.
Implicit Types h : list T.

Lemma new_Conv2d_plain_returns cin cout k st p (s : state T) :
  returns (new_Conv2d cin cout k st p 1 1 false) s
    (λ c s', same_shapes (heap s) (heap s') ∧ Conv2d_wf (heap s') c cin cout k st p).
Proof. apply new_Conv2d_plain_wf. Qed.

Lemma new_Conv2d_bias_returns cin cout k st p (s : state T) :
  returns (new_Conv2d cin cout k st p 1 1 true) s
    (λ c s', same_shapes (heap s) (heap s') ∧ Conv2d_wf (heap s') c cin cout k st p).
Proof. apply new_Conv2d_bias_wf. Qed.

Lemma call_norm_layer_returns C (s : state T) :
  gn_ok C = true →
  returns (call_norm_layer nn_GroupNorm (min 32 (C / 4)) C) s
    (λ n s', same_shapes (heap s) (heap s') ∧ GroupNorm_wf (heap s') n C).
Proof. apply call_norm_layer_wf. Qed.

Lemma BasicBlock_init_returns inpl pl st ds la (s : state T) :
  gn_ok pl = true → Downsample_wf (heap s) ds inpl pl st →
  returns (BasicBlock_init inpl pl st ds 1 64 1 (Some nn_GroupNorm) la) s
    (λ b s', same_shapes (heap s) (heap s') ∧ BasicBlock_wf (heap s') b inpl pl st).
Proof.
  intros Hpl Hds. unfold BasicBlock_init, super_init, conv3x3.
  rewrite decide_True by done.
  apply returns_bind, returns_ret. cbn [Nat.eqb negb orb Nat.ltb Nat.leb].
  change (default nn_BatchNorm2d (Some nn_GroupNorm)) with nn_GroupNorm.
  run_with new_Conv2d_plain_returns. intros c1 s1 [S1 W1].
  run_with call_norm_layer_returns; [done|]. intros n1 s2 [S2 W2].
  run_with new_Conv2d_plain_returns. intros c2 s3 [S3 W3].
  run_with call_norm_layer_returns; [done|]. intros n2 s4 [S4 W4].
  apply returns_ret. split; [eauto using same_shapes_trans|].
  unfold BasicBlock_wf. cbn.
  split_and!; eauto 8 using Conv2d_wf_mono, GroupNorm_wf_mono, Downsample_wf_mono,
    same_shapes_trans.
Qed.

Lemma make_rest_returns self pl blocks la idx (s : state T) :
  mk_norm_layer self = nn_GroupNorm → mk_groups self = 1 →
  mk_base_width self = 64 → mk_dilation self = 1 → mk_inplanes self = pl →
  gn_ok pl = true →
  returns (make_rest self cBasicBlock pl blocks la idx) s
    (λ bs s', same_shapes (heap s) (heap s')
              ∧ Forall (λ b, Block_wf (heap s') b pl pl 1) bs).
Proof.
  intros Hn Hg Hw Hd Hi Hpl. revert s.
  induction idx as [|i idx IH]; intros s; cbn [make_rest].
  - apply returns_ret. split; [apply same_shapes_refl|constructor].
  - rewrite Hn, Hg, Hw, Hd, Hi. cbn [block_init].
    apply returns_bind, returns_bind.
    eapply returns_mono; [apply BasicBlock_init_returns; [done|]|].
    { unfold Downsample_wf. rewrite !Nat.eqb_refl. done. }
    cbv beta. intros b s1 [S1 W1]. apply returns_ret, returns_bind.
    eapply returns_mono; [apply IH|]. cbv beta. intros bs s2 [S2 W2].
    apply returns_ret. split; [eauto using same_shapes_trans|].
    apply Forall_cons_2; [|done]. by eapply (Block_wf_mono _ _ (IsBasicBlock b)).
Qed.

Lemma _make_layer_returns self pl blocks st la (s : state T) :
  mk_norm_layer self = nn_GroupNorm → mk_groups self = 1 →
  mk_base_width self = 64 → mk_dilation self = 1 →
  gn_ok pl = true →
  returns (_make_layer self cBasicBlock pl blocks st false la) s
    (λ r s', same_shapes (heap s) (heap s')
             ∧ layer_wf (heap s') r.1 (mk_inplanes self) pl st
             ∧ r.2 = set_inplanes self pl).
Proof.
  intros Hn Hg Hw Hd Hpl. unfold _make_layer. cbv zeta. cbn [expansion].
  rewrite Nat.mul_1_r, Hn, Hg, Hw, Hd. cbn [block_init].
  apply returns_bind.
  apply (returns_mono _ _
    (λ ds s1, same_shapes (heap s) (heap s1)
              ∧ Downsample_wf (heap s1) ds (mk_inplanes self) pl st)).
  { unfold Downsample_wf.
    destruct (negb (st =? 1) || negb (mk_inplanes self =? pl)).
    - unfold conv1x1. run_with new_Conv2d_plain_returns. intros c s1 [S1 W1].
      rewrite Nat.min_comm.
      run_with call_norm_layer_returns; [done|]. intros n s2 [S2 W2].
      apply returns_ret. split; [eauto using same_shapes_trans|].
      eexists. split; [done|]. cbn. eauto using Conv2d_wf_mono.
    - apply returns_ret. split; [apply same_shapes_refl|done]. }
  intros ds s1 [S1 W1].
  apply returns_bind, returns_bind.
  eapply returns_mono; [by apply BasicBlock_init_returns|]. cbv beta.
  intros b s2 [S2 W2]. apply returns_ret, returns_bind.
  eapply returns_mono; [by apply make_rest_returns|]. cbv beta.
  intros bs s3 [S3 W3]. apply returns_ret. cbn [fst snd].
  split_and!; [eauto using same_shapes_trans| |done].
  split; [|done]. by eapply (Block_wf_mono _ _ (IsBasicBlock b)).
Qed.
End LayerConstructors.

Section InitLoops.
Context {T : Type} `{Torch T}.
Implicit Types h : list T.

Lemma returns_index {A B} (xs : list A) i v (k : A → M T B) s P :
  xs !! i = Some v → returns (k v) s P → returns (bind (index xs i) k) s P.
Proof.
  intros Hv Hk. apply returns_bind. unfold index. rewrite Hv. by apply returns_ret.
Qed.

Lemma has_shape_is_Some h l sh : has_shape h l sh → is_Some (h !! l).
Proof. by intros (v & -> & _). Qed.

Lemma same_shapes_is_Some h h' l : same_shapes h h' → is_Some (h !! l) → is_Some (h' !! l).
Proof.
  intros Hs [v Hv]. eapply has_shape_is_Some, Hs. by exists v.
Qed.

Lemma same_shapes_length h h' : same_shapes h h' → length h ≤ length h'.
Proof.
  intros Hs. destruct (decide (length h = 0)) as [->|Hne]; [lia|].
  assert (Hl : is_Some (h !! (length h - 1))) by (apply lookup_lt_is_Some; lia).
  apply (same_shapes_is_Some _ _ _ Hs), lookup_lt_is_Some in Hl. lia.
Qed.

Lemma write_returns l (v : T) (s : state T) old :
  heap s !! l = Some old → shape v = shape old →
  returns (write l v) s (λ _ s', same_shapes (heap s) (heap s')).
Proof.
  intros Hl Hv. exists tt. eexists. unfold write. rewrite Hl. split; [done|].
  cbn [heap]. intros l' sh (u & Hu & Hsh).
  destruct (decide (l' = l)) as [->|Hne].
  - exists v. split; [|congruence].
    apply list_lookup_insert_eq. by eapply lookup_lt_Some.
  - exists u. split; [|done]. by rewrite list_lookup_insert_ne.
Qed.

Lemma kaiming_normal__returns w (s : state T) :
  is_Some (heap s !! w) →
  returns (kaiming_normal_ w) s (λ _ s', same_shapes (heap s) (heap s')).
Proof.
  intros [old Hw]. unfold kaiming_normal_.
  apply returns_bind. exists old, s. split; [unfold read; by rewrite Hw|].
  apply returns_bind. eexists _, _. split; [reflexivity|].
  eapply (write_returns _ _ (State (heap s) (S (gen s)))); [exact Hw|apply shape_sample].
Qed.

Lemma constant__returns w c (s : state T) :
  is_Some (heap s !! w) →
  returns (constant_ w c) s (λ _ s', same_shapes (heap s) (heap s')).
Proof.
  intros [old Hw]. unfold constant_.
  apply returns_bind. exists old, s. split; [unfold read; by rewrite Hw|].
  eapply write_returns; [exact Hw|apply shape_full].
Qed.

Lemma init_leaf_returns m (s : state T) :
  Forall (λ l, is_Some (heap s !! l)) (leaf_locs m) →
  returns (init_leaf m) s (λ _ s', same_shapes (heap s) (heap s')).
Proof.
  destruct m as [c|n]; cbn [init_leaf leaf_locs].
  - unfold Conv2d_locs. intros [Hw _]%Forall_cons. by apply kaiming_normal__returns.
  - intros Hn.
    assert (Hwb : is_Some (heap s !! Norm_weight n) ∧ is_Some (heap s !! Norm_bias n)).
    { destruct n; cbn in *; by repeat apply Forall_cons in Hn as [? Hn]. }
    destruct Hwb as [Hw Hb]. apply returns_bind.
    eapply returns_mono; [by apply constant__returns|]. cbv beta. intros _ s1 S1.
    eapply returns_mono; [eapply constant__returns, same_shapes_is_Some; done|].
    cbv beta. eauto using same_shapes_trans.
Qed.

Lemma for_each_returns {A} (f : A → M T unit) (Q : A → list T → Prop) xs :
  (∀ x h h', same_shapes h h' → Q x h → Q x h') →
  (∀ x s, Q x (heap s) → returns (f x) s (λ _ s', same_shapes (heap s) (heap s'))) →
  ∀ s, Forall (λ x, Q x (heap s)) xs →
       returns (for_each f xs) s (λ _ s', same_shapes (heap s) (heap s')).
Proof.
  intros HQ Hf. induction xs as [|x xs IH]; intros s Hxs; cbn [for_each].
  - apply returns_ret, same_shapes_refl.
  - apply Forall_cons in Hxs as [Hx Hxs]. apply returns_bind.
    eapply returns_mono; [by apply Hf|]. cbv beta. intros _ s1 S1.
    eapply returns_mono; [apply IH|].
    + eapply Forall_impl; [exact Hxs|]. intros y. by apply HQ.
    + cbv beta. eauto using same_shapes_trans.
Qed.

Lemma Conv2d_wf_locs h c cin cout k st p :
  Conv2d_wf h c cin cout k st p → Forall (λ l, is_Some (h !! l)) (Conv2d_locs c).
Proof.
  intros (_&_&_&_&_&_&_&Hw&Hb). unfold Conv2d_locs.
  apply Forall_cons_2; [by eapply has_shape_is_Some|].
  destruct (conv_bias c); cbn; [|constructor].
  apply Forall_cons_2; [by eapply has_shape_is_Some|constructor].
Qed.

Lemma GroupNorm_wf_locs h n C :
  GroupNorm_wf h n C → Forall (λ l, is_Some (h !! l)) (Norm_locs n).
Proof.
  intros (w & b & -> & Hw & Hb). cbn.
  repeat apply Forall_cons_2; eauto using has_shape_is_Some.
Qed.

Lemma Block_wf_leaves h b inpl pl st :
  Block_wf h b inpl pl st →
  Forall (λ m, Forall (λ l, is_Some (h !! l)) (leaf_locs m)) (Block_leaves b).
Proof.
  destruct b as [|b|]; cbn [Block_wf]; try done.
  intros (W1 & W2 & W3 & W4 & W5). cbn [Block_leaves].
  apply Forall_app. split.
  - repeat (apply Forall_cons_2;
        [cbn [leaf_locs]; first [by eapply Conv2d_wf_locs | by eapply GroupNorm_wf_locs]|]).
      constructor.
  - unfold Downsample_wf in W5. case_match.
    + destruct W5 as (d & -> & Wc & Wn). cbn.
      repeat (apply Forall_cons_2;
        [cbn [leaf_locs]; first [by eapply Conv2d_wf_locs | by eapply GroupNorm_wf_locs]|]).
      constructor.
    + rewrite W5. constructor.
Qed.

Lemma layer_wf_leaves h bs inpl pl st :
  layer_wf h bs inpl pl st →
  Forall (λ m, Forall (λ l, is_Some (h !! l)) (leaf_locs m))
    (concat (map Block_leaves bs)).
Proof.
  destruct bs as [|b rest]; cbn [layer_wf]; [done|]. intros [Hb Hrest].
  cbn. apply Forall_app. split; [by eapply Block_wf_leaves|].
  induction Hrest as [|b' rest' Hb' _ IH]; cbn; [constructor|].
  apply Forall_app. split; [by eapply Block_wf_leaves|done].
Qed.

Lemma layer_wf_blocks h bs inpl pl st :
  layer_wf h bs inpl pl st → Forall (λ b, ∃ i p t, Block_wf h b i p t) bs.
Proof.
  destruct bs as [|b rest]; cbn [layer_wf]; [done|]. intros [Hb Hrest].
  apply Forall_cons_2; [eauto|]. eapply Forall_impl; [exact Hrest|]. cbv beta. eauto.
Qed.

Lemma zero_init_block_returns b (s : state T) :
  (∃ i p t, Block_wf (heap s) b i p t) →
  returns (zero_init_block b) s (λ _ s', same_shapes (heap s) (heap s')).
Proof.
  intros (i & p & t & Hb). destruct b as [|b|]; cbn [Block_wf] in Hb; try done.
  destruct Hb as (_ & _ & _ & (w & b' & E & Hw & _) & _).
  cbn [zero_init_block]. rewrite E. cbn [Norm_weight].
  by eapply constant__returns, has_shape_is_Some.
Qed.

Lemma final_pool_returns (ty : string) nof fof (s : state T) :
  returns
    (if String.eqb ty "avg_pool"
     then ret (Some (Some (AdaptiveAvgPool2d 1 1)))
     else if String.eqb ty "1x1_pool"
     then c <- new_Conv2d nof fof 1 1 0 1 1 true ;; ret (Some (Some (PoolConv c)))
     else if String.eqb ty "id" then ret (Some None) else ret None) s
    (λ p s', same_shapes (heap s) (heap s') ∧ FinalPool_wf (heap s') p ty nof fof).
Proof.
  unfold FinalPool_wf. repeat case_match;
    try (apply returns_ret; split; [apply same_shapes_refl|done]).
  run_with new_Conv2d_bias_returns. intros c s1 [S1 W1].
  apply returns_ret. eauto.
Qed.

Lemma final_ln_returns (fl : bool) (filters : list nat) (s : state T) :
  filters ≠ [] →
  returns (if fl then n <- index_last filters ;; new_LayerNorm n else ret LnIdentity) s
    (λ _ s', same_shapes (heap s) (heap s')).
Proof.
  intros Hne. destruct fl; [|apply returns_ret, same_shapes_refl].
  unfold index_last. destruct (last filters) as [n|] eqn:E.
  - apply returns_bind, returns_ret.
    unfold new_LayerNorm, bind, alloc, ret. cbn. eexists _, _. split; [reflexivity|].
    cbn [heap]. rewrite <- app_assoc. apply same_shapes_app.
  - by apply last_None in E.
Qed.

Lemma make_optional_layer_returns self a rswd i la nof f l t (s : state T) :
  a_block a = cBasicBlock →
  a_filters a !! i = Some f → a_layers a !! i = Some l → a_strides a !! i = Some t →
  rswd !! (i - 1) = Some false →
  mk_norm_layer self = nn_GroupNorm → mk_groups self = 1 →
  mk_base_width self = 64 → mk_dilation self = 1 →
  gn_ok f = true →
  returns (make_optional_layer true self a rswd i la nof) s
    (λ r s', same_shapes (heap s) (heap s')
             ∧ ∃ bs, r = (Some bs, set_inplanes self f, f)
                     ∧ layer_wf (heap s') bs (mk_inplanes self) f t).
Proof.
  intros Hb Hf Hl Ht Hr Hn Hg Hw Hd Hok. unfold make_optional_layer. rewrite Hb.
  eapply returns_index; [exact Hf|]. eapply returns_index; [exact Hf|].
  eapply returns_index; [exact Hl|]. eapply returns_index; [exact Ht|].
  eapply returns_index; [exact Hr|].
  run_with _make_layer_returns; try done.
  intros [bs m] s1 (S1 & W1 & E). cbn [fst snd] in *. subst m.
  apply returns_ret. eauto.
Qed.
End InitLoops.

(** Carries every well-formedness fact along the recorded heap changes. *)
Ltac lift_wf :=
  repeat match goal with
  | S : same_shapes ?h _, W : Conv2d_wf ?h _ _ _ _ _ _ |- _ =>
      apply (Conv2d_wf_mono _ _ _ _ _ _ _ _ S) in W
  | S : same_shapes ?h _, W : GroupNorm_wf ?h _ _ |- _ =>
      apply (GroupNorm_wf_mono _ _ _ _ S) in W
  | S : same_shapes ?h _, W : layer_wf ?h _ _ _ _ |- _ =>
      apply (layer_wf_mono _ _ _ _ _ _ S) in W
  | S : same_shapes ?h _, W : FinalPool_wf ?h _ _ _ _ |- _ =>
      apply (FinalPool_wf_mono _ _ _ _ _ _ S) in W
  end.

Ltac chain_shapes :=
  repeat match goal with
  | S : same_shapes ?h _ |- same_shapes ?h _ =>
      first [exact S | apply (same_shapes_trans _ _ _ S)]
  end;
  try apply same_shapes_refl.

Ltac run_layer a i f l t :=
  apply returns_bind; eapply returns_mono;
  [eapply (make_optional_layer_returns _ a _ i _ _ f l t)|]; cbv beta.

Section NetworkConstructor.
Context {T : Type} `{Torch T}.
Implicit Types h : list T.

Lemma FinalPool_wf_leaves h p ty cin cout :
  FinalPool_wf h p ty cin cout →
  Forall (λ m, Forall (λ l, is_Some (h !! l)) (leaf_locs m)) (FinalPool_leaves p).
Proof.
  unfold FinalPool_wf. repeat case_match; try (intros ->; constructor).
  intros (c & -> & Wc). cbn. apply Forall_cons_2; [|constructor].
  by eapply Conv2d_wf_locs.
Qed.

Lemma leaf_locs_mono h h' (m : leaf) :
  same_shapes h h' →
  Forall (λ l, is_Some (h !! l)) (leaf_locs m) →
  Forall (λ l, is_Some (h' !! l)) (leaf_locs m).
Proof.
  intros Hs Hm. eapply Forall_impl; [exact Hm|]. intros l. by apply same_shapes_is_Some.
Qed.

Lemma Block_wf_some_mono h h' (b : Block) :
  same_shapes h h' →
  (∃ i p t, Block_wf h b i p t) → ∃ i p t, Block_wf h' b i p t.
Proof. intros Hs (i & p & t & Hb). eauto using Block_wf_mono. Qed.

Lemma ResNet_init_returns a f0 f1 f2 f3 t0 t1 t2 t3 l0 l1 l2 l3 (s : state T) :
  a_block a = cBasicBlock → a_layers a = [l0; l1; l2; l3] →
  a_filters a = [f0; f1; f2; f3] → a_strides a = [t0; t1; t2; t3] →
  a_groups a = 1 → a_width_per_group a = 64 →
  a_replace_stride_with_dilation a = None → a_norm_layer a = None →
  gn_ok f0 = true → gn_ok f1 = true → gn_ok f2 = true → gn_ok f3 = true →
  returns (ResNet_init a) s
    (λ net s', same_shapes (heap s) (heap s')
               ∧ ResNet_wf (heap s') net a f0 f1 f2 f3 t0 t1 t2 t3).
Proof.
  intros Hb Hl Hf Ht Hg Hw Hr Hn G0 G1 G2 G3.
  unfold ResNet_init. cbv zeta. rewrite Hr, Hn. cbn [default length Nat.eqb negb].
  eapply returns_index; [by rewrite Hf|]. eapply returns_index; [by rewrite Hf|].
  run_with new_Conv2d_plain_returns. intros c1 s1 [S1 W1].
  run_with call_norm_layer_returns; [done|]. intros n1 s2 [S2 W2].
  eapply returns_index; [by rewrite Hl|]. eapply returns_index; [by rewrite Ht|].
  rewrite Hb. run_with _make_layer_returns; [done|by cbn|by cbn|done|done|].
  intros [bs1 m1] s3 (S3 & W3 & E3). cbn [fst snd mk_inplanes] in *. subst m1.
  rewrite Hl. cbn [length Nat.leb Nat.eqb].
  run_layer a 1 f1 l1 t1;
    [done|by rewrite Hf|by rewrite Hl|by rewrite Ht|done|done|by cbn|by cbn|done|done|].
  intros r2 s4 (S4 & bs2 & -> & W4). cbn [fst snd set_inplanes mk_inplanes] in *.
  run_layer a 2 f2 l2 t2;
    [done|by rewrite Hf|by rewrite Hl|by rewrite Ht|done|done|by cbn|by cbn|done|done|].
  intros r3 s5 (S5 & bs3 & -> & W5). cbn [fst snd set_inplanes mk_inplanes] in *.
  run_layer a 3 f3 l3 t3;
    [done|by rewrite Hf|by rewrite Hl|by rewrite Ht|done|done|by cbn|by cbn|done|done|].
  intros r4 s6 (S6 & bs4 & -> & W6). cbn [fst snd set_inplanes mk_inplanes] in *.
  run_with final_pool_returns. intros fp s7 [S7 W7].
  run_with final_ln_returns; [by rewrite Hf|]. intros fl s8 S8.
  lift_wf.
  apply returns_bind.
  apply (returns_mono _ _ (λ _ s', same_shapes (heap s8) (heap s'))).
  { apply (for_each_returns _
             (λ m h, Forall (λ l, is_Some (h !! l)) (leaf_locs m))).
    - intros m h h'. apply leaf_locs_mono.
    - intros m s'. apply init_leaf_returns.
    - unfold ResNet_leaves, ResNet_blocks.
      cbn [conv1 bn1 layer1 layer2 layer3 layer4 final_pool layer_blocks default app].
      apply Forall_cons_2; [by eapply Conv2d_wf_locs|].
      apply Forall_cons_2; [by eapply GroupNorm_wf_locs|].
      rewrite !map_app, !concat_app, !Forall_app.
      split_and!; first [by eapply layer_wf_leaves | by eapply FinalPool_wf_leaves]. }
  intros _ s9 S9. lift_wf.
  apply returns_bind.
  apply (returns_mono _ _ (λ _ s', same_shapes (heap s9) (heap s'))).
  { destruct (a_zero_init_residual a); [|apply returns_ret, same_shapes_refl].
    apply (for_each_returns _ (λ b h, ∃ i p t, Block_wf h b i p t)).
    - intros b h h'. apply Block_wf_some_mono.
    - intros b s'. apply zero_init_block_returns.
    - unfold ResNet_blocks.
      cbn [layer1 layer2 layer3 layer4 layer_blocks default].
      rewrite !Forall_app. split_and!; by eapply layer_wf_blocks. }
  intros _ s10 S10. lift_wf.
  apply returns_ret. split; [chain_shapes|].
  unfold ResNet_wf. cbn. split_and!; eauto.
Qed.
End NetworkConstructor.

(** ** The encodings of [resnet18] *)

Section Resnet18.
Context {T : Type} `{Torch T}.
Implicit Types h : list T.

Lemma ResNet_wf_mono h h' net a f0 f1 f2 f3 t0 t1 t2 t3 :
  same_shapes h h' →
  ResNet_wf h net a f0 f1 f2 f3 t0 t1 t2 t3 →
  ResNet_wf h' net a f0 f1 f2 f3 t0 t1 t2 t3.
Proof.
  intros Hs (Hpad & Wc & Wn & Hmp & W1 & (l2 & E2 & W2) & (l3 & E3 & W3)
             & (l4 & E4 & W4) & Wp & Hsp).
  unfold ResNet_wf.
  split_and!; eauto 6 using Conv2d_wf_mono, GroupNorm_wf_mono, layer_wf_mono,
    FinalPool_wf_mono.
Qed.

Lemma call_ResNet_returns explicit extra n a (s : state T) net s' :
  bind_ResNet_args explicit extra = Ok a →
  ResNet_init a s = (Ok net, s') →
  with_channels explicit n extra s = (Ok (net, n), s').
Proof.
  intros Ea E. unfold with_channels, call_ResNet.
  erewrite bind_Ok; [reflexivity|]. erewrite bind_Ok; [exact E|].
  unfold lift. by rewrite Ea.
Qed.
(** A network of four [BasicBlock] layers is built, and its [forward]
    returns encodings of the shape that the arguments determine. *)
Lemma ResNet_init_encodings a f0 f1 f2 f3 t0 t1 t2 t3 l0 l1 l2 l3 (s0 : state T) :
  a_block a = cBasicBlock → a_layers a = [l0; l1; l2; l3] →
  a_filters a = [f0; f1; f2; f3] → a_strides a = [t0; t1; t2; t3] →
  a_groups a = 1 → a_width_per_group a = 64 → a_widen a = 1 → f0 = 64 →
  a_replace_stride_with_dilation a = None → a_norm_layer a = None →
  gn_ok f1 = true → gn_ok f2 = true → gn_ok f3 = true →
  1 ≤ t0 → 1 ≤ t1 → 1 ≤ t2 → 1 ≤ t3 →
  valid_pool (a_final_pool_type a) = true →
  ∃ net s1,
    ResNet_init a s0 = (Ok net, s1)
    ∧ ∀ (s : state T) x xv B Hh W,
        same_shapes (heap s1) (heap s) →
        heap s !! x = Some xv →
        shape xv = [B; a_num_channels a; Hh; W] →
        3 ≤ Hh → 3 ≤ W →
        encodings_shape (ResNet_forward net x s)
          (encodings_shape_of a f3 t0 t1 t2 t3 B Hh W).
Proof.
  intros Hb Hl Hf Ht Hg Hw Hwd -> Hr Hn G1 G2 G3 T0 T1 T2 T3 Hp.
  assert (G0 : gn_ok 64 = true) by (vm_compute; reflexivity).
  destruct (ResNet_init_returns a 64 f1 f2 f3 t0 t1 t2 t3 l0 l1 l2 l3 s0)
    as (net & s1 & E & S1 & Wf); [done..|].
  exists net, s1. split; [done|].
  intros s x xv B Hh W Hs Hx Hshape HH HW.
  destruct (ResNet_apply_shape (heap s) net a 64 f1 f2 f3 t0 t1 t2 t3 xv B Hh W)
    as (y & Ey & Hy); try done.
  { by eapply ResNet_wf_mono. }
  { by rewrite Hw, Hwd. }
  assert (Hnet : ResNet_in net (length (heap s))).
  { destruct (ResNet_init_built a s0 net s1) as [_ Hin]; [by rewrite Hn|done|].
    eapply leaves_in_mono; [exact Hin|]. by apply same_shapes_length. }
  destruct (ResNet_forward_Ok net x s xv y Hnet Hx Ey) as (o & Eo & Ho).
  exists o, y. by split_and!.
Qed.

Lemma kw_get_app p (k1 k2 : kwargs) :
  kw_get p (k1 ++ k2) = match kw_get p k1 with
                        | Some v => Some v
                        | None => kw_get p k2
                        end.
Proof.
  induction k1 as [|[q v] k1 IH]; cbn; [done|]. by destruct (decide (q = p)).
Qed.

(** A call that passes no [filters], or no [strides], raises [TypeError]
    before anything is built. *)
Lemma with_channels_missing explicit n extra (s : state T) :
  (kw_get p_filters explicit = None ∧ kw_get p_filters extra = None)
  ∨ (kw_get p_strides explicit = None ∧ kw_get p_strides extra = None) →
  with_channels explicit n extra s = (Raise TypeError, s).
Proof.
  intros Hmiss.
  assert (E : bind_ResNet_args explicit extra = Raise TypeError).
  { unfold bind_ResNet_args. destruct (kw_clash explicit extra); [done|].
    rewrite (kw_get_app p_filters), (kw_get_app p_strides).
    destruct Hmiss as [[-> ->]|[-> ->]]; by repeat case_match. }
  unfold with_channels, call_ResNet, bind, lift. by rewrite E.
Qed.
Lemma with_channels_Ok_inv explicit n extra (s : state T) r s' :
  with_channels explicit n extra s = (Ok r, s') →
  ∃ a net, bind_ResNet_args explicit extra = Ok a
           ∧ ResNet_init a s = (Ok net, s') ∧ r = (net, n).
Proof.
  unfold with_channels, call_ResNet. intros E.
  apply bind_Ok_inv in E as (net & s1 & E & Er).
  apply bind_Ok_inv in E as (a & s2 & Ea & E).
  unfold lift in Ea. unfold ret in Er. simplify_eq. eauto.
Qed.
End Resnet18.

(** ** Networks laid out as [resnet18] *)

Section Constructed.
Context {T : Type} `{Torch T}.
Implicit Types h : list T.





End Constructed.

Section Resnet18Calls.
Context {T : Type} `{Torch T}.

End Resnet18Calls.




(** ** The exposed constructors called with their defaults *)

(** C2, as amended.  Called with their default hyperparameters, [resnet18]
    and [resnet18s_g] return a network with the companion value 512 and
    [None]; the network maps a non-empty batch of 3 and 6 channels and of
    height and width at least 3 to encodings of shape [B; 512] and
    [B; 64; h; w].  Every other exposed constructor leaves [filters] and
    [strides], which [ResNet.__init__] requires, to its caller: called
    without one of them it raises [TypeError] and builds nothing. *)
Theorem exposed_constructors_with_defaults {T : Type} `{Torch T} (s0 : state T) :
  (∃ net s1,
     resnet18 [] s0 = (Ok (net, Some 512), s1)
     ∧ ∀ (s : state T) x xv B Hh W,
         same_shapes (heap s1) (heap s) → heap s !! x = Some xv →
         shape xv = [B; 3; Hh; W] → 1 ≤ B → 3 ≤ Hh → 3 ≤ W →
         encodings_shape (ResNet_forward net x s) [B; 512])
  ∧ (∀ extra, ∃ net s1,
       resnet18s_g extra s0 = (Ok (net, None), s1)
       ∧ ∀ (s : state T) x xv B Hh W,
           same_shapes (heap s1) (heap s) → heap s !! x = Some xv →
           shape xv = [B; 6; Hh; W] → 1 ≤ B → 3 ≤ Hh → 3 ≤ W →
           encodings_shape (ResNet_forward net x s)
             [B; 64; resnet18s_g_extent Hh; resnet18s_g_extent W])
  ∧ (∀ extra,
       kw_get p_filters extra = None ∨ kw_get p_strides extra = None →
       Forall (λ ctor, ctor extra s0 = (Raise TypeError, s0))
         constructors_without_filters).
Proof.
  split_and!.
  - destruct (ResNet_init_encodings resnet18_args 64 128 256 512 1 2 2 2 2 2 2 2 s0)
      as (net & s1 & E & Hfwd); [first [done | lia | (vm_compute; reflexivity)]..|].
    exists net, s1. split; [by eapply call_ResNet_returns|].
    intros s x xv B Hh W Hs Hx Hshape _ HH HW.
    replace [B; 512] with (encodings_shape_of resnet18_args 512 1 2 2 2 B Hh W);
      [by eapply Hfwd|].
    unfold encodings_shape_of, pooled_shape. cbn [resnet18_args a_spatial_output
      a_final_pool_type]. rewrite String.eqb_refl. cbn [flat_shape].
    by rewrite !Nat.mul_1_r.
  - intros extra.
    destruct (bind_ResNet_args
      [kw p_block cBasicBlock; kw p_layers [2; 2; 2; 2];
       kw p_filters [64; 128; 128; 128]; kw p_strides [1; 2; 1; 1];
       kw p_num_channels 6; kw p_zero_init_residual true; kw p_groups 1;
       kw p_widen 1; kw p_width_per_group 64;
       kw p_replace_stride_with_dilation None; kw p_norm_layer None;
       kw p_last_activation "relu"; kw p_inital_maxpool false;
       kw p_final_pool_type "1x1_pool"; kw p_final_out_filters 64;
       kw p_spatial_output true; kw p_expand_factor 2; kw p_initial_padding true] [])
      as [a|e] eqn:Ea; [|vm_compute in Ea; discriminate].
    assert (Ha : a_final_pool_type a = "1x1_pool" ∧ a_final_out_filters a = 64
                 ∧ a_spatial_output a = true ∧ a_num_channels a = 6
                 ∧ a_initial_padding a = true ∧ a_inital_maxpool a = false).
    { vm_compute in Ea. by injection Ea as <-. }
    destruct Ha as (Hp & Hfo & Hsp & Hc & Hpad & Hmp).
    destruct (ResNet_init_encodings a 64 128 128 128 1 2 1 1 2 2 2 2 s0)
      as (net & s1 & E & Hfwd);
      [first [lia | (vm_compute; reflexivity) | by rewrite Hp
             | (vm_compute in Ea; by injection Ea as <-)]..|].
    exists net, s1. split; [by eapply call_ResNet_returns|].
    intros s x xv B Hh W Hs Hx Hshape _ HH HW. rewrite <- Hc in Hshape.
    replace [B; 64; resnet18s_g_extent Hh; resnet18s_g_extent W]
      with (encodings_shape_of a 128 1 2 1 1 B Hh W); [by eapply Hfwd|].
    unfold encodings_shape_of, pooled_shape. by rewrite Hsp, Hp, Hfo, Hpad, Hmp.
  - intros extra Hmiss. unfold constructors_without_filters.
    repeat apply Forall_cons_2; try apply Forall_nil_2.
    all: apply with_channels_missing.
    all: destruct Hmiss as [Hm|Hm]; [left|right]; (split; [reflexivity|exact Hm]).
Qed.

Lemma exposed_constructors_with_defaults_witness :
  resnet50 (T := sym) [kw p_filters [64; 128; 256; 512]] empty_state
  = (Raise TypeError, empty_state).
Proof.
  destruct (exposed_constructors_with_defaults (T := sym) empty_state)
    as (_ & _ & Hmiss).
  pose proof (Hmiss [kw p_filters [64; 128; 256; 512]] (or_intror eq_refl)) as HF.
  unfold constructors_without_filters in HF.
  do 2 apply Forall_cons in HF as [_ HF]. by apply Forall_cons in HF as [HF _].
Defined.

(** With [filters] and [strides] passed by the caller, such a constructor
    returns: [resnet34] with the filters and strides of [resnet18]. *)
Lemma resnet34_with_filters_returns {T : Type} `{Torch T} (s0 : state T) :
  ∃ net s1,
    resnet34 [kw p_filters [64; 128; 256; 512]; kw p_strides [1; 2; 2; 2]] s0
    = (Ok (net, Some 512), s1).
Proof.
  destruct (bind_ResNet_args
    [kw p_block cBasicBlock; kw p_layers [3; 4; 6; 3]]
    [kw p_filters [64; 128; 256; 512]; kw p_strides [1; 2; 2; 2]])
    as [a|e] eqn:Ea; [|vm_compute in Ea; discriminate].
  destruct (ResNet_init_returns a 64 128 256 512 1 2 2 2 3 4 6 3 s0)
    as (net & s1 & E & _);
    [first [(vm_compute; reflexivity) | (vm_compute in Ea; by injection Ea as <-)]..|].
  exists net, s1. by eapply call_ResNet_returns.
Qed.

(** The claim as the spec states it fails for [resnet34]: called with its
    default hyperparameters it raises. *)
Lemma resnet34_with_defaults_raises :
  resnet34 (T := sym) [] empty_state = (Raise TypeError, empty_state).
Proof. vm_compute. reflexivity. Qed.

(** * Further properties of the constructors and of [forward] *)

Section ID.
Context {T : Type} `{Torch T}.
Implicit Types h : list T.

Lemma BasicBlockID_init_raises inpl pl st ds g bw dil nl la (s : state T) :
  BasicBlockID_init inpl pl st ds g bw dil nl la s = (Raise TypeError, s).
Proof.
  unfold BasicBlockID_init, super_init. rewrite decide_False by done. reflexivity.
Qed.

Lemma _make_layer_BasicBlockID self pl blocks st dilate la (s : state T) r s' :
  _make_layer self cBasicBlockID pl blocks st dilate la s ≠ (Ok r, s').
Proof.
  intros E. unfold _make_layer in E. cbv zeta in E.
  apply bind_Ok_inv in E as (ds & s1 & _ & E).
  apply bind_Ok_inv in E as (b & s2 & E & _).
  cbn [block_init] in E. apply bind_Ok_inv in E as (b' & s3 & E & _).
  by rewrite BasicBlockID_init_raises in E.
Qed.

Lemma ResNet_init_BasicBlockID a (s : state T) :
  a_block a = cBasicBlockID → is_ok (ResNet_init a s).1 = false.
Proof.
  intros Hb. destruct (ResNet_init a s) as [[net|e] s'] eqn:E; [exfalso|done].
  unfold ResNet_init in E. cbv zeta in E. rewrite Hb in E.
  inv_run E. by eapply _make_layer_BasicBlockID.
Qed.
Lemma bind_ResNet_args_block explicit extra a v :
  bind_ResNet_args explicit extra = Ok a →
  kw_get p_block explicit = Some v → a_block a = v.
Proof.
  unfold bind_ResNet_args. intros Ea Hv.
  destruct (kw_clash explicit extra); [discriminate|].
  rewrite (kw_get_app p_block), Hv in Ea.
  destruct (kw_get p_layers _); [|discriminate].
  destruct (kw_get p_filters _); [|discriminate].
  destruct (kw_get p_strides _); [|discriminate].
  by injection Ea as <-.
Qed.

End ID.

(** X1.  [resnet18ID] never returns a network, whatever keyword arguments
    it is given and whatever the state: [BasicBlockID.__init__] starts with
    [super(BasicBlock, self).__init__()] on an object that is no
    [BasicBlock], so the first block that [_make_layer] builds raises, if
    nothing raised before. *)
Theorem resnet18ID_never_returns {T : Type} `{Torch T} (extra : kwargs) (s : state T) :
  is_ok (resnet18ID extra s).1 = false.
Proof.
  destruct (resnet18ID extra s) as [[r|e] s'] eqn:E; [exfalso|done].
  apply with_channels_Ok_inv in E as (a & net & Ea & E & _).
  pose proof (bind_ResNet_args_block _ _ _ cBasicBlockID Ea eq_refl) as Hb.
  pose proof (ResNet_init_BasicBlockID a s Hb) as Hno. by rewrite E in Hno.
Qed.

Section Pool.
Context {T : Type} `{Torch T}.
Implicit Types h : list T.

Lemma ResNet_init_final_pool a (s : state T) net s' :
  ResNet_init a s = (Ok net, s') →
  valid_pool (a_final_pool_type a) = false → final_pool net = None.
Proof.
  intros E Hv. unfold valid_pool in Hv.
  apply orb_false_iff in Hv as [Hv H3]. apply orb_false_iff in Hv as [H1 H2].
  unfold ResNet_init in E. cbv zeta in E. rewrite H1, H2, H3 in E.
  inv_run E. unfold ret in *. by simplify_eq.
Qed.

Lemma ResNet_forward_unassigned net x (s : state T) :
  final_pool net = None → is_ok (ResNet_forward net x s).1 = false.
Proof.
  intros Hp. destruct (ResNet_forward net x s) as [[o|e] s'] eqn:E; [exfalso|done].
  unfold ResNet_forward in E. rewrite Hp in E.
  do 9 (apply bind_Ok_inv in E as (? & ? & _ & E)).
  apply bind_Ok_inv in E as (? & ? & E & _). discriminate.
Qed.

Lemma make_optional_layer_present present self a rswd i la nof (s : state T) r s' :
  make_optional_layer present self a rswd i la nof s = (Ok r, s') →
  (is_Some r.1.1 ↔ present = true)
  ∧ (present = true →
     i < length (a_filters a) ∧ i < length (a_layers a) ∧ i < length (a_strides a)).
Proof.
  unfold make_optional_layer. destruct present; intros E.
  - inv_run E. index_facts. unfold ret in E. simplify_eq. cbn. split.
    + split; [done|eauto].
    + intros _. split_and!; by eapply lookup_lt_Some.
  - unfold ret in E. simplify_eq. cbn. split; [|done].
    split; [by intros [? ?]|done].
Qed.
End Pool.

(** X2.  A [final_pool_type] other than "avg_pool", "1x1_pool" and "id" is
    not refused by [ResNet.__init__], which then leaves [final_pool]
    unassigned: the [forward] of the network it returns never returns, on
    any input and in any state. *)
Theorem unrecognised_final_pool_type {T : Type} `{Torch T}
    a (s0 : state T) net s1 :
  ResNet_init a s0 = (Ok net, s1) →
  valid_pool (a_final_pool_type a) = false →
  ∀ x (s : state T), is_ok (ResNet_forward net x s).1 = false.
Proof.
  intros E Hv x s. apply ResNet_forward_unassigned.
  by eapply ResNet_init_final_pool.
Qed.

Lemma unrecognised_final_pool_type_witness :
  ∃ net s1,
    ResNet_init (T := sym) (with_options small_args [64] 1 false "max_pool") empty_state
    = (Ok net, s1)
    ∧ ∀ x (s : state sym), is_ok (ResNet_forward net x s).1 = false.
Proof.
  eexists _, _. split; [vm_compute; reflexivity|].
  eapply (unrecognised_final_pool_type (T := sym)
            (with_options small_args [64] 1 false "max_pool") empty_state).
  - vm_compute. reflexivity.
  - reflexivity.
Defined.

(** X3.  When [ResNet.__init__] returns, [layers], [filters] and
    [strides] are not empty; [layer2] and [layer3] are present exactly when
    [layers] has at least 2 and 3 entries, and [layer4] exactly when it has
    4: with 5 entries or more there is no fourth layer.  [filters] and
    [strides] have an entry for every layer that is present. *)
Theorem ResNet_init_layers {T : Type} `{Torch T} a (s : state T) net s' :
  ResNet_init a s = (Ok net, s') →
  1 ≤ length (a_layers a) ∧ 1 ≤ length (a_filters a) ∧ 1 ≤ length (a_strides a)
  ∧ (is_Some (layer2 net) ↔ 2 ≤ length (a_layers a))
  ∧ (is_Some (layer3 net) ↔ 3 ≤ length (a_layers a))
  ∧ (is_Some (layer4 net) ↔ length (a_layers a) = 4)
  ∧ (is_Some (layer2 net) → 2 ≤ length (a_filters a) ∧ 2 ≤ length (a_strides a))
  ∧ (is_Some (layer3 net) → 3 ≤ length (a_filters a) ∧ 3 ≤ length (a_strides a))
  ∧ (is_Some (layer4 net) → 4 ≤ length (a_filters a) ∧ 4 ≤ length (a_strides a)).
Proof.
  intros E. unfold ResNet_init in E. cbv zeta in E. inv_run E.
  repeat match goal with
  | E : make_optional_layer _ _ _ _ _ _ _ _ = (Ok _, _) |- _ =>
      apply make_optional_layer_present in E as [? ?]
  end.
  index_facts.
  repeat match goal with
  | Hi : _ !! _ = Some _ |- _ => apply lookup_lt_Some in Hi
  end.
  unfold ret in E. simplify_eq. cbn [layer2 layer3 layer4].
  rewrite ?Nat.leb_le, ?Nat.eqb_eq in *.
  split_and!; first
    [ lia | assumption
    | intros Hs;
      repeat match goal with
      | Hiff : is_Some ?x ↔ _, Hx : is_Some ?x |- _ => apply Hiff in Hx
      end;
      repeat match goal with
      | Himp : ?c → _, Hc : ?c |- _ => specialize (Himp Hc)
      end; lia ].
Qed.

Lemma ResNet_init_layers_witness :
  ∃ net s1,
    ResNet_init (T := sym) small_args empty_state = (Ok net, s1)
    ∧ ¬ is_Some (layer2 net).
Proof.
  destruct (ResNet_init (T := sym) small_args empty_state) as [[net|e] s1] eqn:E;
    [|vm_compute in E; discriminate].
  exists net, s1. split; [reflexivity|].
  destruct (ResNet_init_layers (T := sym) small_args empty_state net s1 E)
    as (_ & _ & _ & H2 & _).
  intros Hs. apply H2 in Hs. cbn in Hs. lia.
Defined.

Section Errors.
Context {T : Type} `{Torch T}.
Implicit Types h : list T.




Lemma returns_True {A} (m : M T A) s P : returns m s P → returns m s (λ _ _, True).
Proof. intros Hm. eapply returns_mono; [exact Hm|done]. Qed.


End Errors.





Section ZeroInit.
Context {T : Type} `{Torch T}.
Implicit Types h : list T.

Lemma constant__Ok_inv w c (s : state T) u s' :
  constant_ w c s = (Ok u, s') →
  ∃ old, heap s !! w = Some old ∧ heap s' = <[w := full (shape old) c]> (heap s).
Proof.
  unfold constant_, bind, read, write.
  destruct (heap s !! w) as [old|] eqn:E; [|discriminate].
  rewrite E. intros [= <- <-]. eauto.
Qed.

Lemma constant__zero_keeps w (s : state T) u s' w' :
  constant_ w 0 s = (Ok u, s') →
  (∃ sh, heap s !! w' = Some (full sh 0)) → ∃ sh, heap s' !! w' = Some (full sh 0).
Proof.
  intros (old & Hold & ->)%constant__Ok_inv [sh Hw'].
  destruct (decide (w' = w)) as [->|Hne].
  - exists (shape old). apply list_lookup_insert_eq. by eapply lookup_lt_Some.
  - exists sh. by rewrite list_lookup_insert_ne.
Qed.

Lemma constant__zero_sets w (s : state T) u s' :
  constant_ w 0 s = (Ok u, s') → ∃ sh, heap s' !! w = Some (full sh 0).
Proof.
  intros (old & Hold & ->)%constant__Ok_inv.
  exists (shape old). apply list_lookup_insert_eq. by eapply lookup_lt_Some.
Qed.

Lemma zero_init_block_zero b (s : state T) u s' :
  zero_init_block b s = (Ok u, s') →
  zero_weight (heap s') b ∧ ∀ b', zero_weight (heap s) b' → zero_weight (heap s') b'.
Proof.
  intros E.
  assert (Hk : (heap s' = heap s ∧ residual_norm b = None)
               ∨ ∃ n, residual_norm b = Some n ∧ constant_ (Norm_weight n) 0 s = (Ok u, s')).
  { destruct b; cbn [zero_init_block residual_norm] in *; eauto.
    unfold ret in E. left. by simplify_eq. }
  destruct Hk as [[Hh Hb]|(n & Hb & Ec)].
  - unfold zero_weight. rewrite Hb, Hh. done.
  - split.
    + unfold zero_weight. rewrite Hb. by eapply constant__zero_sets.
    + intros b'. unfold zero_weight. destruct (residual_norm b'); [|done].
      by eapply constant__zero_keeps.
Qed.

Lemma for_each_zero_init bs (s : state T) u s' :
  for_each zero_init_block bs s = (Ok u, s') →
  Forall (zero_weight (heap s')) bs
  ∧ ∀ b', zero_weight (heap s) b' → zero_weight (heap s') b'.
Proof.
  revert s. induction bs as [|b bs IH]; intros s E; cbn [for_each] in E.
  - unfold ret in E. simplify_eq. split; [constructor|done].
  - apply bind_Ok_inv in E as (u1 & s1 & E1 & E).
    apply zero_init_block_zero in E1 as [Hb Hkeep1].
    apply IH in E as [Hbs Hkeep]. split; [|by eauto].
    apply Forall_cons_2; eauto.
Qed.
End ZeroInit.

(** X6.  With [zero_init_residual] set, when [ResNet.__init__] returns, the
    weight of the last normalisation of every residual block ([bn2] of a
    [BasicBlock], [bn3] of a [Bottleneck]) is a tensor of zeros. *)
Theorem zero_init_residual_zeroes {T : Type} `{Torch T} a (s : state T) net s' :
  ResNet_init a s = (Ok net, s') →
  a_zero_init_residual a = true →
  Forall (zero_weight (heap s')) (ResNet_blocks net).
Proof.
  intros E Hz. unfold ResNet_init in E. cbv zeta in E. rewrite Hz in E.
  inv_run E.
  match goal with
  | Ez : for_each zero_init_block _ _ = (Ok _, _) |- _ =>
      apply for_each_zero_init in Ez as [Hall _]
  end.
  unfold ret in E. by simplify_eq.
Qed.

Lemma zero_init_residual_zeroes_witness :
  ∃ net s1,
    ResNet_init (T := sym) (with_options small_args [64] 1 true "avg_pool") empty_state
    = (Ok net, s1)
    ∧ Forall (zero_weight (heap s1)) (ResNet_blocks net).
Proof.
  eexists _, _. split; [vm_compute; reflexivity|].
  eapply (zero_init_residual_zeroes (T := sym)
            (with_options small_args [64] 1 true "avg_pool") empty_state).
  - vm_compute. reflexivity.
  - reflexivity.
Defined.

Section Layer.
Context {T : Type} `{Torch T}.
Implicit Types h : list T.

Lemma block_init_downsample c inpl pl st ds g bw dil nl la (s : state T) b s' :
  block_init c inpl pl st ds g bw dil nl la s = (Ok b, s') → Block_downsample b = ds.
Proof.
  destruct c; cbn [block_init]; intros E.
  - apply bind_Ok_inv in E as (b' & s1 & E & _).
    by rewrite BasicBlockID_init_raises in E.
  - apply bind_Ok_inv in E as (b' & s1 & E & Er). unfold ret in Er. simplify_eq.
    unfold BasicBlock_init in E. inv_run E. unfold ret in E. by simplify_eq.
  - apply bind_Ok_inv in E as (b' & s1 & E & Er). unfold ret in Er. simplify_eq.
    unfold Bottleneck_init in E. inv_run E. unfold ret in E. by simplify_eq.
Qed.

Lemma make_rest_plain self c pl blocks la idx (s : state T) bs s' :
  make_rest self c pl blocks la idx s = (Ok bs, s') →
  length bs = length idx ∧ Forall (λ b, Block_downsample b = None) bs.
Proof.
  revert s bs. induction idx as [|i idx IH]; intros s bs E; cbn [make_rest] in E.
  - unfold ret in E. by simplify_eq.
  - apply bind_Ok_inv in E as (b & s1 & Eb & E).
    apply bind_Ok_inv in E as (bs' & s2 & Ebs & E).
    unfold ret in E. simplify_eq.
    apply block_init_downsample in Eb. apply IH in Ebs as [Hlen Hall].
    split; [cbn; lia|by apply Forall_cons_2].
Qed.
End Layer.

(** X7.  A layer that [_make_layer] returns has [max(1, blocks)] blocks:
    one block even for [blocks = 0].  Its first block has a [downsample]
    exactly when the stride in use (1 under [dilate]) is not 1 or
    [inplanes] differs from [planes * expansion]; no later block has one.
    Afterwards [inplanes] is [planes * expansion], and [dilation] was
    multiplied by the stride under [dilate]. *)
Theorem make_layer_structure {T : Type} `{Torch T}
    self c pl blocks st dilate la (s : state T) r s' :
  _make_layer self c pl blocks st dilate la s = (Ok r, s') →
  ∃ first rest,
    r.1 = first :: rest
    ∧ length r.1 = max 1 blocks
    ∧ (is_Some (Block_downsample first)
       ↔ (if dilate then 1 else st) ≠ 1 ∨ mk_inplanes self ≠ pl * expansion c)
    ∧ Forall (λ b, Block_downsample b = None) rest
    ∧ mk_inplanes r.2 = pl * expansion c
    ∧ mk_dilation r.2 = (if dilate then mk_dilation self * st else mk_dilation self).
Proof.
  intros E. unfold _make_layer in E. cbv zeta in E.
  apply bind_Ok_inv in E as (ds & s1 & Eds & E).
  apply bind_Ok_inv in E as (b & s2 & Eb & E).
  apply bind_Ok_inv in E as (bs & s3 & Ebs & E).
  unfold ret in E. simplify_eq. cbn [fst snd].
  apply block_init_downsample in Eb. apply make_rest_plain in Ebs as [Hlen Hall].
  exists b, bs. split_and!; try done.
  - cbn [length]. rewrite Hlen, length_seq. lia.
  - rewrite Eb. clear Eb.
    replace (mk_inplanes (if dilate then set_dilation self (mk_dilation self * st)
                          else self)) with (mk_inplanes self) in Eds
      by (by destruct dilate).
    destruct (negb ((if dilate then 1 else st) =? 1)
              || negb (mk_inplanes self =? pl * expansion c)) eqn:Hc.
    + apply bind_Ok_inv in Eds as (cv & s4 & _ & Eds).
      apply bind_Ok_inv in Eds as (nv & s5 & _ & Eds).
      unfold ret in Eds. simplify_eq.
      split; [intros _|by eauto].
      apply orb_true_iff in Hc as [Hc|Hc]; [left|right];
        by apply negb_true_iff, Nat.eqb_neq in Hc.
    + unfold ret in Eds. simplify_eq.
      apply orb_false_iff in Hc as [Hc1 Hc2].
      apply negb_false_iff, Nat.eqb_eq in Hc1, Hc2.
      split; [by intros [? ?]|]. intros [?|?]; done.
  - by destruct dilate.
Qed.

Lemma make_layer_structure_witness :
  ∃ r s',
    _make_layer (T := sym) demo_maker cBasicBlock 128 0 2 false "relu" empty_state
    = (Ok r, s')
    ∧ length r.1 = 1.
Proof.
  destruct (_make_layer (T := sym) demo_maker cBasicBlock 128 0 2 false "relu"
              empty_state) as [[r|e] s'] eqn:E; [|vm_compute in E; discriminate].
  exists r, s'. split; [reflexivity|].
  destruct (make_layer_structure (T := sym) _ _ _ _ _ _ _ _ _ _ E)
    as (first & rest & _ & Hlen & _).
  exact Hlen.
Defined.

Section BlockShape.
Context {T : Type} `{Torch T}.
Implicit Types h : list T.

Lemma is_Some_lt h (ls : list nat) :
  Forall (λ l, is_Some (h !! l)) ls → Forall (λ l, l < length h) ls.
Proof.
  intros Hl. eapply Forall_impl; [exact Hl|]. intros l. apply lookup_lt_is_Some.
Qed.

Lemma BasicBlock_wf_in h b inpl pl st :
  BasicBlock_wf h b inpl pl st → Block_in (IsBasicBlock b) (length h).
Proof.
  intros Hb.
  pose proof (Block_wf_leaves h (IsBasicBlock b) inpl pl st Hb) as Hl.
  destruct Hb as (_ & (w1 & b1 & E1 & _) & _ & (w2 & b2 & E2 & _) & Hds).
  unfold Block_in, leaves_in. cbn [Block_leaves] in *.
  assert (Hg : Forall (λ m, leaf_is_group m = true)
                 ([LeafConv (bb_conv1 b); LeafNorm (bb_bn1 b); LeafConv (bb_conv2 b);
                   LeafNorm (bb_bn2 b)] ++ Downsample_leaves (bb_downsample b))).
  { rewrite E1, E2. apply Forall_app. split; [repeat constructor|].
    unfold Downsample_wf in Hds. case_match.
    - destruct Hds as (d & -> & _ & (w & b' & E & _)). cbn. rewrite E.
      repeat constructor.
    - rewrite Hds. constructor. }
  revert Hl Hg. generalize ([LeafConv (bb_conv1 b); LeafNorm (bb_bn1 b);
    LeafConv (bb_conv2 b); LeafNorm (bb_bn2 b)]
    ++ Downsample_leaves (bb_downsample b)).
  intros ms Hl Hg. induction Hl as [|m ms Hm _ IH]; [constructor|].
  apply Forall_cons in Hg as [Hg1 Hg]. apply Forall_cons_2; [|by apply IH].
  split; [by apply is_Some_lt|done].
Qed.
End BlockShape.

(** X8.  On a [BasicBlock] built for [inplanes], [planes] and [stride] with
    [GroupNorm], [forward] maps a batch of shape [n; inplanes; h; w] to a
    new tensor of shape [n; planes; (h - 1) / stride + 1; (w - 1) / stride + 1]
    and leaves every tensor that existed before, the input among them,
    and the generator as they were. *)
Theorem BasicBlock_forward_shape {T : Type} `{Torch T}
    (h : list T) g b inpl pl st x xv n hh ww :
  BasicBlock_wf h b inpl pl st → gn_ok pl = true → 1 ≤ st →
  h !! x = Some xv → shape xv = [n; inpl; hh; ww] → 1 ≤ hh → 1 ≤ ww →
  ∃ y h' v,
    BasicBlock_forward b x (State h g) = (Ok y, State h' g)
    ∧ length h ≤ y ∧ h' !! y = Some v
    ∧ shape v = [n; pl; down hh st; down ww st]
    ∧ ∀ l, l < length h → h' !! l = h !! l.
Proof.
  intros Hb Hpl Hst Hx Hshape Hh Hw.
  destruct (BasicBlock_forward_run h b x h g xv) as (h' & [_ K] & Y);
    [by eapply BasicBlock_wf_in|apply keeps_refl|done|].
  destruct (BasicBlock_apply_shape h b inpl pl st xv n hh ww) as (v & Ev & Hv);
    [done..|].
  rewrite Ev in Y. destruct Y as (y & Ey & Hy & Hyv).
  exists y, h', v. by split_and!.
Qed.

Lemma BasicBlock_forward_shape_witness :
  ∃ y h' v,
    BasicBlock_forward demo_block 6 (State demo_heap 2) = (Ok y, State h' 2)
    ∧ length demo_heap ≤ y ∧ h' !! y = Some v
    ∧ shape v = [1; 64; down 8 1; down 8 1]
    ∧ ∀ l, l < length demo_heap → h' !! l = demo_heap !! l.
Proof.
  apply (BasicBlock_forward_shape (T := sym) demo_heap 2 demo_block 64 64 1 6
           (Sym [1; 64; 8; 8] (tInput 0)) 1 8 8);
    try first [reflexivity | lia | (vm_compute; reflexivity)].
  unfold BasicBlock_wf, Conv2d_wf, GroupNorm_wf, Downsample_wf, has_shape.
  split_and!;
    first [ reflexivity
          | (eexists; split; reflexivity)
          | (eexists _, _; split_and!; [reflexivity|eexists; split; reflexivity..]) ].
Defined.



Section Frames.
Context {T : Type} `{Torch T}.
Implicit Types h : list T.

Lemma frames_ret {A} lo (a : A) (Q : A → Prop) : Q a → frames (T := T) lo (ret a) Q.
Proof.
  intros HQ s r s' _ [= <- <-]. split; [apply keeps_refl|]. by intros ? [= <-].
Qed.

Lemma frames_raise {A} lo e (Q : A → Prop) : frames (T := T) lo (raise e) Q.
Proof. intros s r s' _ [= <- <-]. split; [apply keeps_refl|done]. Qed.

Lemma frames_bind {A B} lo (m : M T A) (k : A → M T B) Q1 (Q2 : B → Prop) :
  frames lo m Q1 → (∀ a, Q1 a → frames lo (k a) Q2) → frames lo (bind m k) Q2.
Proof.
  intros Hm Hk s r s' Hlo E. unfold bind in E.
  destruct (m s) as [[a|e] s1] eqn:Em.
  - destruct (Hm _ _ _ Hlo Em) as [K1 Ha].
    assert (Hlo1 : lo ≤ length (heap s1)) by (destruct K1; lia).
    destruct (Hk a (Ha a eq_refl) _ _ _ Hlo1 E) as [K2 Hb].
    split; [by eapply keeps_trans|done].
  - injection E as <- <-. destruct (Hm _ _ _ Hlo Em) as [K1 _]. by split.
Qed.

Lemma frames_mono {A} lo (m : M T A) (Q Q' : A → Prop) :
  frames lo m Q → (∀ a, Q a → Q' a) → frames lo m Q'.
Proof.
  intros Hm HQ s r s' Hlo E. destruct (Hm _ _ _ Hlo E) as [K Ha]. split; eauto.
Qed.

Lemma frames_pure {A} lo (m : M T A) :
  (∀ s, (m s).2 = s) → frames lo m (λ _, True).
Proof.
  intros Hm s r s' _ E. pose proof (Hm s) as Hs. rewrite E in Hs. cbn in Hs. subst s'.
  split; [apply keeps_refl|done].
Qed.

Lemma frames_index {A} lo (xs : list A) i : frames (T := T) lo (index xs i) (λ _, True).
Proof. apply frames_pure. intros s. unfold index. by destruct (xs !! i). Qed.

Lemma frames_index_last {A} lo (xs : list A) :
  frames (T := T) lo (index_last xs) (λ _, True).
Proof. apply frames_pure. intros s. unfold index_last. by destruct (last xs). Qed.

Lemma frames_read lo l : frames (T := T) lo (read l) (λ _, True).
Proof. apply frames_pure. intros s. unfold read. by destruct (heap s !! l). Qed.

Lemma frames_draw lo : frames (T := T) lo draw (λ _, True).
Proof.
  intros s r s' _ [= <- <-]. split; [apply keeps_refl|done].
Qed.

Lemma frames_alloc lo (v : T) : frames lo (alloc v) (λ l, lo ≤ l).
Proof.
  intros s r s' Hlo [= <- <-]. cbn [heap]. split.
  - eapply keeps_weaken; [apply keeps_app|done].
  - by intros ? [= <-].
Qed.

Lemma frames_write lo l (v : T) : lo ≤ l → frames lo (write l v) (λ _, True).
Proof.
  intros Hl s r s' _ E. unfold write in E.
  destruct (heap s !! l); injection E as <- <-; cbn [heap].
  - split; [by apply keeps_insert|done].
  - split; [apply keeps_refl|done].
Qed.
End Frames.

(** Splits a computation into its steps; [tac] handles the calls. *)
Ltac solve_frames_using tac :=
  repeat first
    [ apply frames_raise
    | tac
    | eapply frames_bind; [first [ apply frames_index | apply frames_index_last
                                 | apply frames_read | apply frames_draw
                                 | apply frames_alloc | tac ]
                          |intros ? ?]
    | match goal with
      | |- frames _ (if ?c then _ else _) _ => destruct c
      end ].

Section Frames2.
Context {T : Type} `{Torch T}.
Implicit Types h : list T.

Lemma frames_new_param lo sh : frames (T := T) lo (new_param sh) (λ l, lo ≤ l).
Proof.
  unfold new_param. eapply frames_bind; [apply frames_draw|intros ? _].
  apply frames_alloc.
Qed.

Lemma frames_new_Conv2d lo cin cout k st p d g wb :
  frames (T := T) lo (new_Conv2d cin cout k st p d g wb)
    (λ c, Forall (λ l, lo ≤ l) (Conv2d_locs c)).
Proof.
  unfold new_Conv2d. repeat (case_match; [apply frames_raise|]).
  eapply frames_bind; [apply frames_new_param|intros w Hw].
  apply (frames_bind _ _ _ (λ b, Forall (λ l, lo ≤ l) (from_option (λ b, [b]) [] b))).
  - destruct wb; [|apply frames_ret; constructor].
    eapply frames_bind; [apply frames_new_param|intros l Hl].
    apply frames_ret. cbn. by apply Forall_cons_2.
  - intros b Hb. apply frames_ret. unfold Conv2d_locs. cbn. by apply Forall_cons_2.
Qed.

Lemma frames_call_norm_layer lo k G C :
  frames (T := T) lo (call_norm_layer k G C) (λ n, Forall (λ l, lo ≤ l) (Norm_locs n)).
Proof.
  destruct k; cbn [call_norm_layer]; unfold new_GroupNorm, new_BatchNorm2d.
  all: solve_frames_using fail.
  all: apply frames_ret; cbn;
    repeat first [apply Forall_nil_2 | apply Forall_cons_2]; done.
Qed.

Lemma frames_new_LayerNorm lo n : frames (T := T) lo (new_LayerNorm n) (λ _, True).
Proof. unfold new_LayerNorm. solve_frames_using fail. by apply frames_ret. Qed.
End Frames2.

(** Closes a goal on the freshness of a list of leaves given literally. *)
Ltac solve_fresh :=
  unfold leaves_fresh in *; cbn [Block_leaves Downsample_leaves FinalPool_leaves app];
  repeat first
    [ apply Forall_nil_2
    | apply Forall_cons_2; [cbn [leaf_locs]; done|]
    | apply Forall_app; split
    | done ].

Section FramesNet.
Context {T : Type} `{Torch T}.
Implicit Types h : list T.

Lemma frames_block_init lo c inpl pl st ds g bw dil nl la :
  leaves_fresh (Downsample_leaves ds) lo →
  frames (T := T) lo (block_init c inpl pl st ds g bw dil nl la)
    (λ b, leaves_fresh (Block_leaves b) lo).
Proof.
  intros Hds. destruct c; cbn [block_init].
  - eapply frames_bind; [|intros b Hb; apply frames_ret; exact Hb].
    unfold BasicBlockID_init, super_init. rewrite decide_False by done.
    apply (frames_bind _ _ _ (λ _, False)); [apply frames_raise|by intros ? []].
  - eapply frames_bind; [|intros b Hb; apply frames_ret; exact Hb].
    unfold BasicBlock_init, super_init, conv3x3. rewrite decide_True by done.
    eapply frames_bind; [by apply (frames_ret _ _ (λ _, True))|intros _ _].
    cbv zeta.
    solve_frames_using ltac:(first [apply frames_new_Conv2d
                                   | apply frames_call_norm_layer]).
    apply frames_ret. solve_fresh.
  - eapply frames_bind; [|intros b Hb; apply frames_ret; exact Hb].
    unfold Bottleneck_init, super_init, conv3x3, conv1x1. rewrite decide_True by done.
    eapply frames_bind; [by apply (frames_ret _ _ (λ _, True))|intros _ _].
    cbv zeta.
    solve_frames_using ltac:(first [apply frames_new_Conv2d
                                   | apply frames_call_norm_layer]).
    apply frames_ret. solve_fresh.
Qed.

Lemma frames_make_rest lo self c pl blocks la idx :
  frames (T := T) lo (make_rest self c pl blocks la idx)
    (λ bs, Forall (λ b, leaves_fresh (Block_leaves b) lo) bs).
Proof.
  induction idx as [|i idx IH]; cbn [make_rest]; [by apply frames_ret|].
  eapply frames_bind; [apply frames_block_init; constructor|intros b Hb].
  eapply frames_bind; [apply IH|intros bs Hbs].
  apply frames_ret. by apply Forall_cons_2.
Qed.

Lemma frames__make_layer lo self c pl blocks st dilate la :
  frames (T := T) lo (_make_layer self c pl blocks st dilate la)
    (λ r, Forall (λ b, leaves_fresh (Block_leaves b) lo) r.1).
Proof.
  unfold _make_layer. cbv zeta.
  apply (frames_bind _ _ _ (λ ds, leaves_fresh (Downsample_leaves ds) lo)).
  - case_match; [|apply frames_ret; constructor]. unfold conv1x1.
    eapply frames_bind; [apply frames_new_Conv2d|intros cv Hc].
    eapply frames_bind; [apply frames_call_norm_layer|intros nv Hn].
    apply frames_ret. solve_fresh.
  - intros ds Hds.
    eapply frames_bind; [by apply frames_block_init|intros b Hb].
    eapply frames_bind; [apply frames_make_rest|intros bs Hbs].
    apply frames_ret. by apply Forall_cons_2.
Qed.

Lemma frames_make_optional_layer lo present self a rswd i la nof :
  frames (T := T) lo (make_optional_layer present self a rswd i la nof)
    (λ r, Forall (λ b, leaves_fresh (Block_leaves b) lo) (layer_blocks r.1.1)).
Proof.
  unfold make_optional_layer. destruct present; [|apply frames_ret; constructor].
  solve_frames_using ltac:(apply frames__make_layer).
  by apply frames_ret.
Qed.

Lemma frames_final_pool lo (ty : string) nof fof :
  frames (T := T) lo
    (if String.eqb ty "avg_pool"
     then ret (Some (Some (AdaptiveAvgPool2d 1 1)))
     else if String.eqb ty "1x1_pool"
     then c <- new_Conv2d nof fof 1 1 0 1 1 true ;; ret (Some (Some (PoolConv c)))
     else if String.eqb ty "id" then ret (Some None) else ret None)
    (λ p, leaves_fresh (FinalPool_leaves p) lo).
Proof.
  repeat case_match; try (apply frames_ret; constructor).
  eapply frames_bind; [apply frames_new_Conv2d|intros c Hc].
  apply frames_ret. solve_fresh.
Qed.

Lemma frames_final_ln lo (fl : bool) (filters : list nat) :
  frames (T := T) lo
    (if fl then n <- index_last filters ;; new_LayerNorm n else ret LnIdentity)
    (λ _, True).
Proof.
  destruct fl; [|by apply frames_ret].
  eapply frames_bind; [apply frames_index_last|intros n _].
  apply frames_new_LayerNorm.
Qed.

Lemma frames_constant_ lo w c : lo ≤ w → frames (T := T) lo (constant_ w c) (λ _, True).
Proof.
  intros Hw. unfold constant_.
  eapply frames_bind; [apply frames_read|intros old _]. by apply frames_write.
Qed.

Lemma frames_kaiming_normal_ lo w :
  lo ≤ w → frames (T := T) lo (kaiming_normal_ w) (λ _, True).
Proof.
  intros Hw. unfold kaiming_normal_.
  eapply frames_bind; [apply frames_read|intros old _].
  eapply frames_bind; [apply frames_draw|intros seed _]. by apply frames_write.
Qed.

Lemma Norm_weight_in n : Norm_weight n ∈ Norm_locs n.
Proof. destruct n; cbn; apply list_elem_of_here. Qed.

Lemma Norm_bias_in n : Norm_bias n ∈ Norm_locs n.
Proof. destruct n; cbn; apply list_elem_of_further, list_elem_of_here. Qed.

Lemma frames_init_leaf lo m :
  Forall (λ l, lo ≤ l) (leaf_locs m) → frames (T := T) lo (init_leaf m) (λ _, True).
Proof.
  intros Hm. rewrite Forall_forall in Hm. destruct m as [c|n]; cbn [init_leaf leaf_locs] in *.
  - apply frames_kaiming_normal_, Hm. unfold Conv2d_locs. apply list_elem_of_here.
  - eapply frames_bind; [apply frames_constant_, Hm, Norm_weight_in|intros _ _].
    apply frames_constant_, Hm, Norm_bias_in.
Qed.

Lemma frames_zero_init_block lo b :
  leaves_fresh (Block_leaves b) lo → frames (T := T) lo (zero_init_block b) (λ _, True).
Proof.
  unfold leaves_fresh. intros Hb. rewrite Forall_forall in Hb.
  destruct b as [b|b|b]; cbn [zero_init_block Block_leaves] in *;
    [by apply frames_ret| |].
  - specialize (Hb (LeafNorm (bb_bn2 b))). cbn [leaf_locs] in Hb.
    rewrite Forall_forall in Hb.
    apply frames_constant_, Hb; [|apply Norm_weight_in].
    apply elem_of_app. left. repeat first [apply list_elem_of_here | apply list_elem_of_further].
  - specialize (Hb (LeafNorm (bn_bn3 b))). cbn [leaf_locs] in Hb.
    rewrite Forall_forall in Hb.
    apply frames_constant_, Hb; [|apply Norm_weight_in].
    apply elem_of_app. left. repeat first [apply list_elem_of_here | apply list_elem_of_further].
Qed.

Lemma frames_for_each {A} lo (f : A → M T unit) xs :
  Forall (λ x, frames lo (f x) (λ _, True)) xs →
  frames lo (for_each f xs) (λ _, True).
Proof.
  induction 1 as [|x xs Hx _ IH]; cbn [for_each]; [by apply frames_ret|].
  eapply frames_bind; [exact Hx|intros _ _]. exact IH.
Qed.

Lemma leaves_fresh_blocks lo bs :
  Forall (λ b, leaves_fresh (Block_leaves b) lo) bs →
  leaves_fresh (concat (map Block_leaves bs)) lo.
Proof.
  unfold leaves_fresh. induction 1 as [|b bs Hb _ IH]; cbn; [constructor|].
  apply Forall_app. by split.
Qed.

Lemma frames_ResNet_init lo a :
  frames (T := T) lo (ResNet_init a) (λ net, leaves_fresh (ResNet_leaves net) lo).
Proof.
  unfold ResNet_init. cbv zeta. case_match; [apply frames_raise|].
  eapply frames_bind; [apply frames_index|intros nof _].
  eapply frames_bind; [apply frames_index|intros f0 _].
  eapply frames_bind; [apply frames_new_Conv2d|intros c1 Hc1].
  eapply frames_bind; [apply frames_call_norm_layer|intros n1 Hn1].
  eapply frames_bind; [apply frames_index|intros blocks _].
  eapply frames_bind; [apply frames_index|intros stride _].
  eapply frames_bind; [apply frames__make_layer|intros r1 Hr1].
  eapply frames_bind; [apply frames_make_optional_layer|intros r2 Hr2].
  eapply frames_bind; [apply frames_make_optional_layer|intros r3 Hr3].
  eapply frames_bind; [apply frames_make_optional_layer|intros r4 Hr4].
  eapply frames_bind; [apply frames_final_pool|intros fp Hfp].
  eapply frames_bind; [apply frames_final_ln|intros fl _].
  cbv beta in *.
  assert (Hblocks : Forall (λ b, leaves_fresh (Block_leaves b) lo)
            (r1.1 ++ layer_blocks r2.1.1 ++ layer_blocks r3.1.1 ++ layer_blocks r4.1.1)).
  { rewrite !Forall_app. by split_and!. }
  assert (Hleaves : leaves_fresh
            ([LeafConv c1; LeafNorm n1]
             ++ concat (map Block_leaves
                  (r1.1 ++ layer_blocks r2.1.1 ++ layer_blocks r3.1.1
                   ++ layer_blocks r4.1.1))
             ++ FinalPool_leaves fp) lo).
  { unfold leaves_fresh. rewrite !Forall_app. split_and!.
    - apply Forall_cons_2; [exact Hc1|]. apply Forall_cons_2; [exact Hn1|constructor].
    - by apply leaves_fresh_blocks.
    - exact Hfp. }
  eapply frames_bind.
  { apply frames_for_each. eapply Forall_impl; [exact Hleaves|].
    intros m. apply frames_init_leaf. }
  intros _ _.
  eapply frames_bind.
  { case_match; [|by apply (frames_ret _ _ (λ _, True))].
    apply frames_for_each. eapply Forall_impl; [exact Hblocks|].
    intros b. apply frames_zero_init_block. }
  intros _ _. apply frames_ret. exact Hleaves.
Qed.
End FramesNet.

(** X10.  [ResNet.__init__] only adds to the heap, whatever its arguments and
    its outcome: every tensor that existed before the call is left as it
    was, and all the parameters of the network it returns were allocated
    by the call. *)
Theorem ResNet_init_frame {T : Type} `{Torch T} a (s : state T) :
  let r := ResNet_init a s in
  length (heap s) ≤ length (heap r.2)
  ∧ (∀ l, l < length (heap s) → heap r.2 !! l = heap s !! l)
  ∧ ∀ net, r.1 = Ok net → leaves_fresh (ResNet_leaves net) (length (heap s)).
Proof.
  intros r.
  destruct (frames_ResNet_init (length (heap s)) a s r.1 r.2) as [[L K] Hnet];
    [done|apply surjective_pairing|].
  by split_and!.
Qed.

Section Channels.
Context {T : Type} `{Torch T}.
Implicit Types h : list T.

Lemma rmap_shape_Raise (r : result T) e : rmap shape r = Raise e → r = Raise e.
Proof. destruct r as [y|e']; cbn; [discriminate|]. by intros [= <-]. Qed.

(** A convolution refuses an input whose channels are not the ones it was
    built for. *)
Lemma Conv2d_apply_mismatch h c cin cout k st p xv n c' hh ww :
  Conv2d_wf h c cin cout k st p →
  shape xv = [n; c'; hh; ww] → c' ≠ cin →
  Conv2d_apply h c xv = Raise RuntimeError.
Proof.
  intros (Ei & Eo & Ek & Es & Ep & Ed & Eg & Hw & Hb) Hx Hne.
  unfold Conv2d_apply, mbind, result_bind.
  destruct (fetch_has_shape _ _ _ Hw) as (w & -> & Hws). cbn [rbind].
  assert (Hbias : ∃ b, fetch_opt h (conv_bias c) = Ok b).
  { unfold fetch_opt. destruct (conv_bias c) as [bl|]; [|eauto].
    destruct (fetch_has_shape _ _ _ Hb) as (b & -> & _). cbn. eauto. }
  destruct Hbias as (b & ->). cbn [rbind].
  apply rmap_shape_Raise. rewrite shape_conv2d by (by rewrite Hx).
  rewrite Hx, Hws, Eg. unfold conv2d_shape. rewrite Nat.mul_1_r.
  by replace (c' =? cin) with false by (symmetry; by apply Nat.eqb_neq).
Qed.
End Channels.

(** X11.  On a network of four [BasicBlock] layers, [forward] on a batch
    whose number of channels is not [num_channels] raises [RuntimeError]
    (from the first convolution) and leaves every tensor that existed
    before as it was. *)
Theorem ResNet_forward_wrong_channels {T : Type} `{Torch T}
    a f0 f1 f2 f3 t0 t1 t2 t3 l0 l1 l2 l3 (s0 : state T) net s1
    (s : state T) x xv B C Hh W :
  a_block a = cBasicBlock → a_layers a = [l0; l1; l2; l3] →
  a_filters a = [f0; f1; f2; f3] → a_strides a = [t0; t1; t2; t3] →
  a_groups a = 1 → a_width_per_group a = 64 →
  a_replace_stride_with_dilation a = None → a_norm_layer a = None →
  gn_ok f0 = true → gn_ok f1 = true → gn_ok f2 = true → gn_ok f3 = true →
  ResNet_init a s0 = (Ok net, s1) →
  same_shapes (heap s1) (heap s) → heap s !! x = Some xv →
  shape xv = [B; C; Hh; W] → C ≠ a_num_channels a →
  (ResNet_forward net x s).1 = Raise RuntimeError
  ∧ ∀ l, l < length (heap s) → heap (ResNet_forward net x s).2 !! l = heap s !! l.
Proof.
  intros Hb Hl Hf Ht Hg Hw Hr Hn G0 G1 G2 G3 E Hs Hx Hshape HC.
  destruct (ResNet_init_returns a f0 f1 f2 f3 t0 t1 t2 t3 l0 l1 l2 l3 s0)
    as (net' & s1' & E' & _ & Wf); [done..|].
  rewrite E in E'. injection E' as <- <-.
  apply (ResNet_wf_mono _ _ _ _ _ _ _ _ _ _ _ _ Hs) in Wf.
  destruct Wf as (Hpad & Hc1 & _).
  assert (Ea : ResNet_apply (heap s) net xv = Raise RuntimeError).
  { unfold ResNet_apply, mbind, result_bind. rewrite Hpad.
    assert (Hp : ∃ x0 hh ww,
      match (if a_initial_padding a then Some 1 else None) with
      | Some p => constant_pad2d xv p
      | None => Ok xv
      end = Ok x0 ∧ shape x0 = [B; C; hh; ww]).
    { destruct (a_initial_padding a); [|eauto].
      destruct (constant_pad2d_Ok xv 1 _ _ _ _ Hshape) as (x0 & -> & Hx0). eauto. }
    destruct Hp as (x0 & hh & ww & -> & Hx0). cbn [rbind].
    by rewrite (Conv2d_apply_mismatch _ _ _ _ _ _ _ _ _ _ _ _ Hc1 Hx0 HC). }
  assert (Hnet : ResNet_in net (length (heap s))).
  { destruct (ResNet_init_built a s0 net s1) as [_ Hin]; [by rewrite Hn|done|].
    eapply leaves_in_mono; [exact Hin|]. by apply same_shapes_length. }
  destruct s as [h g]. cbn [heap] in *.
  destruct (ResNet_forward_run net x h g xv Hnet Hx) as (h' & [_ K] & Y).
  rewrite Ea in Y. cbn in Y. apply out_loc_Raise_inv in Y.
  rewrite Y. cbn. split; [done|exact K].
Qed.

Lemma ResNet_forward_wrong_channels_witness :
  ∃ net s1,
    ResNet_init (T := sym) resnet18_args empty_state = (Ok net, s1)
    ∧ (ResNet_forward net (length (heap s1)) (with_input s1 [2; 5; 64; 64])).1
      = Raise RuntimeError.
Proof.
  destruct (ResNet_init (T := sym) resnet18_args empty_state) as [[net|e] s1] eqn:E;
    [|vm_compute in E; discriminate].
  exists net, s1. split; [reflexivity|].
  refine (proj1 (ResNet_forward_wrong_channels (T := sym) resnet18_args 64 128 256 512
           1 2 2 2 2 2 2 2 empty_state net s1 (with_input s1 [2; 5; 64; 64])
           (length (heap s1)) (Sym [2; 5; 64; 64] (tInput 0)) 2 5 64 64
           _ _ _ _ _ _ _ _ _ _ _ _ E _ _ _ _)).
  1-8: reflexivity.
  1-4: vm_compute; reflexivity.
  - apply same_shapes_app.
  - unfold with_input. cbn [heap]. by rewrite lookup_app_r, Nat.sub_diag.
  - reflexivity.
  - discriminate.
Defined.

Section Stem.
Context {T : Type} `{Torch T}.
Implicit Types h : list T.

(** The stem of a well-formed network: padding, the 7x7 convolution, the
    normalisation, the activation and the max-pooling. *)
Lemma ResNet_stem_shape h net a f0 f1 f2 f3 t0 t1 t2 t3 xv B Hh W :
  ResNet_wf h net a f0 f1 f2 f3 t0 t1 t2 t3 → gn_ok f0 = true →
  shape xv = [B; a_num_channels a; Hh; W] → 3 ≤ Hh → 3 ≤ W →
  ∃ x4,
    ResNet_apply h net xv
    = rbind (Sequential_apply h (layer1 net) x4)
        (λ x, x ← optional_layer_apply h (layer2 net) x;
              x ← optional_layer_apply h (layer3 net) x;
              x ← optional_layer_apply h (layer4 net) x;
              fp ← attr_final_pool (final_pool net);
              x ← FinalPool_apply h fp x;
              if negb (spatial_output net) then flatten1 x else Ok x)
    ∧ shape x4 = [B; f0; stem_extent (a_initial_padding a) (a_inital_maxpool a) Hh;
                  stem_extent (a_initial_padding a) (a_inital_maxpool a) W].
Proof.
  intros (Hpad & Hc1 & Hn1 & Hmp & _) G0 Hx HH HW.
  unfold ResNet_apply, mbind, result_bind. rewrite Hpad.
  set (pad := a_initial_padding a) in *.
  assert (Hp : ∃ x0, (if pad then constant_pad2d xv 1 else Ok xv) = Ok x0
                     ∧ shape x0 = [B; a_num_channels a;
                                   (if pad then Hh + 2 else Hh);
                                   (if pad then W + 2 else W)]).
  { destruct pad; [|eauto].
    destruct (constant_pad2d_Ok xv 1 _ _ _ _ Hx) as (x0 & -> & Hx0). eauto. }
  destruct Hp as (x0 & Ep & Hx0).
  replace (match (if pad then Some 1 else None) with
           | Some p => constant_pad2d xv p
           | None => Ok xv
           end) with (Ok x0 : result T) by (by destruct pad).
  cbn [rbind].
  destruct (Conv2d_apply_shape h _ x0 _ _ _ _ _ _ _ _ Hc1 Hx0)
    as (x1 & -> & Hx1); [lia|lia|destruct pad; lia|destruct pad; lia|].
  cbn [rbind].
  destruct (Norm_apply_shape h _ _ x1 _ _ _ Hn1 G0 Hx1) as (x2 & -> & Hx2).
  cbn [rbind].
  assert (Hx3 : shape (Act_apply (relu_ net) x2) = shape x2) by apply Act_apply_shape.
  rewrite Hx2 in Hx3. clear Hx2 Hx1 Hx0 Ep. revert Hx3.
  generalize (Act_apply (relu_ net) x2). intros x3 Hx3.
  unfold ResNet_trunk_apply, mbind, result_bind. rewrite Hmp.
  set (mp := a_inital_maxpool a) in *.
  assert (Hm : ∃ x4,
    (if mp then max_pool2d x3 3 2 1 else Ok x3) = Ok x4
    ∧ shape x4 = [B; f0; stem_extent pad mp Hh; stem_extent pad mp W]).
  { unfold stem_extent. destruct mp; [|eauto].
    destruct (max_pool2d_Ok x3 _ _ _ _ Hx3) as (x4 & -> & Hx4);
      [apply window_out_pos..|]. eauto. }
  destruct Hm as (x4 & Em & Hx4). exists x4. split; [|done].
  replace (match (if mp then Some {| mp_kernel := 3; mp_stride := 2; mp_padding := 1 |}
                  else None) with
           | Some m => max_pool2d x3 (mp_kernel m) (mp_stride m) (mp_padding m)
           | None => Ok x3
           end) with (Ok x4 : result T) by (by destruct mp).
  reflexivity.
Qed.
End Stem.

(** X12.  A network of four [BasicBlock] layers whose first filter count
    is not [width_per_group * widen] is built but cannot run: [forward]
    raises [RuntimeError] on every batch of the configured channels, at the
    first convolution of [layer1], which expects [inplanes] channels. *)
Theorem ResNet_forward_inplanes_mismatch {T : Type} `{Torch T}
    a f0 f1 f2 f3 t0 t1 t2 t3 l0 l1 l2 l3 (s0 : state T) net s1
    (s : state T) x xv B Hh W :
  a_block a = cBasicBlock → a_layers a = [l0; l1; l2; l3] →
  a_filters a = [f0; f1; f2; f3] → a_strides a = [t0; t1; t2; t3] →
  a_groups a = 1 → a_width_per_group a = 64 →
  a_replace_stride_with_dilation a = None → a_norm_layer a = None →
  gn_ok f0 = true → gn_ok f1 = true → gn_ok f2 = true → gn_ok f3 = true →
  ResNet_init a s0 = (Ok net, s1) →
  same_shapes (heap s1) (heap s) → heap s !! x = Some xv →
  shape xv = [B; a_num_channels a; Hh; W] → 3 ≤ Hh → 3 ≤ W →
  f0 ≠ 64 * a_widen a →
  (ResNet_forward net x s).1 = Raise RuntimeError.
Proof.
  intros Hb Hl Hf Ht Hg Hw Hr Hn G0 G1 G2 G3 E Hs Hx Hshape HH HW Hne.
  destruct (ResNet_init_returns a f0 f1 f2 f3 t0 t1 t2 t3 l0 l1 l2 l3 s0)
    as (net' & s1' & E' & _ & Wf); [done..|].
  rewrite E in E'. injection E' as <- <-.
  apply (ResNet_wf_mono _ _ _ _ _ _ _ _ _ _ _ _ Hs) in Wf.
  destruct (ResNet_stem_shape _ _ _ _ _ _ _ _ _ _ _ xv B Hh W Wf G0 Hshape HH HW)
    as (x4 & Ea & Hx4).
  destruct Wf as (_ & _ & _ & _ & Hl1 & _).
  destruct (layer1 net) as [|b rest]; [done|]. destruct Hl1 as [Hb1 _].
  destruct b as [|b|]; try done. destruct Hb1 as (Hc & _).
  cbn [Sequential_apply Block_apply] in Ea.
  unfold BasicBlock_apply, skip_connection, BasicBlock_transform, mbind, result_bind
    in Ea.
  rewrite (Conv2d_apply_mismatch _ _ _ _ _ _ _ _ _ _ _ _ Hc Hx4) in Ea
    by (rewrite Hw; lia).
  cbn [rbind] in Ea.
  assert (Hnet : ResNet_in net (length (heap s))).
  { destruct (ResNet_init_built a s0 net s1) as [_ Hin]; [by rewrite Hn|done|].
    eapply leaves_in_mono; [exact Hin|]. by apply same_shapes_length. }
  destruct s as [h g]. cbn [heap] in *.
  destruct (ResNet_forward_run net x h g xv Hnet Hx) as (h' & _ & Y).
  rewrite Ea in Y. cbn in Y. apply out_loc_Raise_inv in Y. by rewrite Y.
Qed.

Lemma ResNet_forward_inplanes_mismatch_witness :
  ∃ net s1,
    ResNet_init (T := sym)
      (with_options resnet18_args [64; 128; 256; 512] 2 false "avg_pool") empty_state
    = (Ok net, s1)
    ∧ (ResNet_forward net (length (heap s1)) (with_input s1 [2; 3; 64; 64])).1
      = Raise RuntimeError.
Proof.
  destruct (ResNet_init (T := sym)
              (with_options resnet18_args [64; 128; 256; 512] 2 false "avg_pool")
              empty_state) as [[net|e] s1] eqn:E;
    [|vm_compute in E; discriminate].
  exists net, s1. split; [reflexivity|].
  refine (ResNet_forward_inplanes_mismatch (T := sym)
           (with_options resnet18_args [64; 128; 256; 512] 2 false "avg_pool")
           64 128 256 512 1 2 2 2 2 2 2 2 empty_state net s1
           (with_input s1 [2; 3; 64; 64])
           (length (heap s1)) (Sym [2; 3; 64; 64] (tInput 0)) 2 64 64
           _ _ _ _ _ _ _ _ _ _ _ _ E _ _ _ _ _ _).
  1-8: reflexivity.
  1-4: vm_compute; reflexivity.
  - apply same_shapes_app.
  - unfold with_input. cbn [heap]. by rewrite lookup_app_r, Nat.sub_diag.
  - reflexivity.
  - lia.
  - lia.
  - discriminate.
Defined.

Section SmallInput.
Context {T : Type} `{Torch T}.
Implicit Types h : list T.

(** A convolution refuses an input smaller than its window. *)
Lemma Conv2d_apply_too_small h c cin cout k st p xv n hh ww :
  Conv2d_wf h c cin cout k st p →
  shape xv = [n; cin; hh; ww] → hh + 2 * p < k ∨ ww + 2 * p < k →
  Conv2d_apply h c xv = Raise RuntimeError.
Proof.
  intros (Ei & Eo & Ek & Es & Ep & Ed & Eg & Hw & Hb) Hx Hsmall.
  unfold Conv2d_apply, mbind, result_bind.
  destruct (fetch_has_shape _ _ _ Hw) as (w & -> & Hws). cbn [rbind].
  assert (Hbias : ∃ b, fetch_opt h (conv_bias c) = Ok b).
  { unfold fetch_opt. destruct (conv_bias c) as [bl|]; [|eauto].
    destruct (fetch_has_shape _ _ _ Hb) as (b & -> & _). cbn. eauto. }
  destruct Hbias as (b & ->). cbn [rbind].
  apply rmap_shape_Raise. rewrite shape_conv2d by (by rewrite Hx).
  rewrite Hx, Hws, Eg, Ed, Ep. unfold conv2d_shape.
  rewrite Nat.mul_1_r, Nat.eqb_refl. cbn [negb].
  destruct (conv_stride c =? 0); [done|].
  replace ((hh + 2 * p <? 1 * (k - 1) + 1) || (ww + 2 * p <? 1 * (k - 1) + 1))
    with true; [done|].
  symmetry. apply orb_true_iff.
  destruct Hsmall; [left|right]; apply Nat.ltb_lt; lia.
Qed.

Lemma bind_congr {A B} (m m' : M T A) (k k' : A → M T B) s :
  m s = m' s → (∀ a s1, k a s1 = k' a s1) → bind m k s = bind m' k' s.
Proof.
  intros Hm Hk. unfold bind. rewrite Hm. destruct (m' s) as [[a|e] s1]; [apply Hk|done].
Qed.

Lemma make_rest_last_activation self pl blocks la la' idx :
  make_rest (T := T) self cBasicBlock pl blocks la idx
  = make_rest self cBasicBlock pl blocks la' idx.
Proof.
  induction idx as [|i idx IH]; cbn [make_rest]; [done|]. by rewrite IH.
Qed.

Lemma _make_layer_last_activation self pl blocks st dilate la la' :
  _make_layer (T := T) self cBasicBlock pl blocks st dilate la
  = _make_layer self cBasicBlock pl blocks st dilate la'.
Proof.
  unfold _make_layer. cbv zeta.
  by rewrite (make_rest_last_activation _ pl blocks la la').
Qed.

Lemma make_optional_layer_last_activation present self a rswd i la la' la0 nof
    (s : state T) :
  a_block a = cBasicBlock →
  make_optional_layer present self (with_last_activation a la0) rswd i la nof s
  = make_optional_layer present self a rswd i la' nof s.
Proof.
  intros Hb. unfold make_optional_layer. destruct present; [|done].
  cbn [with_last_activation a_filters a_layers a_strides a_block]. rewrite Hb.
  repeat (apply bind_congr; [reflexivity|intros ? ?]).
  by rewrite (_make_layer_last_activation _ _ _ _ _ la la').
Qed.
End SmallInput.

(** X13.  On a network of four [BasicBlock] layers built without the
    initial padding, [forward] on a batch of height or width below 3 raises
    [RuntimeError]: the input, with the padding 2 of the first convolution,
    is smaller than its window of 7. *)
Theorem ResNet_forward_small_input {T : Type} `{Torch T}
    a f0 f1 f2 f3 t0 t1 t2 t3 l0 l1 l2 l3 (s0 : state T) net s1
    (s : state T) x xv B Hh W :
  a_block a = cBasicBlock → a_layers a = [l0; l1; l2; l3] →
  a_filters a = [f0; f1; f2; f3] → a_strides a = [t0; t1; t2; t3] →
  a_groups a = 1 → a_width_per_group a = 64 →
  a_replace_stride_with_dilation a = None → a_norm_layer a = None →
  gn_ok f0 = true → gn_ok f1 = true → gn_ok f2 = true → gn_ok f3 = true →
  ResNet_init a s0 = (Ok net, s1) →
  same_shapes (heap s1) (heap s) → heap s !! x = Some xv →
  shape xv = [B; a_num_channels a; Hh; W] →
  a_initial_padding a = false → Hh < 3 ∨ W < 3 →
  (ResNet_forward net x s).1 = Raise RuntimeError.
Proof.
  intros Hb Hl Hf Ht Hg Hw Hr Hn G0 G1 G2 G3 E Hs Hx Hshape Hnopad Hsmall.
  destruct (ResNet_init_returns a f0 f1 f2 f3 t0 t1 t2 t3 l0 l1 l2 l3 s0)
    as (net' & s1' & E' & _ & Wf); [done..|].
  rewrite E in E'. injection E' as <- <-.
  apply (ResNet_wf_mono _ _ _ _ _ _ _ _ _ _ _ _ Hs) in Wf.
  destruct Wf as (Hpad & Hc1 & _). rewrite Hnopad in Hpad.
  assert (Ea : ResNet_apply (heap s) net xv = Raise RuntimeError).
  { unfold ResNet_apply, mbind, result_bind. rewrite Hpad. cbn [rbind].
    rewrite (Conv2d_apply_too_small _ _ _ _ _ _ _ _ _ _ _ Hc1 Hshape); [done|lia]. }
  assert (Hnet : ResNet_in net (length (heap s))).
  { destruct (ResNet_init_built a s0 net s1) as [_ Hin]; [by rewrite Hn|done|].
    eapply leaves_in_mono; [exact Hin|]. by apply same_shapes_length. }
  destruct s as [h g]. cbn [heap] in *.
  destruct (ResNet_forward_run net x h g xv Hnet Hx) as (h' & _ & Y).
  rewrite Ea in Y. cbn in Y. apply out_loc_Raise_inv in Y. by rewrite Y.
Qed.

Lemma ResNet_forward_small_input_witness :
  ∃ net s1,
    ResNet_init (T := sym) resnet18_unpadded_args empty_state = (Ok net, s1)
    ∧ (ResNet_forward net (length (heap s1)) (with_input s1 [2; 3; 2; 64])).1
      = Raise RuntimeError.
Proof.
  destruct (ResNet_init (T := sym) resnet18_unpadded_args empty_state)
    as [[net|e] s1] eqn:E; [|vm_compute in E; discriminate].
  exists net, s1. split; [reflexivity|].
  refine (ResNet_forward_small_input (T := sym) resnet18_unpadded_args
           64 128 256 512 1 2 2 2 2 2 2 2 empty_state net s1
           (with_input s1 [2; 3; 2; 64])
           (length (heap s1)) (Sym [2; 3; 2; 64] (tInput 0)) 2 2 64
           _ _ _ _ _ _ _ _ _ _ _ _ E _ _ _ _ _).
  1-8: reflexivity.
  1-4: vm_compute; reflexivity.
  - apply same_shapes_app.
  - unfold with_input. cbn [heap]. by rewrite lookup_app_r, Nat.sub_diag.
  - reflexivity.
  - reflexivity.
  - left. lia.
Defined.

(** X14.  [last_activation] has no effect on a network of [BasicBlock]s:
    [ResNet.__init__] with any other value has the same outcome, the same
    network and the same state. *)
Theorem BasicBlock_network_last_activation {T : Type} `{Torch T}
    a la (s : state T) :
  a_block a = cBasicBlock →
  ResNet_init (with_last_activation a la) s = ResNet_init a s.
Proof.
  intros Hb. unfold ResNet_init. cbv zeta.
  cbn [with_last_activation a_block a_layers a_filters a_strides a_num_channels
       a_zero_init_residual a_groups a_widen a_width_per_group
       a_replace_stride_with_dilation a_norm_layer a_last_activation
       a_inital_maxpool a_final_pool_type a_final_out_filters a_spatial_output
       a_expand_factor a_initial_padding a_final_ln].
  case_match; [done|].
  repeat (apply bind_congr;
          [first [reflexivity | by apply make_optional_layer_last_activation]
          |intros ? ?]).
  reflexivity.
Qed.

Lemma BasicBlock_network_last_activation_witness :
  ResNet_init (T := sym) (with_last_activation resnet18_args "sigmoid") empty_state
  = ResNet_init resnet18_args empty_state.
Proof.
  apply (BasicBlock_network_last_activation (T := sym) resnet18_args "sigmoid").
  reflexivity.
Defined.

Section Accepts.
Context {T : Type} `{Torch T}.
Implicit Types h : list T.

Lemma new_GroupNorm_Ok_inv G C (s : state T) n s' :
  new_GroupNorm G C s = (Ok n, s') → norm_accepts nn_GroupNorm G C = true.
Proof.
  unfold new_GroupNorm, norm_accepts. intros E.
  destruct (G =? 0); [discriminate|]. destruct (C mod G =? 0); [done|discriminate].
Qed.

Lemma BasicBlock_init_Ok_inv inpl pl st ds g bw dil la (s : state T) b s' :
  BasicBlock_init inpl pl st ds g bw dil (Some nn_GroupNorm) la s = (Ok b, s') →
  gn_ok pl = true.
Proof.
  intros E. unfold BasicBlock_init in E. inv_run E.
  change (default nn_BatchNorm2d (Some nn_GroupNorm)) with nn_GroupNorm in *.
  match goal with
  | En : call_norm_layer nn_GroupNorm _ _ _ = (Ok _, _) |- _ =>
      by apply new_GroupNorm_Ok_inv in En
  end.
Qed.

Lemma _make_layer_Ok_inv self pl blocks st dilate la (s : state T) r s' :
  mk_norm_layer self = nn_GroupNorm →
  _make_layer self cBasicBlock pl blocks st dilate la s = (Ok r, s') →
  gn_ok pl = true.
Proof.
  intros Hn E. unfold _make_layer in E. cbv zeta in E.
  apply bind_Ok_inv in E as (ds & s1 & _ & E).
  apply bind_Ok_inv in E as (b & s2 & E & _).
  cbn [block_init] in E. apply bind_Ok_inv in E as (b' & s3 & E & _).
  rewrite Hn in E. by apply BasicBlock_init_Ok_inv in E.
Qed.

Lemma _make_layer_norm_layer self c pl blocks st dilate la (s : state T) r s' :
  _make_layer self c pl blocks st dilate la s = (Ok r, s') →
  mk_norm_layer r.2 = mk_norm_layer self.
Proof.
  intros E. unfold _make_layer in E. cbv zeta in E.
  apply bind_Ok_inv in E as (ds & s1 & _ & E).
  apply bind_Ok_inv in E as (b & s2 & _ & E).
  apply bind_Ok_inv in E as (bs & s3 & _ & E).
  unfold ret in E. simplify_eq. cbn. by destruct dilate.
Qed.

Lemma make_optional_layer_Ok_inv self a rswd i la nof f (s : state T) r s' :
  mk_norm_layer self = nn_GroupNorm → a_block a = cBasicBlock →
  a_filters a !! i = Some f →
  make_optional_layer true self a rswd i la nof s = (Ok r, s') →
  gn_ok f = true ∧ mk_norm_layer r.1.2 = nn_GroupNorm.
Proof.
  intros Hn Hb Hf E. unfold make_optional_layer in E. rewrite Hb in E.
  inv_run E. index_facts. unfold ret in E. simplify_eq. cbn [fst snd].
  match goal with
  | El : _make_layer _ _ _ _ _ _ _ _ = (Ok _, _) |- _ =>
      pose proof (_make_layer_Ok_inv _ _ _ _ _ _ _ _ _ Hn El) as Hok;
      apply _make_layer_norm_layer in El as Hnl
  end.
  split; [done|congruence].
Qed.
End Accepts.

(** X15.  For four layers of [BasicBlock]s with the default [groups],
    [width_per_group], [replace_stride_with_dilation] and [norm_layer],
    [ResNet.__init__] returns exactly when [GroupNorm] accepts every filter
    count [f] with the group count [min(32, f // 4)]: that count is not 0
    and divides [f]. *)
Theorem BasicBlock_network_filters {T : Type} `{Torch T}
    a f0 f1 f2 f3 t0 t1 t2 t3 l0 l1 l2 l3 (s : state T) :
  a_block a = cBasicBlock → a_layers a = [l0; l1; l2; l3] →
  a_filters a = [f0; f1; f2; f3] → a_strides a = [t0; t1; t2; t3] →
  a_groups a = 1 → a_width_per_group a = 64 →
  a_replace_stride_with_dilation a = None → a_norm_layer a = None →
  is_ok (ResNet_init a s).1 = true
  ↔ gn_ok f0 = true ∧ gn_ok f1 = true ∧ gn_ok f2 = true ∧ gn_ok f3 = true.
Proof.
  intros Hb Hl Hf Ht Hg Hw Hr Hn. split.
  - destruct (ResNet_init a s) as [[net|e] s'] eqn:E; [intros _|discriminate].
    unfold ResNet_init in E. cbv zeta in E. rewrite Hn, Hb, Hl in E.
    cbn [default length Nat.leb Nat.eqb] in E.
    inv_run E. index_facts.
    repeat match goal with
    | Hi : a_filters a !! _ = Some _ |- _ => rewrite Hf in Hi; cbn in Hi
    end. simplify_eq.
    match goal with
    | En : call_norm_layer nn_GroupNorm _ _ _ = (Ok _, _) |- _ =>
        apply new_GroupNorm_Ok_inv in En
    end.
    match goal with
    | E1 : _make_layer _ _ _ _ _ _ _ _ = (Ok _, _) |- _ =>
        apply _make_layer_norm_layer in E1 as N1; cbn in N1
    end.
    repeat match goal with
    | Eo : make_optional_layer true _ a _ ?i _ _ _ = (Ok _, _) |- _ =>
        eapply (make_optional_layer_Ok_inv _ a _ i) in Eo as [? ?];
        [|done|done|by rewrite Hf]
    end.
    by split_and!.
  - intros (G0 & G1 & G2 & G3).
    destruct (ResNet_init_returns a f0 f1 f2 f3 t0 t1 t2 t3 l0 l1 l2 l3 s)
      as (net & s' & -> & _); done.
Qed.

Lemma BasicBlock_network_filters_witness :
  is_ok (ResNet_init (T := sym) resnet18_args empty_state).1 = true
  ↔ gn_ok 64 = true ∧ gn_ok 128 = true ∧ gn_ok 256 = true ∧ gn_ok 512 = true.
Proof.
  apply (BasicBlock_network_filters (T := sym) resnet18_args 64 128 256 512
           1 2 2 2 2 2 2 2 empty_state); reflexivity.
Defined.
